(** * http-launch: connection, request and routing layer

    A shallow embedding of [src/http-launch.c].  The program is a GLib
    main-loop server in front of a GStreamer pipeline: clients connect, send
    a request line, are routed to a named [multisocketsink] endpoint and,
    once the content type of the endpoint is known, are answered and handed
    over to the sink.

    - State: the globals [clients], [endpoints] and [started], and the heap
      of [Client] structures.  [tmp] pointers into a buffer are offsets.
    - Callbacks are functions in a state-and-fault monad and run one after
      the other ([G_LOCK]s are not modelled).  A freed [Client] that is read
      or freed again and a NULL [EndPoint] that is dereferenced are faults;
      nothing is said about the program after a fault.
    - What the program does to its collaborators (bytes written to a client,
      sockets handed to a sink, pipeline state) is recorded in order;
      diagnostics printed with [g_print] are left out, the reads of a
      [Client] they make are kept.
    - GLib functions ([g_strsplit], [g_ascii_strtoll], [g_list_remove], ...)
      are modelled from their documented behaviour. *)

From Stdlib Require Import ZArith Ascii String.
From stdpp Require Import base list gmap strings.

Local Open Scope Z_scope.
Local Open Scope nat_scope.

(** ** Bytes and C strings *)

Abbreviation bytes := (list ascii).

Definition cr : ascii := Ascii.ascii_of_nat 13.
Definition lf : ascii := Ascii.ascii_of_nat 10.
Definition nul : ascii := Ascii.ascii_of_nat 0.
Definition tab : ascii := Ascii.ascii_of_nat 9.
Definition vt : ascii := Ascii.ascii_of_nat 11.
Definition ff : ascii := Ascii.ascii_of_nat 12.

(** A string literal of the source, as bytes. *)
Definition str (s : string) : bytes := list_ascii_of_string s.

Definition crlf : bytes := [cr; lf].
Definition crlfcrlf : bytes := [cr; lf; cr; lf].

(** The C string a [gchar *] denotes: the bytes before the first NUL. *)
Fixpoint cstring (data : bytes) : bytes :=
  match data with
  | [] => []
  | ch :: rest => if decide (ch = nul) then [] else ch :: cstring rest
  end.

(** ** GByteArray *)

Definition g_byte_array_append (array data : bytes) : bytes := array ++ data.

Definition g_byte_array_remove_range (array : bytes) (index len : nat) : bytes :=
  take index array ++ drop (index + len) array.

(** [g_nearest_pow]: the least power of two that is not below [num]. *)
Definition g_nearest_pow (num : nat) : nat := 2 ^ Nat.log2_up num.

(** [g_array_maybe_expand]: the size of the storage of an array that had
    [alloc] bytes, once its content has [want] bytes.  Storage that is too
    small is reallocated with the next power of two, and at least
    [MIN_ARRAY_SIZE] = 16 bytes; removing bytes gives nothing back. *)
Definition g_array_maybe_expand (alloc want : nat) : nat :=
  if bool_decide (alloc < want) then Nat.max (g_nearest_pow want) 16 else alloc.

(** ** The boundary scan of [on_read_bytes]

    [tmp] is kept as an offset into [current_message->data]; the test of the
    source reads [tmp[0]] .. [tmp[3]]. *)

Definition terminator_at (data : bytes) (tmp : nat) : bool :=
  bool_decide (data !! tmp = Some cr)
  && bool_decide (data !! (tmp + 1) = Some lf)
  && bool_decide (data !! (tmp + 2) = Some cr)
  && bool_decide (data !! (tmp + 3) = Some lf).

(** The iterations of [while (tmp_len > 3)] that take the [else] branch
    ([tmp++; tmp_len--]), up to the first position where the test succeeds;
    the result is [tmp] and [tmp_len] there. *)
Fixpoint scan_forward (data : bytes) (tmp tmp_len : nat) : option (nat * nat) :=
  match tmp_len with
  | 0 => None
  | S tmp_len' =>
      if bool_decide (3 < tmp_len) then
        if terminator_at data tmp then Some (tmp, tmp_len)
        else scan_forward data (S tmp) tmp_len'
      else None
  end.

(** The scan as [on_read_bytes] starts it: [tmp = data], [tmp_len = len];
    the offset found is [tmp - data]. *)
Definition boundary_scan (data : bytes) : option nat :=
  fst <$> scan_forward data 0 (length data).

(** The read loop of [on_read_bytes]: every chunk read is appended. *)
Definition accumulate (array : bytes) (chunks : list bytes) : bytes :=
  foldl g_byte_array_append array chunks.

(** Reference notions for the scan, in the words of the specification. *)
Definition occurs_at (stream : bytes) (k : nat) : Prop :=
  ∃ post, drop k stream = crlfcrlf ++ post.

Definition contains_terminator (stream : bytes) : Prop :=
  ∃ pre post, stream = pre ++ crlfcrlf ++ post.

Definition first_occurrence (stream : bytes) (k : nat) : Prop :=
  occurs_at stream k ∧ ∀ j, j < k → ¬ occurs_at stream j.

(** ** GLib string helpers used by [client_message] *)

(** Tokens of [s] between delimiter characters; never empty. *)
Fixpoint split_on (is_delim : ascii → bool) (s : bytes) : list bytes :=
  match s with
  | [] => [[]]
  | ch :: rest =>
      if is_delim ch then [] :: split_on is_delim rest
      else match split_on is_delim rest with
           | tok :: toks => (ch :: tok) :: toks
           | [] => [[ch]]
           end
  end.

(** [g_strsplit_set (s, delimiters, -1)]: splitting the empty string gives
    the empty vector. *)
Definition g_strsplit_set (s delimiters : bytes) : list bytes :=
  match s with
  | [] => []
  | _ => split_on (λ ch, bool_decide (ch ∈ delimiters)) s
  end.

(** [g_strsplit (s, delimiter, -1)] for the one-character delimiters the
    source passes ([" "] and ["/"]). *)
Definition g_strsplit (s : bytes) (delimiter : ascii) : list bytes :=
  match s with
  | [] => []
  | _ => split_on (λ ch, bool_decide (ch = delimiter)) s
  end.

Definition g_strv_length (v : list bytes) : nat := length v.

Fixpoint has_prefix (s prefix : bytes) : bool :=
  match prefix, s with
  | [], _ => true
  | p :: prefix', ch :: s' => bool_decide (ch = p) && has_prefix s' prefix'
  | _ :: _, [] => false
  end.

(** [g_str_has_prefix]: a NULL string fails the precondition check and the
    call returns FALSE. *)
Definition g_str_has_prefix (s : option bytes) (prefix : bytes) : bool :=
  match s with
  | None => false
  | Some s => has_prefix s prefix
  end.

(** [g_strcmp0] on two non-NULL strings: [strcmp] on unsigned bytes. *)
Fixpoint g_strcmp0 (a b : bytes) : Z :=
  match a, b with
  | [], [] => 0
  | [], _ :: _ => -1
  | _ :: _, [] => 1
  | x :: a', y :: b' =>
      if decide (x = y) then g_strcmp0 a' b'
      else if bool_decide (nat_of_ascii x < nat_of_ascii y)%nat then -1 else 1
  end%Z.

(** *** [g_ascii_strtoll (s, NULL, 10)] and the cast to [gint] *)

Definition G_MAXINT64 : Z := 2 ^ 63 - 1.
Definition G_MININT64 : Z := - 2 ^ 63.

Definition g_ascii_isspace (ch : ascii) : bool :=
  bool_decide (ch ∈ [" "%char; tab; lf; vt; ff; cr]).

Definition digit_value (ch : ascii) : option Z :=
  let n := nat_of_ascii ch in
  if bool_decide (48 ≤ n ≤ 57) then Some (Z.of_nat n - 48)%Z else None.

(** Value of the longest prefix of decimal digits, from accumulator [acc]. *)
Fixpoint parse_digits (acc : Z) (s : bytes) : Z :=
  match s with
  | [] => acc
  | ch :: rest =>
      match digit_value ch with
      | Some d => parse_digits (10 * acc + d)%Z rest
      | None => acc
      end
  end.

Fixpoint skip_spaces (s : bytes) : bytes :=
  match s with
  | ch :: rest => if g_ascii_isspace ch then skip_spaces rest else s
  | [] => []
  end.

(** Leading white space, an optional sign, decimal digits; no digits give
    0 and a value out of range is clamped to the [gint64] bounds. *)
Definition g_ascii_strtoll (s : bytes) : Z :=
  match skip_spaces s with
  | "-"%char :: rest => Z.max G_MININT64 (- parse_digits 0 rest)
  | "+"%char :: rest => Z.min G_MAXINT64 (parse_digits 0 rest)
  | rest => Z.min G_MAXINT64 (parse_digits 0 rest)
  end%Z.

(** [(gint) x]: the low 32 bits, read as two's complement. *)
Definition to_gint (x : Z) : Z := ((x + 2 ^ 31) mod 2 ^ 32 - 2 ^ 31)%Z.

(** [(guint64) x]. *)
Definition to_guint64 (x : Z) : Z := (x mod 2 ^ 64)%Z.

Definition GST_SECOND : Z := 1000000000.
Definition MAX_FLASHBACK : Z := 120.

(** ** Data model *)

Record EndPoint := mkEndPoint {
  element : nat;                   (* GstElement *element *)
  ep_name : bytes;                 (* gchar *name *)
  content_type : option bytes;     (* gchar *content_type, NULL at start *)
  caps_resolved : bool
}.

Record Client := mkClient {
  name : bytes;
  connection : nat;                (* GSocketConnection *, with its streams *)
  socket : nat;                    (* GSocket * *)
  isource : bool;                  (* read watcher attached (non-NULL) *)
  tosource : bool;                 (* idle timer attached (non-NULL) *)
  current_message : bytes;         (* GByteArray *: its bytes ... *)
  allocated : nat;                 (* ... and the size of its storage *)
  http_version : bytes;
  waiting_200_ok : bool;
  endpoint : option nat            (* EndPoint *: position in [endpoints] *)
}.

(** The three responses the program formats, and their bytes. *)
Inductive response :=
  | Response200 (version : bytes) (ctype : option bytes)
  | Response404 (version : bytes)
  | Response400 (version : bytes).

(** The [g_strdup_printf] of each [send_response_*]; a NULL [%s] argument
    prints as [(null)]. *)
Definition render (r : response) : bytes :=
  match r with
  | Response200 version ctype =>
      version ++ str " 200 OK" ++ crlf ++ default (str "(null)") ctype ++ crlf
  | Response404 version => version ++ str " 404 Not Found" ++ crlfcrlf
  | Response400 version => version ++ str " 400 Bad Request" ++ crlfcrlf
  end.

(** What the program does to its collaborators. *)
Inductive effect :=
  | Written (client : nat) (r : response) (* [render r] taken by the ostream *)
  | AddFull (elem sock : nat) (burst_mode min_value max_value : Z)
  | SetPlaying                           (* pipeline to GST_STATE_PLAYING *)
  | MainLoopQuit
  | Unref (conn : nat).                  (* g_object_unref (connection) *)

(** The globals of the program, the heap of [Client] structures (a pointer
    is never handed out twice, so it names one session), the effects so far
    in order, and what the environment decides: the clients whose output
    stream fails, and whether the pipeline refuses to play. *)
Record state := mkState {
  clients : list nat;
  endpoints : list EndPoint;
  started : bool;
  heap : gmap nat Client;
  next_client : nat;
  effects : list effect;
  broken : gset nat;
  play_fails : bool
}.

Inductive fault :=
  | UseAfterFree      (* a freed Client is read, written or freed again *)
  | NullDeref         (* client->endpoint is NULL and is dereferenced *)
  | WildPointer       (* client->endpoint is outside [endpoints] *)
  | Deadlock          (* G_LOCK on a lock the thread already holds *)
  | OutOfFuel.

Inductive outcome (A : Type) :=
  | Ok (a : A) (s : state)
  | Fault (f : fault).
Arguments Ok {A} a s.
Arguments Fault {A} f.

Definition M (A : Type) : Type := state → outcome A.

#[export] Instance M_ret : MRet M := λ A a s, Ok a s.
#[export] Instance M_bind : MBind M := λ A B f m s,
  match m s with
  | Ok a s' => f a s'
  | Fault e => Fault e
  end.

Definition get : M state := λ s, Ok s s.
Definition modify (f : state → state) : M unit := λ s, Ok tt (f s).
Definition fail {A} (e : fault) : M A := λ _, Fault e.

Definition set_clients (l : list nat) (s : state) : state :=
  mkState l (endpoints s) (started s) (heap s) (next_client s) (effects s)
          (broken s) (play_fails s).
Definition set_endpoints (l : list EndPoint) (s : state) : state :=
  mkState (clients s) l (started s) (heap s) (next_client s) (effects s)
          (broken s) (play_fails s).
Definition set_started (b : bool) (s : state) : state :=
  mkState (clients s) (endpoints s) b (heap s) (next_client s) (effects s)
          (broken s) (play_fails s).
Definition set_heap (h : gmap nat Client) (s : state) : state :=
  mkState (clients s) (endpoints s) (started s) h (next_client s) (effects s)
          (broken s) (play_fails s).
Definition set_next_client (n : nat) (s : state) : state :=
  mkState (clients s) (endpoints s) (started s) (heap s) n (effects s)
          (broken s) (play_fails s).
Definition set_effects (l : list effect) (s : state) : state :=
  mkState (clients s) (endpoints s) (started s) (heap s) (next_client s) l
          (broken s) (play_fails s).
Definition set_broken (b : gset nat) (s : state) : state :=
  mkState (clients s) (endpoints s) (started s) (heap s) (next_client s)
          (effects s) b (play_fails s).

Definition set_isource (b : bool) (c : Client) : Client :=
  mkClient (name c) (connection c) (socket c) b (tosource c)
           (current_message c) (allocated c) (http_version c)
           (waiting_200_ok c) (endpoint c).
Definition set_tosource (b : bool) (c : Client) : Client :=
  mkClient (name c) (connection c) (socket c) (isource c) b
           (current_message c) (allocated c) (http_version c)
           (waiting_200_ok c) (endpoint c).
(** The array after its content has become [m], by [g_byte_array_append] or
    by [g_byte_array_remove_range]: the storage has grown if [m] did not
    fit. *)
Definition set_current_message (m : bytes) (c : Client) : Client :=
  mkClient (name c) (connection c) (socket c) (isource c) (tosource c)
           m (g_array_maybe_expand (allocated c) (length m)) (http_version c)
           (waiting_200_ok c) (endpoint c).
Definition set_http_version (v : bytes) (c : Client) : Client :=
  mkClient (name c) (connection c) (socket c) (isource c) (tosource c)
           (current_message c) (allocated c) v (waiting_200_ok c) (endpoint c).
Definition set_waiting_200_ok (b : bool) (c : Client) : Client :=
  mkClient (name c) (connection c) (socket c) (isource c) (tosource c)
           (current_message c) (allocated c) (http_version c) b (endpoint c).
Definition set_endpoint (e : option nat) (c : Client) : Client :=
  mkClient (name c) (connection c) (socket c) (isource c) (tosource c)
           (current_message c) (allocated c) (http_version c)
           (waiting_200_ok c) e.

Definition set_content_type (t : option bytes) (e : EndPoint) : EndPoint :=
  mkEndPoint (element e) (ep_name e) t (caps_resolved e).
Definition set_caps_resolved (b : bool) (e : EndPoint) : EndPoint :=
  mkEndPoint (element e) (ep_name e) (content_type e) b.

(** *** Memory accesses *)

(** Read [*client]. *)
Definition deref (client : nat) : M Client := λ s,
  match heap s !! client with
  | Some cl => Ok cl s
  | None => Fault UseAfterFree
  end.

(** Write one field of [*client]. *)
Definition update (client : nat) (f : Client → Client) : M unit :=
  cl ← deref client;
  modify (λ s, set_heap (<[client := f cl]> (heap s)) s).

(** Read [*p] for an [EndPoint *p] held by a client. *)
Definition deref_endpoint (p : option nat) : M EndPoint := λ s,
  match p with
  | None => Fault NullDeref
  | Some i =>
      match endpoints s !! i with
      | Some e => Ok e s
      | None => Fault WildPointer
      end
  end.

Definition emit (e : effect) : M unit :=
  modify (λ s, set_effects (effects s ++ [e]) s).

(** ** GList helpers *)

(** [g_list_remove]: drops the first node holding [data], if any. *)
Fixpoint g_list_remove (l : list nat) (data : nat) : list nat :=
  match l with
  | [] => []
  | x :: l' => if decide (x = data) then l' else x :: g_list_remove l' data
  end.

(** [g_list_find_custom (endpoints, name, endpoint_compare_by_name)]: the
    first endpoint the comparison returns 0 for, as a position. *)
Fixpoint find_by_name (l : list EndPoint) (nm : bytes) (i : nat) : option nat :=
  match l with
  | [] => None
  | e :: l' =>
      if bool_decide (g_strcmp0 (ep_name e) nm = 0%Z) then Some i
      else find_by_name l' nm (S i)
  end.

(** The same with [endpoint_compare_by_element]. *)
Fixpoint find_by_element (l : list EndPoint) (elem : nat) (i : nat) : option nat :=
  match l with
  | [] => None
  | e :: l' =>
      if bool_decide (element e = elem) then Some i
      else find_by_element l' elem (S i)
  end.

(** ** The program *)

Definition remove_client (client : nat) : M unit :=
  cl ← deref client;                        (* g_print reads client->name *)
  modify (λ s, set_clients (g_list_remove (clients s) client) s);;
  (* name and http_version freed, both sources destroyed if attached *)
  emit (Unref (connection cl));;
  (* current_message released, then the Client itself *)
  modify (λ s, set_heap (delete client (heap s)) s).

(** [data] is always one of the three responses and stands for the bytes
    [render data].  A healthy output stream takes them all; a failing one
    takes nothing and the client is removed. *)
Definition write_bytes (client : nat) (data : response) : M unit :=
  cl ← deref client;                        (* client->ostream *)
  s ← get;
  if bool_decide (client ∈ broken s) then remove_client client
  else emit (Written client data).

Definition send_response_200_ok (client : nat) : M unit :=
  cl ← deref client;
  ep ← deref_endpoint (endpoint cl);
  write_bytes client (Response200 (http_version cl) (content_type ep)).

(** The same three functions when the caller holds [G_LOCK (clients)], as
    the loop of [on_stream_caps_changed] does: [remove_client] prints the
    name and then waits at its own [G_LOCK (clients)] for a lock that is
    not recursive and that its own thread holds. *)
Definition remove_client_locked (client : nat) : M unit :=
  cl ← deref client;                        (* g_print reads client->name *)
  fail Deadlock.                            (* G_LOCK (clients) *)

Definition write_bytes_locked (client : nat) (data : response) : M unit :=
  cl ← deref client;                        (* client->ostream *)
  s ← get;
  if bool_decide (client ∈ broken s) then remove_client_locked client
  else emit (Written client data).

Definition send_response_200_ok_locked (client : nat) : M unit :=
  cl ← deref client;
  ep ← deref_endpoint (endpoint cl);
  write_bytes_locked client (Response200 (http_version cl) (content_type ep)).

Definition send_response_404_not_found (client : nat) : M unit :=
  cl ← deref client;
  write_bytes client (Response404 (http_version cl)).

Definition send_response_400_not_found (client : nat) : M unit :=
  cl ← deref client;
  write_bytes client (Response400 (http_version cl)).

(** The version stored by [client_message] from the split request line. *)
Definition request_version (parts : list bytes) : bytes :=
  match parts !! 1, parts !! 2 with
  | Some _, Some (ch :: v) => ch :: v
  | _, _ => str "HTTP/1.0"
  end.

(** [burst_mode] and [min_value] as left by the two blocks that look at
    [path_parts[2]] and [path_parts[3]]. *)
Definition delivery_mode (path_parts : list bytes) (ret : bool) : Z * Z :=
  let nb_parts := g_strv_length path_parts in
  let burst_mode := 2%Z in
  let min_value := to_guint64 (-1) in
  let '(burst_mode, min_value) :=
    if bool_decide (2 < nb_parts) && ret then
      if bool_decide (g_strcmp0 (default [] (path_parts !! 2)) (str "flashback") = 0%Z)
      then (4%Z, to_guint64 (30 * GST_SECOND))
      else (burst_mode, min_value)
    else (burst_mode, min_value) in
  let min_value :=
    if bool_decide (3 < nb_parts) && ret then
      let offset := to_gint (g_ascii_strtoll (default [] (path_parts !! 3))) in
      if bool_decide (0 < offset)%Z && bool_decide (offset < MAX_FLASHBACK)%Z
      then to_guint64 (offset * GST_SECOND)
      else min_value
    else min_value in
  (burst_mode, min_value).

(** The block under [if (nb_parts > 1)]: look the endpoint up and answer. *)
Definition route (client : nat) (path_parts : list bytes) : M bool :=
  if bool_decide (1 < g_strv_length path_parts) then
    s ← get;
    match find_by_name (endpoints s) (default [] (path_parts !! 1)) 0 with
    | Some result =>
        update client (set_endpoint (Some result));;
        cl ← deref client;
        ep ← deref_endpoint (endpoint cl);
        (if caps_resolved ep then send_response_200_ok client
         else update client (set_waiting_200_ok true));;
        mret true
    | None =>
        send_response_404_not_found client;;
        mret false
    end
  else mret false.

(** The block under [if (ret)]: hand the socket over for a GET and start
    the pipeline on first use. *)
Definition start_streaming (client : nat) (http_get_request : bool)
    (burst_mode min_value : Z) : M unit :=
  (if http_get_request then
     update client (set_isource false);;
     update client (set_tosource false);;
     cl ← deref client;
     ep ← deref_endpoint (endpoint cl);
     emit (AddFull (element ep) (socket cl) burst_mode min_value (to_guint64 (-1)))
   else mret tt);;
  s ← get;
  if started s then mret tt
  else
    emit SetPlaying;;
    (if play_fails s then emit MainLoopQuit else mret tt);;
    modify (set_started true).

Definition client_message (client : nat) (data : bytes) (len : nat) : M bool :=
  let lines := g_strsplit_set (cstring data) crlf in
  let http_head_request := g_str_has_prefix (lines !! 0) (str "HEAD") in
  let http_get_request :=
    negb http_head_request && g_str_has_prefix (lines !! 0) (str "GET") in
  if http_head_request || http_get_request then
    let parts := g_strsplit (default [] (lines !! 0)) " "%char in
    update client (set_http_version (request_version parts));;
    match parts !! 1 with
    | Some path =>
        let path_parts := g_strsplit path "/"%char in
        ret ← route client path_parts;
        let '(burst_mode, min_value) := delivery_mode path_parts ret in
        (if ret then start_streaming client http_get_request burst_mode min_value
         else mret tt);;
        mret ret
    | None => mret false
    end
  else
    send_response_400_not_found client;;
    mret false.

Definition on_timeout (client : nat) : M bool :=
  remove_client client;;
  mret false.

(** How the read loop of [on_read_bytes] ends. *)
Inductive read_end :=
  | ReadEOF            (* r == 0 *)
  | ReadWouldBlock     (* G_IO_ERROR_WOULD_BLOCK *)
  | ReadError.         (* any other error *)

(** The branch of the scan loop taken at a terminator: the request is NUL
    terminated, handed to [client_message] and consumed, or the client is
    removed.  The result is the new [tmp] and [tmp_len].

    [tmp] is a pointer into the storage of the array, taken before the NUL
    is appended.  When the array is full the append reallocates the
    storage, [tmp] is left pointing into the block that was released, and
    [len], computed from it, is no offset into the array any more.
    [client_message] makes no use of [len]; [g_byte_array_remove_range]
    does. *)
Definition handle_request (client : nat) (tmp tmp_len : nat) : M (nat * nat) :=
  cl ← deref client;
  let reallocated :=
    bool_decide (allocated cl < length (current_message cl) + 1) in
  update client (λ cl,
    set_current_message (g_byte_array_append (current_message cl) [nul]) cl);;
  let len := tmp + 5 in
  cl ← deref client;
  ok ← client_message client (current_message cl) len;
  if ok : bool then
    (if reallocated then fail UseAfterFree else mret tt);;
    update client (λ cl,
      set_current_message (g_byte_array_remove_range (current_message cl) 0 len) cl);;
    cl ← deref client;
    mret (0, length (current_message cl))
  else
    remove_client client;;
    mret (tmp, tmp_len).

(** [while (tmp_len > 3)], one request per unit of fuel. *)
Fixpoint scan_loop (fuel : nat) (client : nat) (tmp tmp_len : nat) : M unit :=
  match fuel with
  | 0 => fail OutOfFuel
  | S fuel' =>
      if bool_decide (3 < tmp_len) then
        cl ← deref client;                  (* tmp[0] .. tmp[3] *)
        match scan_forward (current_message cl) tmp tmp_len with
        | Some (tmp, tmp_len) =>
            '(tmp, tmp_len) ← handle_request client tmp tmp_len;
            scan_loop fuel' client tmp tmp_len
        | None => mret tt
        end
      else mret tt
  end.

(** One call of [on_read_bytes]: [reads] are the chunks the non-blocking
    reads returned before the read that ended the loop with [last]. *)
Definition on_read_bytes (client : nat) (reads : list bytes) (last : read_end)
    : M bool :=
  update client (λ cl,
    set_current_message (accumulate (current_message cl) reads) cl);;
  match last with
  | ReadEOF =>
      remove_client client;;
      mret false
  | ReadWouldBlock =>
      cl ← deref client;
      let tmp_len := length (current_message cl) in
      scan_loop (S (S tmp_len)) client 0 tmp_len;;
      cl ← deref client;
      if bool_decide (1024 * 1024 ≤ Z.of_nat (length (current_message cl)))%Z then
        remove_client client;;
        mret false
      else mret true
  | ReadError =>
      remove_client client;;
      mret false
  end.

Definition on_new_connection (conn sock : nat) (peer : bytes) : M bool :=
  s ← get;
  let client := next_client s in
  modify (set_next_client (S client));;
  modify (λ s, set_heap (<[client :=
    {| name := peer; connection := conn; socket := sock;
       isource := true; tosource := true;
       current_message := []; allocated := 1024; http_version := [];
       waiting_200_ok := false; endpoint := None |}]> (heap s)) s);;
  modify (λ s, set_clients (client :: clients s) s);;
  mret true.

(** The search of [on_client_socket_removed] through [clients]. *)
Fixpoint find_by_socket (l : list nat) (sock : nat) : M (option nat) :=
  match l with
  | [] => mret None
  | tmp :: l' =>
      cl ← deref tmp;
      if bool_decide (sock = socket cl) then mret (Some tmp)
      else find_by_socket l' sock
  end.

Definition on_client_socket_removed (elem sock : nat) : M unit :=
  s ← get;
  found ← find_by_socket (clients s) sock;
  match found with
  | Some client => remove_client client
  | None => mret tt
  end.

(** The loop of [on_stream_caps_changed] over [clients], which runs with
    [G_LOCK (clients)] held: the first client of the element that waits is
    answered, and the loop stops there. *)
Fixpoint notify_waiting (l : list nat) (elem : nat) : M unit :=
  match l with
  | [] => mret tt
  | c :: l' =>
      cl ← deref c;
      ep ← deref_endpoint (endpoint cl);    (* cl->endpoint->element *)
      if bool_decide (element ep = elem) && waiting_200_ok cl then
        send_response_200_ok_locked c;;
        update c (set_waiting_200_ok false)
      else notify_waiting l' elem
  end.

Definition caps_content_type (caps_name : bytes) : bytes :=
  str "Content-Type: " ++ caps_name ++ crlf.

(** [elem] is the parent element of the pad and [caps_name] the name of the
    first structure of its current caps. *)
Definition on_stream_caps_changed (elem : nat) (caps_name : bytes) : M unit :=
  s ← get;
  match find_by_element (endpoints s) elem 0 with
  | Some i =>
      modify (λ s, set_endpoints
        (alter (λ e, set_caps_resolved true
                       (set_content_type (Some (caps_content_type caps_name)) e))
               i (endpoints s)) s)
  | None => mret tt
  end;;
  s ← get;
  notify_waiting (clients s) elem.

(** ** The main loop *)

Inductive event :=
  | Incoming (conn sock : nat) (peer : bytes)
  | Readable (client : nat) (reads : list bytes) (last : read_end)
  | TimerFired (client : nat)
  | SocketRemoved (elem sock : nat)
  | CapsChanged (elem : nat) (caps_name : bytes)
  | StreamBroken (client : nat).   (* the peer stops accepting writes *)

(** A source is dispatched only while it is attached to a live client. *)
Definition attached (s : state) (client : nat) (src : Client → bool) : bool :=
  match heap s !! client with
  | Some cl => src cl
  | None => false
  end.

Definition dispatch (ev : event) : M unit :=
  match ev with
  | Incoming conn sock peer => on_new_connection conn sock peer;; mret tt
  | Readable client reads last =>
      s ← get;
      if attached s client isource
      then on_read_bytes client reads last;; mret tt
      else mret tt
  | TimerFired client =>
      s ← get;
      if attached s client tosource
      then on_timeout client;; mret tt
      else mret tt
  | SocketRemoved elem sock => on_client_socket_removed elem sock
  | CapsChanged elem caps_name => on_stream_caps_changed elem caps_name
  | StreamBroken client => modify (λ s, set_broken ({[client]} ∪ broken s) s)
  end.

Fixpoint run (evs : list event) : M unit :=
  match evs with
  | [] => mret tt
  | ev :: evs' => dispatch ev;; run evs'
  end.

(** The state [main] enters the loop with: the endpoints found in the
    pipeline, no client, nothing sent. *)
Definition initial (eps : list (nat * bytes)) : state :=
  {| clients := [];
     endpoints := (λ '(elem, nm), mkEndPoint elem nm None false) <$> eps;
     started := false; heap := ∅; next_client := 0; effects := [];
     broken := ∅; play_fails := false |}.

(** ** Post-conditions

    [ensures m s Q]: if [m] returns from [s] without a fault, the result and
    the final state satisfy [Q]. *)
Definition ensures {A} (m : M A) (s : state) (Q : A → state → Prop) : Prop :=
  ∀ a s', m s = Ok a s' → Q a s'.

(** ** Shape of the state

    What the callbacks keep true between them: [clients] lists every live
    [Client] once, and the allocator has not yet handed out any pointer it
    will hand out later. *)
Record consistent (s : state) : Prop := {
  clients_NoDup : NoDup (clients s);
  clients_live : ∀ c, c ∈ clients s ↔ is_Some (heap s !! c);
  heap_allocated : ∀ c, is_Some (heap s !! c) → c < next_client s
}.

(** [preserves m]: from a consistent state, [m] returns in one. *)
Definition preserves {A} (m : M A) : Prop :=
  ∀ s, consistent s → ensures m s (λ _ s', consistent s').

(** [fuel_free m]: [m] never stops for lack of fuel. *)
Definition fuel_free {A} (m : M A) : Prop := ∀ s, m s ≠ Fault OutOfFuel.

(** The state a run ends in, if it ends without a fault. *)
Definition final {A} (o : outcome A) : option state :=
  match o with
  | Ok _ s => Some s
  | Fault _ => None
  end.

(** ** Counting 200 OK responses

    What a session has been sent, and what its [waiting_200_ok] flag still
    promises. *)
Definition is_200_ok (client : nat) (e : effect) : bool :=
  match e with
  | Written c (Response200 _ _) => bool_decide (c = client)
  | _ => false
  end.

Definition count_200_ok (client : nat) (effs : list effect) : nat :=
  length (filter (λ e, is_200_ok client e = true) effs).

Definition sent_200_ok (client : nat) (s : state) : nat :=
  count_200_ok client (effects s).

Definition owed_200_ok (client : nat) (s : state) : nat :=
  match heap s !! client with
  | Some cl => if waiting_200_ok cl then 1 else 0
  | None => 0
  end.

(** Responses sent plus response promised. *)
Definition due_200_ok (client : nat) (s : state) : nat :=
  sent_200_ok client s + owed_200_ok client s.

(** ** A concrete server

    One endpoint [test] on element 7; clients connect from [demo_peer]. *)
Definition demo_endpoints : list (nat * bytes) := [(7, str "test")].
Definition demo_peer : bytes := str "192.0.2.1:4711".
Definition request (line : string) : bytes := str line ++ crlfcrlf.
Definition matroska : bytes := str "video/x-matroska".
Definition webm : bytes := str "video/webm".

Definition after (evs : list event) : outcome unit :=
  run evs (initial demo_endpoints).

Definition demo_client (message : bytes) : Client :=
  {| name := demo_peer; connection := 100; socket := 200;
     isource := true; tosource := true;
     current_message := message; allocated := 1024; http_version := [];
     waiting_200_ok := false; endpoint := None |}.

(** The state in which the first client has connected and [message] sits
    in its buffer. *)
Definition connected (message : bytes) : state :=
  {| clients := [0];
     endpoints := [mkEndPoint 7 (str "test") None false];
     started := false; heap := {[0 := demo_client message]};
     next_client := 1; effects := []; broken := ∅; play_fails := false |}.

(** The server once its only client has been removed, having done [effs]. *)
Definition disconnected (effs : list effect) : state :=
  {| clients := [];
     endpoints := [mkEndPoint 7 (str "test") None false];
     started := false; heap := ∅;
     next_client := 1; effects := effs; broken := ∅; play_fails := false |}.

(** The server with no client, after the pad of element 7 got its caps. *)
Definition resolved (caps_name : bytes) : state :=
  {| clients := [];
     endpoints :=
       [mkEndPoint 7 (str "test") (Some (caps_content_type caps_name)) true];
     started := false; heap := ∅;
     next_client := 0; effects := []; broken := ∅; play_fails := false |}.

Definition post_request : bytes := request "POST /test HTTP/1.1".
Definition missing_request : bytes := request "GET /missing HTTP/1.0".
Definition head_request : bytes := request "HEAD /test HTTP/1.0".
Definition flashback_request : bytes := request "GET /test/flashback/45 HTTP/1.1".

(** ** Decimal numerals

    The text of a list of decimal digits and the number it denotes, to say
    what [g_ascii_strtoll] returns on a path segment written in digits. *)
Definition decimal (ds : list nat) : bytes :=
  (λ d, ascii_of_nat (48 + d)) <$> ds.

Definition decimal_value (ds : list nat) : Z :=
  foldl (λ acc d, 10 * acc + Z.of_nat d)%Z 0%Z ds.

(** ** The offset segment, in the words of the specification

    The integer a path segment denotes: decimal digits, with a minus sign
    before them or not, and nothing else; there is no largest integer. *)
Definition digits_integer (seg : bytes) : option Z :=
  match seg with
  | [] => None
  | _ => foldl (λ acc ch, a ← acc; d ← digit_value ch; Some (10 * a + d)%Z)
               (Some 0%Z) seg
  end.

Definition segment_integer (seg : bytes) : option Z :=
  match seg with
  | "-"%char :: rest => Z.opp <$> digits_integer rest
  | _ => digits_integer seg
  end.

(** The start offset of a flashback request, in nanoseconds: 30 seconds,
    or the fourth path segment when it parses as an integer strictly
    between 0 and 120. *)
Definition spec_flashback_start (path_parts : list bytes) : Z :=
  match path_parts !! 3 ≫= segment_integer with
  | Some offset =>
      if bool_decide (0 < offset < 120)%Z then (offset * GST_SECOND)%Z
      else (30 * GST_SECOND)%Z
  | None => (30 * GST_SECOND)%Z
  end.

(** ** Results without fault

    [returns m s Q]: from [s], [m] returns without a fault, and the result
    and the final state satisfy [Q]. *)
Definition returns {A} (m : M A) (s : state) (Q : A → state → Prop) : Prop :=
  ∃ a s', m s = Ok a s' ∧ Q a s'.

(** [keeps I m]: from a state in [I], [m] returns in [I]. *)
Definition keeps (I : state → Prop) {A} (m : M A) : Prop :=
  ∀ s, I s → ensures m s (λ _ s', I s').

(** ** What a routed request leaves behind

    The client and the effects of [client_message] on the path where the
    endpoint [ep], at position [i], was found: [get] tells a GET from a
    HEAD, [version] is the version stored, [mode] the pair computed by
    [delivery_mode]. *)
Definition routed_client (get : bool) (version : bytes) (i : nat)
    (ep : EndPoint) (cl : Client) : Client :=
  let cl := set_endpoint (Some i) (set_http_version version cl) in
  let cl := if caps_resolved ep then cl else set_waiting_200_ok true cl in
  if get then set_tosource false (set_isource false cl) else cl.

Definition routed_effects (client : nat) (get : bool) (version : bytes)
    (ep : EndPoint) (sock : nat) (mode : Z * Z) (s : state) : list effect :=
  (if caps_resolved ep
   then [Written client (Response200 version (content_type ep))] else [])
  ++ (if get
      then [AddFull (element ep) sock mode.1 mode.2 (2 ^ 64 - 1)] else [])
  ++ (if started s then []
      else SetPlaying :: (if play_fails s then [MainLoopQuit] else [])).

(** What [on_stream_caps_changed] stores in the endpoint it finds. *)
Definition resolve_with (caps_name : bytes) (e : EndPoint) : EndPoint :=
  set_caps_resolved true (set_content_type (Some (caps_content_type caps_name)) e).

(** The clients the notification loop passes over: live, bound to an
    endpoint, and not waiting on [elem]. *)
Definition passed_over (s : state) (elem : nat) (c : nat) : Prop :=
  ∃ cl j ep, heap s !! c = Some cl ∧ endpoint cl = Some j
    ∧ endpoints s !! j = Some ep
    ∧ (element ep = elem → waiting_200_ok cl = false).

(** Two sessions that sent [HEAD /test HTTP/1.0] before the caps of element
    7 were known; the later connection is first in [clients]. *)
Definition waiting_client (conn sock : nat) : Client :=
  {| name := demo_peer; connection := conn; socket := sock;
     isource := true; tosource := true;
     current_message := []; allocated := 1024;
     http_version := str "HTTP/1.0";
     waiting_200_ok := true; endpoint := Some 0 |}.

Definition two_waiting : state :=
  {| clients := [1; 0];
     endpoints := [mkEndPoint 7 (str "test") None false];
     started := true;
     heap := {[0 := waiting_client 100 200; 1 := waiting_client 101 201]};
     next_client := 2; effects := [SetPlaying];
     broken := ∅; play_fails := false |}.

(** ** Invariants of the main loop *)

(** The header [on_stream_caps_changed] builds, for some caps name. *)
Definition typed (content_type : option bytes) : Prop :=
  ∃ caps_name, content_type = Some (caps_content_type caps_name).

Definition typed_effect (e : effect) : Prop :=
  match e with
  | Written _ (Response200 _ content_type) => typed content_type
  | _ => True
  end.

(** No two endpoints share an element, a resolved endpoint has its content
    type, and so has every 200 OK sent so far. *)
Definition responses_typed (s : state) : Prop :=
  NoDup (element <$> endpoints s)
  ∧ (∀ e, e ∈ endpoints s → caps_resolved e = true → typed (content_type e))
  ∧ Forall typed_effect (effects s).

Definition is_set_playing (e : effect) : bool :=
  match e with
  | SetPlaying => true
  | _ => false
  end.

(** How often the pipeline has been set to PLAYING. *)
Definition count_playing (effs : list effect) : nat :=
  length (filter (λ e, is_set_playing e = true) effs).

(** [started] records whether the pipeline has been set to PLAYING. *)
Definition started_once (s : state) : Prop :=
  count_playing (effects s) = if started s then 1 else 0.

(** The registry as [main] built it: elements and names, in order. *)
Definition registry (s : state) : list (nat * bytes) :=
  (λ e, (element e, ep_name e)) <$> endpoints s.

(** The demo server after a connection, [HEAD /test HTTP/1.0] and the caps
    of element 7. *)
Definition demo_events : list event :=
  [Incoming 100 200 demo_peer;
   Readable 0 [head_request] ReadWouldBlock;
   CapsChanged 7 matroska].

Definition answered : state :=
  {| clients := [0];
     endpoints :=
       [mkEndPoint 7 (str "test") (Some (caps_content_type matroska)) true];
     started := true;
     heap := {[0 := {| name := demo_peer; connection := 100; socket := 200;
                       isource := true; tosource := true;
                       current_message := []; allocated := 1024;
                       http_version := str "HTTP/1.0";
                       waiting_200_ok := false; endpoint := Some 0 |}]};
     next_client := 1;
     effects :=
       [SetPlaying;
        Written 0 (Response200 (str "HTTP/1.0")
                     (Some (caps_content_type matroska)))];
     broken := ∅; play_fails := false |}.

(** A token: no byte of [t] is one of [excluded]. *)
Definition token (excluded : list ascii) (t : bytes) : Prop :=
  Forall (λ ch, ch ∉ excluded) t.

(** The request line [GET /name version] or [HEAD /name version]. *)
Definition request_line (get : bool) (nm version : bytes) : bytes :=
  str (if get then "GET" else "HEAD") ++ str " /" ++ nm ++ str " " ++ version.

(** ** Start-up

    What [main] is given: the command line, and what GStreamer makes of
    [PIPELINE_DESC]. *)

Definition g_ascii_tolower (ch : ascii) : ascii :=
  let n := nat_of_ascii ch in
  if bool_decide (65 ≤ n ≤ 90) then ascii_of_nat (n + 32) else ch.

(** [g_ascii_strcasecmp]: the difference of the first two bytes that differ
    after lowering, or of the bytes at which one of the strings ends. *)
Fixpoint g_ascii_strcasecmp (s1 s2 : bytes) : Z :=
  match s1, s2 with
  | c1 :: s1', c2 :: s2' =>
      let l1 := Z.of_nat (nat_of_ascii (g_ascii_tolower c1)) in
      let l2 := Z.of_nat (nat_of_ascii (g_ascii_tolower c2)) in
      if bool_decide (l1 = l2) then g_ascii_strcasecmp s1' s2' else (l1 - l2)%Z
  | [], [] => 0%Z
  | [], c2 :: _ => (0 - Z.of_nat (nat_of_ascii c2))%Z
  | c1 :: _, [] => Z.of_nat (nat_of_ascii c1)
  end.

(** An element of the pipeline bin: the object, its name and the name of
    the factory that made it. *)
Record PipelineElement := mkPipelineElement {
  pe_element : nat;
  pe_name : bytes;
  pe_factory : bytes
}.

Record launch := mkLaunch {
  argv : list bytes;
  (* [gst_parse_launch]: NULL, or the elements of the bin in the order
     [gst_bin_iterate_elements] yields them *)
  parsed : option (list PipelineElement);
  (* [gst_element_set_state (pipeline, GST_STATE_READY)] fails *)
  ready_fails : bool;
  (* a later [gst_element_set_state (pipeline, GST_STATE_PLAYING)] fails *)
  playing_fails : bool
}.

(** The body of the loop over the elements of the bin. *)
Definition add_endpoint (endpoints : list EndPoint) (elm : PipelineElement)
    : list EndPoint :=
  if bool_decide (g_ascii_strcasecmp (str "multisocketsink") (pe_factory elm) = 0%Z)
  then endpoints ++ [mkEndPoint (pe_element elm) (pe_name elm) None false]
  else endpoints.

Definition find_endpoints (elems : list PipelineElement) : list EndPoint :=
  foldl add_endpoint [] elems.

(** [(guint16) x], the port parameter of
    [g_socket_listener_add_inet_port]. *)
Definition to_guint16 (x : Z) : Z := (x mod 2 ^ 16)%Z.

(** [main] up to [g_main_loop_run]: it returns early with a code, or enters
    the loop listening on [port] in state [s]. *)
Inductive startup :=
  | Exit (code : Z)
  | Serving (port : Z) (s : state).

Definition main (env : launch) : startup :=
  if bool_decide (length (argv env) < 2) then Exit (-1)
  else
    let port := to_gint (g_ascii_strtoll (default [] (argv env !! 1))) in
    match parsed env with
    | None => Exit (-2)
    | Some elems =>
        let endpoints := find_endpoints elems in
        if ready_fails env then Exit (-5)
        else
          Serving (to_guint16 port)
            {| clients := []; endpoints := endpoints; started := false;
               heap := ∅; next_client := 0; effects := [];
               broken := ∅; play_fails := playing_fails env |}
    end.

(** The elements [main] takes for endpoints, in the words of its comment:
    all multisocketsink elements. *)
Definition is_sink (elm : PipelineElement) : Prop :=
  g_ascii_tolower <$> pe_factory elm = str "multisocketsink".

(** The bin [PIPELINE_DESC] describes, last element first. *)
Definition demo_pipeline : list PipelineElement :=
  [mkPipelineElement 7 (str "test") (str "multisocketsink");
   mkPipelineElement 6 (str "matroskamux0") (str "matroskamux");
   mkPipelineElement 5 (str "queue0") (str "queue")].

Definition demo_launch : launch :=
  {| argv := [str "http-launch"; str "8080"];
     parsed := Some demo_pipeline;
     ready_fails := false; playing_fails := false |}.

(** The digits of 4294967341, that is 2^32 + 45. *)
Definition long_offset : list nat := [4; 2; 9; 4; 9; 6; 7; 3; 4; 1].

(** ** Shape of the sessions

    What every live client looks like between two callbacks, [n] being the
    number of endpoints: the two sources are attached or detached together,
    the endpoint pointer is NULL or points into the registry, a client that
    waits for its 200 OK or whose socket was handed to a sink is bound to
    an endpoint, and the version is the empty string of [on_new_connection]
    or a token of a request line. *)
Definition version_token (v : bytes) : Prop :=
  v = [] ∨ token [" "%char; cr; lf; nul] v.

Definition well_formed_client (n : nat) (cl : Client) : Prop :=
  isource cl = tosource cl
  ∧ (∀ i, endpoint cl = Some i → i < n)
  ∧ (waiting_200_ok cl = true → is_Some (endpoint cl))
  ∧ (isource cl = false → is_Some (endpoint cl))
  ∧ version_token (http_version cl).

Definition response_version (r : response) : bytes :=
  match r with
  | Response200 version _ => version
  | Response404 version => version
  | Response400 version => version
  end.

Definition clean_response (e : effect) : Prop :=
  match e with
  | Written _ r => version_token (response_version r)
  | _ => True
  end.

Definition well_formed (n : nat) (s : state) : Prop :=
  length (endpoints s) = n
  ∧ (∀ c cl, heap s !! c = Some cl → well_formed_client n cl)
  ∧ Forall clean_response (effects s).

(** A flashback request whose offset segment is that number. *)
Definition wrapped_request : bytes :=
  request "GET /test/flashback/4294967341 HTTP/1.1".

(** ** Requests in a buffer

    The requests the scan loop of [on_read_bytes] finds in a buffer when it
    accepts every one of them: the first terminator is looked for from the
    top, the request is taken out together with the byte behind it once the
    NUL has been put at the end of the buffer, and the loop starts again on
    what is left. *)
Fixpoint requests_handled (fuel : nat) (data : bytes) : nat :=
  match fuel with
  | 0 => 0
  | S fuel' =>
      match boundary_scan data with
      | Some k =>
          S (requests_handled fuel'
               (g_byte_array_remove_range
                  (g_byte_array_append data [nul]) 0 (k + 5)))
      | None => 0
      end
  end.

Definition complete_requests (data : bytes) : nat :=
  requests_handled (S (S (length data))) data.

(** The places of a stream where CR LF CR LF stands. *)
Fixpoint terminators (stream : bytes) : nat :=
  match stream with
  | [] => 0
  | _ :: rest =>
      (if bool_decide (take 4 stream = crlfcrlf) then 1 else 0)
      + terminators rest
  end.

(** * Properties *)

(** ** The boundary scan *)

Section boundary_scan.
Implicit Types (data stream : bytes) (chunks : list bytes).

Lemma accumulate_concat data chunks :
  accumulate data chunks = data ++ concat chunks.
Proof.
  revert data. induction chunks as [|c chunks IH]; intros data; simpl.
  - by rewrite app_nil_r.
  - rewrite IH. unfold g_byte_array_append. by rewrite <- app_assoc.
Qed.

Lemma occurs_at_length stream k : occurs_at stream k → k + 4 ≤ length stream.
Proof.
  intros [post Hpost]. apply (f_equal length) in Hpost.
  rewrite length_drop, length_app in Hpost. simpl in Hpost. lia.
Qed.

Lemma terminator_at_occurs data k :
  terminator_at data k = true ↔ occurs_at data k.
Proof.
  unfold terminator_at, occurs_at.
  rewrite !andb_true_iff, !bool_decide_eq_true.
  replace (data !! k) with (drop k data !! 0)
    by (rewrite lookup_drop; f_equal; lia).
  rewrite <- !(lookup_drop data k).
  destruct (drop k data) as [|a [|b [|c [|d post]]]]; simpl;
    try (split; [by intros [[[? ?] ?] ?] | by intros [? [=]]]).
  split.
  - intros [[[[= ->] [= ->]] [= ->]] [= ->]]. by exists post.
  - by intros [? [= -> -> -> ->]].
Qed.

Lemma scan_forward_spec data tmp_len : ∀ tmp,
  tmp + tmp_len = length data →
  match scan_forward data tmp tmp_len with
  | Some (k, l) =>
      tmp ≤ k ∧ k + l = length data ∧ 3 < l ∧ occurs_at data k
      ∧ ∀ j, tmp ≤ j < k → ¬ occurs_at data j
  | None => ∀ j, tmp ≤ j → ¬ occurs_at data j
  end.
Proof.
  induction tmp_len as [|n IH]; intros tmp Hlen; simpl.
  - intros j Hj Hocc%occurs_at_length. lia.
  - case_bool_decide as Hgt.
    + destruct (terminator_at data tmp) eqn:Hterm.
      * apply terminator_at_occurs in Hterm.
        repeat split; [lia.. | done | intros; lia].
      * specialize (IH (S tmp) ltac:(lia)).
        assert (¬ occurs_at data tmp) as Hno
          by (rewrite <- terminator_at_occurs; congruence).
        destruct (scan_forward data (S tmp) n) as [[k l]|].
        -- destruct IH as (? & ? & ? & ? & Hfirst).
           repeat split; [lia | done.. |].
           intros j Hj. destruct (decide (j = tmp)) as [->|]; [done|].
           apply Hfirst. lia.
        -- intros j Hj. destruct (decide (j = tmp)) as [->|]; [done|].
           apply IH. lia.
    + intros j Hj Hocc%occurs_at_length. lia.
Qed.

Lemma boundary_scan_first data k :
  boundary_scan data = Some k ↔ first_occurrence data k.
Proof.
  unfold boundary_scan, first_occurrence.
  pose proof (scan_forward_spec data (length data) 0 eq_refl) as Hspec.
  destruct (scan_forward data 0 (length data)) as [[k' l]|]; simpl.
  - destruct Hspec as (_ & _ & _ & Hocc & Hfirst). split.
    + intros [= <-]. split; [done|]. intros j Hj. apply Hfirst. lia.
    + intros [Hk Hmin]. f_equal.
      destruct (lt_eq_lt_dec k k') as [[Hlt| ->]|Hlt]; [|done|].
      * destruct (Hfirst k); [lia | done].
      * by destruct (Hmin k').
  - split; [done|]. intros [Hocc _]. destruct (Hspec k); [lia | done].
Qed.

Lemma contains_occurs stream :
  contains_terminator stream ↔ ∃ k, occurs_at stream k.
Proof.
  split.
  - intros (pre & post & ->). exists (length pre), post.
    by rewrite drop_app_length.
  - intros (k & post & Hpost). exists (take k stream), post.
    by rewrite <- Hpost, take_drop.
Qed.

Lemma boundary_scan_contains data :
  is_Some (boundary_scan data) ↔ contains_terminator data.
Proof.
  rewrite contains_occurs. split.
  - intros [k Hk%boundary_scan_first]. exists k. apply Hk.
  - intros [k Hk]. unfold boundary_scan.
    pose proof (scan_forward_spec data (length data) 0 eq_refl) as Hspec.
    destruct (scan_forward data 0 (length data)) as [[k' l]|]; [by eexists|].
    destruct (Hspec k); [lia | done].
Qed.

Lemma terminator_at_app data more k :
  k + 4 ≤ length data → terminator_at (data ++ more) k = terminator_at data k.
Proof.
  intros Hk. unfold terminator_at. by rewrite !lookup_app_l by lia.
Qed.

(** A terminator found stays the first one when more bytes arrive. *)
Lemma boundary_scan_app data more k :
  boundary_scan data = Some k → boundary_scan (data ++ more) = Some k.
Proof.
  rewrite !boundary_scan_first. intros [Hk Hmin].
  pose proof (occurs_at_length _ _ Hk) as Hlen. split.
  - apply terminator_at_occurs. rewrite terminator_at_app by done.
    by apply terminator_at_occurs.
  - intros j Hj Hocc. apply (Hmin j Hj).
    apply terminator_at_occurs. rewrite <- (terminator_at_app _ more) by lia.
    by apply terminator_at_occurs.
Qed.

End boundary_scan.

(** C1.  Let a session hold [buffer] and receive a stream cut into chunks
    in any way.  The scan over the accumulated buffer finds a terminator
    exactly when the reassembled bytes contain CR LF CR LF, the offset it
    finds is that of the first occurrence, two ways of cutting the same
    stream give the same result, and a terminator found after some chunks
    is found at the same offset after any further ones. *)
Theorem boundary_scan_reassembled (buffer : bytes) (chunks : list bytes) :
  (is_Some (boundary_scan (accumulate buffer chunks))
     ↔ contains_terminator (buffer ++ concat chunks))
  ∧ (∀ k, boundary_scan (accumulate buffer chunks) = Some k
          ↔ first_occurrence (buffer ++ concat chunks) k)
  ∧ (∀ chunks', concat chunks' = concat chunks →
       boundary_scan (accumulate buffer chunks')
       = boundary_scan (accumulate buffer chunks))
  ∧ (∀ more k, boundary_scan (accumulate buffer chunks) = Some k →
       boundary_scan (accumulate buffer (chunks ++ more)) = Some k).
Proof.
  rewrite accumulate_concat. split_and!.
  - apply boundary_scan_contains.
  - apply boundary_scan_first.
  - intros chunks' Heq. by rewrite accumulate_concat, Heq.
  - intros more k Hk. rewrite accumulate_concat, concat_app, app_assoc.
    by apply boundary_scan_app.
Qed.

(** ** Running the monad *)

Section monad.
Context {A B : Type}.
Implicit Types (m : M A) (f : A → M B) (s : state).

Lemma bind_eq m f s :
  (m ≫= f) s = match m s with Ok a s' => f a s' | Fault e => Fault e end.
Proof. reflexivity. Qed.

Lemma bind_ok m f s a s' : m s = Ok a s' → (m ≫= f) s = f a s'.
Proof. intros H. by rewrite bind_eq, H. Qed.

Lemma bind_fault m f s e : m s = Fault e → (m ≫= f) s = Fault e.
Proof. intros H. by rewrite bind_eq, H. Qed.

Lemma bind_inv m f s b s' :
  (m ≫= f) s = Ok b s' → ∃ a s1, m s = Ok a s1 ∧ f a s1 = Ok b s'.
Proof. rewrite bind_eq. destruct (m s) as [a s1|]; [eauto | done]. Qed.

End monad.

Lemma deref_live s c cl : heap s !! c = Some cl → deref c s = Ok cl s.
Proof. intros H. unfold deref. by rewrite H. Qed.

Lemma deref_freed s c : heap s !! c = None → deref c s = Fault UseAfterFree.
Proof. intros H. unfold deref. by rewrite H. Qed.

Lemma update_live s c cl f :
  heap s !! c = Some cl →
  update c f s = Ok tt (set_heap (<[c := f cl]> (heap s)) s).
Proof. intros H. unfold update. by rewrite (bind_ok _ _ _ _ _ (deref_live _ _ _ H)). Qed.

(** ** Removal *)

Lemma g_list_remove_absent l c : c ∉ l → g_list_remove l c = l.
Proof.
  induction l as [|x l IH]; [done|]. intros [Hne Hl]%not_elem_of_cons.
  simpl. rewrite decide_False by done. by rewrite IH.
Qed.

Lemma g_list_remove_NoDup l c :
  NoDup l → (c ∉ g_list_remove l c) ∧ NoDup (g_list_remove l c).
Proof.
  induction 1 as [|x l Hx Hl IH]; simpl.
  - split; [apply not_elem_of_nil | constructor].
  - destruct (decide (x = c)) as [->|Hne]; [done|].
    destruct IH as [IH1 IH2]. split.
    + by apply not_elem_of_cons.
    + constructor; [|done]. intros Hin. apply Hx.
      clear -Hin. induction l as [|y l IH]; simpl in *; [done|].
      destruct (decide (y = c)); [by right|].
      apply elem_of_cons in Hin as [->|Hin]; [by left | right; auto].
Qed.

Lemma remove_client_live s c cl :
  heap s !! c = Some cl →
  remove_client c s
  = Ok tt (set_heap (delete c (heap s))
             (set_effects (effects s ++ [Unref (connection cl)])
                (set_clients (g_list_remove (clients s) c) s))).
Proof. intros H. unfold remove_client. by rewrite (bind_ok _ _ _ _ _ (deref_live _ _ _ H)). Qed.

Lemma remove_client_freed s c :
  heap s !! c = None → remove_client c s = Fault UseAfterFree.
Proof. intros H. unfold remove_client. by rewrite (bind_fault _ _ _ _ (deref_freed _ _ H)). Qed.

(** C4, as the code has it.  Removing a live session takes it out of the
    active set, releases its connection once and frees it.  Only the removal
    from the active set is idempotent; a second [remove_client] on the same
    session reads the freed structure. *)
Theorem remove_client_once s c cl :
  heap s !! c = Some cl →
  NoDup (clients s) →
  ∃ s', remove_client c s = Ok tt s'
    ∧ (c ∉ clients s')
    ∧ heap s' !! c = None
    ∧ effects s' = effects s ++ [Unref (connection cl)]
    ∧ g_list_remove (clients s') c = clients s'
    ∧ remove_client c s' = Fault UseAfterFree.
Proof.
  intros Hc Hnd. eexists. split; [by apply remove_client_live|].
  simpl. destruct (g_list_remove_NoDup (clients s) c Hnd) as [Hnot _].
  split_and!; [done | apply lookup_delete_eq | done | by apply g_list_remove_absent |].
  apply remove_client_freed. simpl. apply lookup_delete_eq.
Qed.

Lemma remove_client_once_witness :
  heap (connected []) !! 0 = Some (demo_client [])
  ∧ NoDup (clients (connected []))
  ∧ ∃ s', remove_client 0 (connected []) = Ok tt s'
    ∧ (0 ∉ clients s')
    ∧ heap s' !! 0 = None
    ∧ effects s' = effects (connected []) ++ [Unref (connection (demo_client []))]
    ∧ g_list_remove (clients s') 0 = clients s'
    ∧ remove_client 0 s' = Fault UseAfterFree.
Proof.
  assert (H1 : heap (connected []) !! 0 = Some (demo_client [])) by reflexivity.
  assert (H2 : NoDup (clients (connected []))) by apply NoDup_singleton.
  split; [exact H1|]. split; [exact H2|].
  exact (remove_client_once (connected []) 0 (demo_client []) H1 H2).
Defined.

(** Two removals of the same session: the first succeeds, the second is a
    use after free. *)
Lemma remove_client_twice_example :
  remove_client 0 (connected []) = Ok tt (disconnected [Unref 100])
  ∧ remove_client 0 (disconnected [Unref 100]) = Fault UseAfterFree
  ∧ (remove_client 0;; remove_client 0) (connected []) = Fault UseAfterFree.
Proof. split_and!; vm_compute; reflexivity. Qed.

(** ** Rules for post-conditions *)

Section ensures.
Context {A B : Type}.
Implicit Types (s : state) (Q : A → state → Prop).

Lemma ensures_ret (a : A) s Q : Q a s → ensures (mret a) s Q.
Proof. by intros HQ ? ? [= <- <-]. Qed.

Lemma ensures_bind (m : M A) (f : A → M B) s (R : B → state → Prop) :
  ensures m s (λ a s1, ensures (f a) s1 R) → ensures (m ≫= f) s R.
Proof.
  intros Hm b s' (a & s1 & Hms & Hf)%bind_inv. by eapply Hm.
Qed.

Lemma ensures_weaken (m : M A) s Q Q' :
  ensures m s Q → (∀ a s', Q a s' → Q' a s') → ensures m s Q'.
Proof. intros Hm HQ a s' Hrun. eauto. Qed.

Lemma ensures_fail e s Q : ensures (fail e) s Q.
Proof. by intros ? ?. Qed.

End ensures.

Lemma ensures_get s (Q : state → state → Prop) : Q s s → ensures get s Q.
Proof. by intros HQ ? ? [= <- <-]. Qed.

Lemma ensures_modify f s (Q : unit → state → Prop) :
  Q tt (f s) → ensures (modify f) s Q.
Proof. by intros HQ ? ? [= <- <-]. Qed.

Lemma ensures_emit e s (Q : unit → state → Prop) :
  Q tt (set_effects (effects s ++ [e]) s) → ensures (emit e) s Q.
Proof. apply ensures_modify. Qed.

Lemma ensures_deref c s (Q : Client → state → Prop) :
  (∀ cl, heap s !! c = Some cl → Q cl s) → ensures (deref c) s Q.
Proof.
  intros HQ cl s'. unfold deref. destruct (heap s !! c) eqn:Hc; [|done].
  intros [= <- <-]. auto.
Qed.

Lemma ensures_deref_endpoint p s (Q : EndPoint → state → Prop) :
  (∀ i e, p = Some i → endpoints s !! i = Some e → Q e s) →
  ensures (deref_endpoint p) s Q.
Proof.
  intros HQ e s'. unfold deref_endpoint. destruct p as [i|]; [|done].
  destruct (endpoints s !! i) eqn:Hi; [|done]. intros [= <- <-]. eauto.
Qed.

Lemma ensures_update c f s (Q : unit → state → Prop) :
  (∀ cl, heap s !! c = Some cl → Q tt (set_heap (<[c := f cl]> (heap s)) s)) →
  ensures (update c f) s Q.
Proof.
  intros HQ. apply ensures_bind, ensures_deref. intros cl Hcl.
  apply ensures_modify. auto.
Qed.

Lemma ensures_remove_client c s (Q : unit → state → Prop) :
  (∀ cl, heap s !! c = Some cl →
     Q tt (set_heap (delete c (heap s))
             (set_effects (effects s ++ [Unref (connection cl)])
                (set_clients (g_list_remove (clients s) c) s)))) →
  ensures (remove_client c) s Q.
Proof.
  intros HQ [] s' Hrun. destruct (heap s !! c) as [cl|] eqn:Hc.
  - rewrite (remove_client_live _ _ _ Hc) in Hrun. injection Hrun as <-. auto.
  - by rewrite (remove_client_freed _ _ Hc) in Hrun.
Qed.

Lemma ensures_write_bytes c r s (Q : unit → state → Prop) :
  (∀ cl, heap s !! c = Some cl → c ∈ broken s →
     Q tt (set_heap (delete c (heap s))
             (set_effects (effects s ++ [Unref (connection cl)])
                (set_clients (g_list_remove (clients s) c) s)))) →
  (∀ cl, heap s !! c = Some cl → c ∉ broken s →
     Q tt (set_effects (effects s ++ [Written c r]) s)) →
  ensures (write_bytes c r) s Q.
Proof.
  intros Hbroken Hsent. unfold write_bytes.
  apply ensures_bind, ensures_deref. intros cl Hcl.
  apply ensures_bind, ensures_get. case_bool_decide.
  - apply ensures_remove_client. intros cl' Hcl'.
    rewrite Hcl in Hcl'. injection Hcl' as <-. auto.
  - apply ensures_emit. eauto.
Qed.

(** Under the lock only a write that succeeds returns. *)
Lemma ensures_write_bytes_locked c r s (Q : unit → state → Prop) :
  (∀ cl, heap s !! c = Some cl → c ∉ broken s →
     Q tt (set_effects (effects s ++ [Written c r]) s)) →
  ensures (write_bytes_locked c r) s Q.
Proof.
  intros Hsent. unfold write_bytes_locked, remove_client_locked.
  apply ensures_bind, ensures_deref. intros cl Hcl.
  apply ensures_bind, ensures_get. case_bool_decide.
  - apply ensures_bind, ensures_deref. intros cl' Hcl'. apply ensures_fail.
  - apply ensures_emit. eauto.
Qed.

(** One step of symbolic execution under [ensures]. *)
Ltac ensures_step :=
  lazymatch goal with
  | |- ensures (mbind _ _) _ _ => apply ensures_bind
  | |- ensures (mret _) _ _ => apply ensures_ret
  | |- ensures get _ _ => apply ensures_get
  | |- ensures (fail _) _ _ => apply ensures_fail
  | |- ensures (modify _) _ _ => apply ensures_modify
  | |- ensures (emit _) _ _ => apply ensures_emit
  | |- ensures (deref _) _ _ => apply ensures_deref; intros ? ?
  | |- ensures (deref_endpoint _) _ _ =>
      apply ensures_deref_endpoint; intros ? ? ? ?
  | |- ensures (update _ _) _ _ => apply ensures_update; intros ? ?
  | |- ensures (remove_client _) _ _ =>
      apply ensures_remove_client; intros ? ?
  | |- ensures (write_bytes _ _) _ _ =>
      apply ensures_write_bytes; intros ? ? ?
  | |- ensures (write_bytes_locked _ _) _ _ =>
      apply ensures_write_bytes_locked; intros ? ? ?
  | |- ensures (if ?b then _ else _) _ _ => destruct b eqn:?
  | |- ensures (match ?o with Some _ => _ | None => _ end) _ _ =>
      destruct o eqn:?
  | |- ensures (let '(_, _) := ?p in _) _ _ => destruct p eqn:?
  end.

Ltac ensures_run := repeat (ensures_step; cbv beta).

(** ** Readiness notifications *)

Lemma notify_waiting_endpoints l elem s :
  ensures (notify_waiting l elem) s (λ _ s', endpoints s' = endpoints s).
Proof.
  revert s. induction l as [|c l IH]; intros s; simpl.
  - by apply ensures_ret.
  - unfold send_response_200_ok_locked. ensures_run; done.
Qed.

Lemma find_by_element_lookup l elem i0 i :
  find_by_element l elem i0 = Some i →
  ∃ e, l !! (i - i0) = Some e ∧ element e = elem ∧ i0 ≤ i.
Proof.
  revert i0. induction l as [|e l IH]; intros i0; simpl; [done|].
  case_bool_decide as He.
  - intros [= <-]. exists e. rewrite Nat.sub_diag. done.
  - intros (e' & Hl & He' & Hle)%IH. exists e'.
    replace (i - i0) with (S (i - S i0)) by lia. split_and!; [done.. | lia].
Qed.

Lemma find_by_element_ext l l' elem i0 :
  element <$> l = element <$> l' →
  find_by_element l elem i0 = find_by_element l' elem i0.
Proof.
  revert l' i0. induction l as [|e l IH]; intros [|e' l'] i0; simpl; try done.
  intros [= He Hl]. rewrite He. case_bool_decide; [done|]. by apply IH.
Qed.

Lemma on_stream_caps_changed_endpoints elem caps_name s i :
  find_by_element (endpoints s) elem 0 = Some i →
  ensures (on_stream_caps_changed elem caps_name) s (λ _ s',
    endpoints s'
    = alter (λ e, set_caps_resolved true
                    (set_content_type (Some (caps_content_type caps_name)) e))
            i (endpoints s)).
Proof.
  intros Hfind. unfold on_stream_caps_changed.
  apply ensures_bind, ensures_get. rewrite Hfind.
  ensures_run. simpl.
  eapply ensures_weaken; [apply notify_waiting_endpoints|]. by intros _ s' ->.
Qed.

(** C5, as the code has it.  Every notification for a known endpoint
    overwrites [content_type]: after two notifications with different types
    the endpoint records the second one, and [caps_resolved] stays set. *)
Theorem caps_changed_last_wins elem type1 type2 s s1 s2 i :
  find_by_element (endpoints s) elem 0 = Some i →
  on_stream_caps_changed elem type1 s = Ok tt s1 →
  on_stream_caps_changed elem type2 s1 = Ok tt s2 →
  ∃ e1 e2,
    endpoints s1 !! i = Some e1 ∧ endpoints s2 !! i = Some e2
    ∧ content_type e1 = Some (caps_content_type type1)
    ∧ content_type e2 = Some (caps_content_type type2)
    ∧ caps_resolved e1 = true ∧ caps_resolved e2 = true.
Proof.
  intros Hfind Hrun1 Hrun2.
  destruct (find_by_element_lookup _ _ _ _ Hfind) as (e & He & Helem & _).
  rewrite Nat.sub_0_r in He.
  pose proof (on_stream_caps_changed_endpoints elem type1 s i Hfind _ _ Hrun1) as H1.
  assert (find_by_element (endpoints s1) elem 0 = Some i) as Hfind1.
  { rewrite <- Hfind, H1. apply find_by_element_ext.
    apply list_eq. intros j. rewrite !list_lookup_fmap, list_lookup_alter.
    case_decide as Hj; [subst j; by destruct (endpoints s !! i) | done]. }
  pose proof (on_stream_caps_changed_endpoints elem type2 s1 i Hfind1 _ _ Hrun2) as H2.
  simpl in H1, H2. rewrite H2, H1.
  rewrite !list_lookup_alter, !decide_True, He by done. simpl.
  eexists _, _. split_and!; reflexivity.
Qed.

(** ** Rejected requests *)

Lemma cstring_app_nul data : cstring (data ++ [nul]) = cstring data.
Proof.
  induction data as [|ch data IH]; simpl; [done|].
  case_decide; [done|]. by rewrite IH.
Qed.

(** Symbolic execution of straight-line code: unfold the primitive actions
    and compute binds, field reads and reads of a cell just written. *)
Ltac exec :=
  repeat first
    [ rewrite bind_eq
    | progress (unfold deref, update, get, modify, emit, mret, M_ret, fail,
                       write_bytes, remove_client)
    | progress (cbn [heap clients endpoints started effects broken play_fails
                     next_client set_heap set_clients set_effects set_endpoints
                     set_started set_broken set_next_client
                     name connection socket isource tosource current_message
                     allocated http_version waiting_200_ok endpoint
                     set_isource set_tosource set_current_message
                     set_http_version set_waiting_200_ok set_endpoint])
    | rewrite lookup_insert_eq
    | rewrite insert_insert_eq
    | rewrite bool_decide_false by assumption ].

Lemma g_strcmp0_eq a b : g_strcmp0 a b = 0%Z ↔ a = b.
Proof.
  revert b. induction a as [|x a IH]; intros [|y b]; simpl; try done.
  destruct (decide (x = y)) as [->|Hne].
  - rewrite IH. split; [by intros -> | by intros [= ->]].
  - case_bool_decide; (split; [done | by intros [= -> _]]).
Qed.

Lemma find_by_name_none l nm i :
  (∀ e, e ∈ l → ep_name e ≠ nm) → find_by_name l nm i = None.
Proof.
  revert i. induction l as [|e l IH]; intros i Hall; simpl; [done|].
  rewrite bool_decide_false.
  - apply IH. intros e' He'. apply Hall. by right.
  - rewrite g_strcmp0_eq. apply Hall. by left.
Qed.

(** C2, as the code has it.  A complete request whose line begins neither
    with HEAD nor with GET is answered 400 Bad Request, and the branch of
    the scan loop that handled it then removes the session: it leaves the
    active set and is freed. *)
Theorem unsupported_method_removed s c cl tmp tmp_len :
  heap s !! c = Some cl →
  c ∉ broken s →
  NoDup (clients s) →
  scan_forward (current_message cl) 0 (length (current_message cl))
    = Some (tmp, tmp_len) →
  g_str_has_prefix (g_strsplit_set (cstring (current_message cl)) crlf !! 0)
    (str "HEAD") = false →
  g_str_has_prefix (g_strsplit_set (cstring (current_message cl)) crlf !! 0)
    (str "GET") = false →
  ∃ s', handle_request c tmp tmp_len s = Ok (tmp, tmp_len) s'
    ∧ effects s'
      = effects s ++ [Written c (Response400 (http_version cl));
                      Unref (connection cl)]
    ∧ (c ∉ clients s')
    ∧ heap s' !! c = None.
Proof.
  intros Hc Hok Hnd _ Hhead Hget.
  unfold handle_request, g_byte_array_append.
  exec. rewrite Hc. exec. rewrite Hc. exec. unfold client_message. exec.
  rewrite cstring_app_nul, Hhead, Hget. cbn [negb andb orb].
  unfold send_response_400_not_found. exec.
  eexists. split; [reflexivity|]. exec.
  split_and!.
  - by rewrite <- app_assoc.
  - by apply g_list_remove_NoDup.
  - apply lookup_delete_eq.
Qed.

(** C3, as the code has it.  A complete HEAD or GET request whose path
    names no endpoint of the registry is answered 404 Not Found with the
    version of the request, and the branch of the scan loop that handled it
    then removes the session: it leaves the active set and is freed. *)
Theorem unknown_endpoint_removed s c cl tmp tmp_len line path nm :
  heap s !! c = Some cl →
  c ∉ broken s →
  NoDup (clients s) →
  scan_forward (current_message cl) 0 (length (current_message cl))
    = Some (tmp, tmp_len) →
  g_strsplit_set (cstring (current_message cl)) crlf !! 0 = Some line →
  has_prefix line (str "HEAD") || has_prefix line (str "GET") = true →
  g_strsplit line " "%char !! 1 = Some path →
  g_strsplit path "/"%char !! 1 = Some nm →
  (∀ e, e ∈ endpoints s → ep_name e ≠ nm) →
  ∃ s', handle_request c tmp tmp_len s = Ok (tmp, tmp_len) s'
    ∧ effects s'
      = effects s
        ++ [Written c (Response404 (request_version (g_strsplit line " "%char)));
            Unref (connection cl)]
    ∧ (c ∉ clients s')
    ∧ heap s' !! c = None.
Proof.
  intros Hc Hok Hnd _ Hline Hmeth Hpath Hnm Hnone.
  unfold handle_request, g_byte_array_append.
  exec. rewrite Hc. exec. rewrite Hc. exec. unfold client_message. exec.
  rewrite cstring_app_nul, Hline. unfold g_str_has_prefix. cbn [default from_option]. unfold id.
  replace (has_prefix line (str "HEAD")
           || negb (has_prefix line (str "HEAD")) && has_prefix line (str "GET"))
    with true by (by destruct (has_prefix line (str "HEAD"))).
  exec. rewrite Hpath. unfold route, g_strv_length.
  rewrite bool_decide_true by (apply lookup_lt_Some in Hnm; lia).
  exec. rewrite Hnm. cbn [default from_option]. unfold id. rewrite find_by_name_none by done.
  unfold send_response_404_not_found. exec.
  destruct (delivery_mode _ false) as [burst_mode min_value]. exec.
  eexists. split; [reflexivity|]. exec.
  split_and!.
  - by rewrite <- app_assoc.
  - by apply g_list_remove_NoDup.
  - apply lookup_delete_eq.
Qed.

Lemma unsupported_method_removed_witness :
  heap (connected post_request) !! 0 = Some (demo_client post_request)
  ∧ (0 ∉ broken (connected post_request))
  ∧ NoDup (clients (connected post_request))
  ∧ scan_forward post_request 0 (length post_request) = Some (19, 4)
  ∧ ∃ s', handle_request 0 19 4 (connected post_request) = Ok (19, 4) s'
      ∧ effects s' = [Written 0 (Response400 []); Unref 100]
      ∧ (0 ∉ clients s')
      ∧ heap s' !! 0 = None.
Proof.
  assert (heap (connected post_request) !! 0 = Some (demo_client post_request))
    as H1 by reflexivity.
  assert (0 ∉ broken (connected post_request)) as H2 by apply not_elem_of_empty.
  assert (NoDup (clients (connected post_request))) as H3 by apply NoDup_singleton.
  assert (scan_forward post_request 0 (length post_request) = Some (19, 4))
    as H4 by (vm_compute; reflexivity).
  split_and!; try assumption.
  apply (unsupported_method_removed (connected post_request) 0
           (demo_client post_request) 19 4 H1 H2 H3 H4);
    vm_compute; reflexivity.
Defined.

(** The session that sent [POST /test HTTP/1.1] is in the active set
    before its request is handled and gone afterwards. *)
Lemma unsupported_method_example :
  after [Incoming 100 200 demo_peer] = Ok tt (connected [])
  ∧ accumulate [] [post_request] = post_request
  ∧ boundary_scan post_request = Some 19
  ∧ clients (connected post_request) = [0]
  ∧ handle_request 0 19 4 (connected post_request)
    = Ok (19, 4) (disconnected [Written 0 (Response400 []); Unref 100]).
Proof. split_and!; vm_compute; reflexivity. Qed.

Lemma unknown_endpoint_removed_witness :
  heap (connected missing_request) !! 0 = Some (demo_client missing_request)
  ∧ (0 ∉ broken (connected missing_request))
  ∧ NoDup (clients (connected missing_request))
  ∧ scan_forward missing_request 0 (length missing_request) = Some (21, 4)
  ∧ ∃ s', handle_request 0 21 4 (connected missing_request) = Ok (21, 4) s'
      ∧ effects s' = [Written 0 (Response404 (str "HTTP/1.0")); Unref 100]
      ∧ (0 ∉ clients s')
      ∧ heap s' !! 0 = None.
Proof.
  assert (heap (connected missing_request) !! 0
          = Some (demo_client missing_request)) as H1 by reflexivity.
  assert (0 ∉ broken (connected missing_request)) as H2
    by apply not_elem_of_empty.
  assert (NoDup (clients (connected missing_request))) as H3
    by apply NoDup_singleton.
  assert (scan_forward missing_request 0 (length missing_request)
          = Some (21, 4)) as H4 by (vm_compute; reflexivity).
  split_and!; try assumption.
  apply (unknown_endpoint_removed (connected missing_request) 0
           (demo_client missing_request) 21 4
           (str "GET /missing HTTP/1.0") (str "/missing") (str "missing")
           H1 H2 H3 H4); try (vm_compute; reflexivity).
  intros e ->%list_elem_of_singleton. discriminate.
Defined.

(** The session that sent [GET /missing HTTP/1.0] is in the active set
    before its request is handled and gone afterwards. *)
Lemma unknown_endpoint_example :
  after [Incoming 100 200 demo_peer] = Ok tt (connected [])
  ∧ accumulate [] [missing_request] = missing_request
  ∧ boundary_scan missing_request = Some 21
  ∧ clients (connected missing_request) = [0]
  ∧ handle_request 0 21 4 (connected missing_request)
    = Ok (21, 4)
        (disconnected [Written 0 (Response404 (str "HTTP/1.0")); Unref 100]).
Proof. split_and!; vm_compute; reflexivity. Qed.

(** A request line that begins with GET but has no path is not answered at
    all; the session is removed all the same. *)
Example get_without_path :
  handle_request 0 3 4 (connected (request "GET"))
  = Ok (3, 4) (disconnected [Unref 100]).
Proof. vm_compute. reflexivity. Qed.

(** After the removal the loop of [on_read_bytes] goes round again with
    [tmp] and [tmp_len] as they were, and reads the buffer it has just
    released. *)
Example rejected_request_loop_continues :
  after [Incoming 100 200 demo_peer; Readable 0 [post_request] ReadWouldBlock]
  = Fault UseAfterFree
  ∧ after [Incoming 100 200 demo_peer;
           Readable 0 [missing_request] ReadWouldBlock]
    = Fault UseAfterFree.
Proof. split; vm_compute; reflexivity. Qed.

Lemma caps_changed_last_wins_witness :
  find_by_element (endpoints (initial demo_endpoints)) 7 0 = Some 0
  ∧ on_stream_caps_changed 7 matroska (initial demo_endpoints)
    = Ok tt (resolved matroska)
  ∧ on_stream_caps_changed 7 webm (resolved matroska) = Ok tt (resolved webm)
  ∧ ∃ e1 e2,
      endpoints (resolved matroska) !! 0 = Some e1
      ∧ endpoints (resolved webm) !! 0 = Some e2
      ∧ content_type e1 = Some (caps_content_type matroska)
      ∧ content_type e2 = Some (caps_content_type webm)
      ∧ caps_resolved e1 = true ∧ caps_resolved e2 = true.
Proof.
  assert (find_by_element (endpoints (initial demo_endpoints)) 7 0 = Some 0)
    as H1 by reflexivity.
  assert (on_stream_caps_changed 7 matroska (initial demo_endpoints)
          = Ok tt (resolved matroska)) as H2 by reflexivity.
  assert (on_stream_caps_changed 7 webm (resolved matroska)
          = Ok tt (resolved webm)) as H3 by reflexivity.
  split_and!; try assumption.
  exact (caps_changed_last_wins 7 matroska webm (initial demo_endpoints)
           (resolved matroska) (resolved webm) 0 H1 H2 H3).
Defined.

(** Two notifications for element 7, first Matroska, then WebM: the
    endpoint ends with the WebM content type, not the first one. *)
Lemma caps_changed_twice_example :
  after [CapsChanged 7 matroska] = Ok tt (resolved matroska)
  ∧ after [CapsChanged 7 matroska; CapsChanged 7 webm] = Ok tt (resolved webm)
  ∧ content_type <$> endpoints (resolved webm) !! 0
    = Some (Some (str "Content-Type: video/webm" ++ crlf))
  ∧ content_type <$> endpoints (resolved webm) !! 0
    ≠ content_type <$> endpoints (resolved matroska) !! 0.
Proof. split_and!; [vm_compute; reflexivity.. | discriminate]. Qed.

(** ** Defects of the request path, on concrete runs *)

(** C6.  Two HEAD requests arrive in one read.  The first is found at
    offset 19 and accepted; the NUL is appended behind the second request
    and 19 + 5 bytes are removed, so the buffer left for the restarted scan
    is the second request without its first byte, followed by the NUL.
    What is left is then answered 400 and the session removed. *)
Theorem pipelined_request_truncated :
  boundary_scan (head_request ++ head_request) = Some 19
  ∧ (∃ s', handle_request 0 19 27 (connected (head_request ++ head_request))
           = Ok (0, 23) s'
       ∧ current_message <$> heap s' !! 0
         = Some (str "EAD /test HTTP/1.0" ++ crlfcrlf ++ [nul]))
  ∧ drop (19 + 4) (head_request ++ head_request) = head_request
  ∧ after [Incoming 100 200 demo_peer;
           Readable 0 [head_request ++ head_request] ReadWouldBlock]
    = Fault UseAfterFree.
Proof.
  split_and!; [vm_compute; reflexivity | | vm_compute; reflexivity..].
  eexists. split; vm_compute; reflexivity.
Qed.

(** C7.  The first request of a session is [POST /test HTTP/1.1]: the
    answer is formatted with the version stored at connection time, the
    empty string, so its status line starts with a space and carries
    neither the version of the request nor HTTP/1.0. *)
Theorem bad_request_without_version :
  http_version <$> heap (connected post_request) !! 0 = Some []
  ∧ effects <$> final (client_message 0 (post_request ++ [nul]) 24
                         (connected (post_request ++ [nul])))
    = Some [Written 0 (Response400 [])]
  ∧ render (Response400 []) = str " 400 Bad Request" ++ crlfcrlf
  ∧ has_prefix (render (Response400 [])) (str "HTTP/1.1") = false
  ∧ has_prefix (render (Response400 [])) (str "HTTP/1.0") = false.
Proof. split_and!; vm_compute; reflexivity. Qed.

(** C10.  A first client asks for [/test] and waits for the caps; a second
    client connects and has sent nothing when the caps arrive.  The loop
    over [clients] starts with the second client, whose [endpoint] is still
    NULL, and dereferences it. *)
Theorem caps_changed_null_endpoint :
  (∃ s, after [Incoming 100 200 demo_peer;
               Readable 0 [request "GET /test HTTP/1.1"] ReadWouldBlock;
               Incoming 101 201 demo_peer] = Ok tt s
        ∧ clients s = [1; 0]
        ∧ endpoint <$> heap s !! 1 = Some None
        ∧ endpoint <$> heap s !! 0 = Some (Some 0))
  ∧ after [Incoming 100 200 demo_peer;
           Readable 0 [request "GET /test HTTP/1.1"] ReadWouldBlock;
           Incoming 101 201 demo_peer;
           CapsChanged 7 matroska] = Fault NullDeref.
Proof.
  split; [| vm_compute; reflexivity].
  eexists. split_and!; vm_compute; reflexivity.
Qed.

(** ** Delivery mode of a routed request *)

Lemma has_prefix_get_not_head line :
  has_prefix line (str "GET") = true → has_prefix line (str "HEAD") = false.
Proof.
  destruct line as [|ch line]; [done|]. simpl.
  intros [Hg _]%andb_true_iff. apply bool_decide_eq_true in Hg as ->. done.
Qed.

Lemma find_by_name_lookup l nm i0 i :
  find_by_name l nm i0 = Some i →
  ∃ e, l !! (i - i0) = Some e ∧ ep_name e = nm ∧ i0 ≤ i.
Proof.
  revert i0. induction l as [|e l IH]; intros i0; simpl; [done|].
  case_bool_decide as He.
  - intros [= <-]. exists e. rewrite Nat.sub_diag.
    by apply g_strcmp0_eq in He.
  - intros (e' & Hl & He' & Hle)%IH. exists e'.
    replace (i - i0) with (S (i - S i0)) by lia. split_and!; [done.. | lia].
Qed.

(** *** What [g_ascii_strtoll] makes of digits *)

Lemma digit_value_decimal d :
  d < 10 → digit_value (ascii_of_nat (48 + d)) = Some (Z.of_nat d).
Proof.
  intros Hd. unfold digit_value.
  rewrite nat_ascii_embedding by lia.
  rewrite bool_decide_true by lia. f_equal. lia.
Qed.

Lemma parse_digits_decimal ds acc :
  Forall (λ d, d < 10) ds →
  parse_digits acc (decimal ds)
  = foldl (λ acc d, 10 * acc + Z.of_nat d)%Z acc ds.
Proof.
  intros Hds. revert acc. induction Hds as [|d ds Hd _ IH]; intros acc.
  - done.
  - change (decimal (d :: ds)) with (ascii_of_nat (48 + d) :: decimal ds).
    cbn [parse_digits foldl]. rewrite digit_value_decimal by done. apply IH.
Qed.

Lemma decimal_value_nonneg ds acc :
  (0 ≤ acc)%Z → (0 ≤ foldl (λ acc d, 10 * acc + Z.of_nat d) acc ds)%Z.
Proof.
  revert acc. induction ds as [|d ds IH]; intros acc Hacc; simpl; [done|].
  apply IH. lia.
Qed.

Lemma g_ascii_strtoll_digit d rest :
  d < 10 →
  g_ascii_strtoll (ascii_of_nat (48 + d) :: rest)
  = Z.min G_MAXINT64 (parse_digits 0 (ascii_of_nat (48 + d) :: rest)).
Proof.
  intros Hd. do 10 (destruct d as [|d]; [reflexivity|]). lia.
Qed.

Lemma g_ascii_strtoll_decimal ds :
  Forall (λ d, d < 10) ds →
  (decimal_value ds < 2 ^ 31)%Z →
  to_gint (g_ascii_strtoll (decimal ds)) = decimal_value ds.
Proof.
  intros Hds Hsmall.
  pose proof (decimal_value_nonneg ds 0%Z ltac:(done)) as Hpos.
  fold (decimal_value ds) in Hpos.
  assert (g_ascii_strtoll (decimal ds) = decimal_value ds) as ->.
  { pose proof (parse_digits_decimal ds 0%Z Hds) as Hparse.
    fold (decimal_value ds) in Hparse.
    destruct Hds as [|d ds Hd Hds]; [done|].
    change (decimal (d :: ds)) with (ascii_of_nat (48 + d) :: decimal ds) in *.
    rewrite g_ascii_strtoll_digit, Hparse by done.
    unfold G_MAXINT64. lia. }
  unfold to_gint. rewrite Z.mod_small by lia. lia.
Qed.

(** ** The flashback offset *)

Lemma digits_integer_fold ds : ∀ acc,
  Forall (λ d, d < 10) ds →
  foldl (λ acc ch, a ← acc; d ← digit_value ch; Some (10 * a + d)%Z)
        (Some acc) (decimal ds)
  = Some (foldl (λ acc d, 10 * acc + Z.of_nat d)%Z acc ds).
Proof.
  induction ds as [|d ds IH]; intros acc Hds; [done|].
  apply Forall_cons in Hds as [Hd Hds].
  change (decimal (d :: ds)) with (ascii_of_nat (48 + d) :: decimal ds).
  cbn [foldl]. rewrite digit_value_decimal by done. cbn [mbind option_bind].
  by apply IH.
Qed.

Lemma segment_integer_decimal ds :
  ds ≠ [] → Forall (λ d, d < 10) ds →
  segment_integer (decimal ds) = Some (decimal_value ds).
Proof.
  intros Hne Hds. destruct ds as [|d ds]; [done|].
  pose proof (digits_integer_fold (d :: ds) 0%Z Hds) as Hfold.
  apply Forall_cons in Hds as [Hd _].
  change (decimal (d :: ds)) with (ascii_of_nat (48 + d) :: decimal ds) in *.
  assert (segment_integer (ascii_of_nat (48 + d) :: decimal ds)
          = digits_integer (ascii_of_nat (48 + d) :: decimal ds)) as ->.
  { do 10 (destruct d as [|d]; [reflexivity|]). lia. }
  exact Hfold.
Qed.

(** Where the code and the specification agree: with no fourth segment,
    and with one written in digits that fits a [gint]. *)
Lemma flashback_offset_in_range path_parts :
  path_parts !! 2 = Some (str "flashback") →
  (path_parts !! 3 = None
   ∨ ∃ ds, path_parts !! 3 = Some (decimal ds) ∧ ds ≠ []
       ∧ Forall (λ d, d < 10) ds ∧ (decimal_value ds < 2 ^ 31)%Z) →
  delivery_mode path_parts true = (4%Z, spec_flashback_start path_parts).
Proof.
  intros Hmode Hoffset. unfold delivery_mode, spec_flashback_start, g_strv_length.
  rewrite (bool_decide_true (2 < length path_parts))
    by (apply lookup_lt_Some in Hmode; lia).
  rewrite Hmode. cbn [default from_option andb]. unfold id.
  rewrite (bool_decide_true (g_strcmp0 _ _ = 0%Z)) by by apply g_strcmp0_eq.
  destruct Hoffset as [Hnone | (ds & Hseg & Hne & Hds & Hsmall)].
  - rewrite Hnone.
    rewrite (bool_decide_false (3 < length path_parts))
      by (apply lookup_ge_None in Hnone; lia).
    done.
  - rewrite Hseg.
    rewrite (bool_decide_true (3 < length path_parts))
      by (apply lookup_lt_Some in Hseg; lia).
    cbn [default from_option andb mbind option_bind]. unfold id.
    rewrite (segment_integer_decimal ds Hne Hds).
    rewrite (g_ascii_strtoll_decimal ds Hds Hsmall).
    destruct (bool_decide (0 < decimal_value ds < 120)%Z) eqn:Hrange.
    + apply bool_decide_eq_true in Hrange.
      rewrite (bool_decide_true (0 < _)%Z) by lia.
      rewrite (bool_decide_true (_ < MAX_FLASHBACK)%Z)
        by (unfold MAX_FLASHBACK; lia).
      cbn [andb]. f_equal. unfold to_guint64, GST_SECOND.
      apply Z.mod_small. lia.
    + apply bool_decide_eq_false in Hrange.
      destruct (bool_decide (0 < decimal_value ds)%Z) eqn:H0; cbn [andb];
        [|done].
      apply bool_decide_eq_true in H0.
      rewrite bool_decide_false by (unfold MAX_FLASHBACK; lia). done.
Qed.

(** The request of the specification's scenario and its neighbours, on the
    demo server: there the code does what the specification says. *)
Example flashback_45 :
  effects <$> final (client_message 0 (flashback_request ++ [nul]) 36
                       (connected flashback_request))
  = Some [AddFull 7 200 4 45000000000 18446744073709551615; SetPlaying]
  ∧ spec_flashback_start (g_strsplit (str "/test/flashback/45") "/"%char)
    = (45 * GST_SECOND)%Z
  ∧ delivery_mode (g_strsplit (str "/test/flashback/120") "/"%char) true
    = (4%Z, (30 * GST_SECOND)%Z)
  ∧ delivery_mode (g_strsplit (str "/test/flashback/0") "/"%char) true
    = (4%Z, (30 * GST_SECOND)%Z)
  ∧ delivery_mode (g_strsplit (str "/test/flashback/-5") "/"%char) true
    = (4%Z, (30 * GST_SECOND)%Z)
  ∧ delivery_mode (g_strsplit (str "/test/flashback") "/"%char) true
    = (4%Z, (30 * GST_SECOND)%Z).
Proof. split_and!; vm_compute; reflexivity. Qed.

(** C8.  The offset segment is read with [(gint) g_ascii_strtoll]: the
    number written is cut down to its low 32 bits before it is compared
    with 0 and [MAX_FLASHBACK].  The fourth segment of
    [GET /test/flashback/4294967341] is an integer outside the open range
    (0, 120), so the specification leaves the offset at 30 seconds; the
    code reads 2^32 + 45 as 45 and hands the socket over with a start
    offset of 45 seconds. *)
Theorem flashback_offset_wraps :
  segment_integer (str "4294967341") = Some 4294967341%Z
  ∧ spec_flashback_start
      (g_strsplit (str "/test/flashback/4294967341") "/"%char)
    = (30 * GST_SECOND)%Z
  ∧ g_ascii_strtoll (str "4294967341") = 4294967341%Z
  ∧ to_gint 4294967341 = 45%Z
  ∧ delivery_mode (g_strsplit (str "/test/flashback/4294967341") "/"%char) true
    = (4%Z, (45 * GST_SECOND)%Z)
  ∧ effects <$> final (client_message 0 (wrapped_request ++ [nul]) 44
                         (connected wrapped_request))
    = Some [AddFull 7 200 4 45000000000 18446744073709551615; SetPlaying].
Proof. split_and!; vm_compute; reflexivity. Qed.

(** ** 200 OK responses *)

Lemma count_200_ok_snoc c effs e :
  count_200_ok c (effs ++ [e])
  = count_200_ok c effs + (if is_200_ok c e then 1 else 0).
Proof.
  unfold count_200_ok. rewrite filter_app, length_app. f_equal.
  rewrite filter_cons, filter_nil. destruct (is_200_ok c e); by case_decide.
Qed.

(** Bring a heap fact produced by a step of [ensures_run] to a fact on the
    initial heap. *)
Ltac heap_norm :=
  repeat match goal with
  | H : context [heap (set_heap _ _)] |- _ => progress cbn [heap set_heap] in H
  | H : context [heap (set_effects _ _)] |- _ =>
      progress cbn [heap set_effects] in H
  | H : context [heap (set_clients _ _)] |- _ =>
      progress cbn [heap set_clients] in H
  | H : context [heap (set_started _ _)] |- _ =>
      progress cbn [heap set_started] in H
  | H : <[?c := _]> _ !! ?c = Some _ |- _ =>
      rewrite lookup_insert_eq in H; injection H as <-
  | H : delete ?c _ !! ?c = Some _ |- _ =>
      rewrite lookup_delete_eq in H; discriminate H
  end.

Ltac ensures_all := repeat (ensures_step; cbv beta; heap_norm).

(** Decide a bound on [due_200_ok] between two states written out. *)
Ltac due_solve :=
  unfold due_200_ok, sent_200_ok, owed_200_ok;
  cbn [heap effects set_heap set_effects set_clients set_started
       set_endpoints set_broken set_next_client];
  rewrite ?count_200_ok_snoc; cbn [is_200_ok];
  rewrite ?insert_insert_eq, ?delete_insert_eq;
  rewrite ?lookup_insert, ?lookup_delete;
  repeat match goal with
  | H : _ && _ = true |- _ => apply andb_true_iff in H as [? ?]
  end;
  repeat case_decide; repeat case_bool_decide; simplify_eq;
  cbn [waiting_200_ok set_isource set_tosource set_current_message
       set_http_version set_waiting_200_ok set_endpoint andb];
  repeat match goal with
  | H : ?x = Some _ |- context [?x] => rewrite H
  | H : waiting_200_ok ?cl = _ |- context [waiting_200_ok ?cl] => rewrite H
  | |- context [match ?x with Some _ => _ | None => _ end] => destruct x
  | |- context [if waiting_200_ok ?cl then _ else _] =>
      destruct (waiting_200_ok cl)
  end; try lia.

Lemma client_message_due c data len s c' :
  ensures (client_message c data len) s (λ ok s',
    due_200_ok c' s'
    ≤ due_200_ok c' s + (if ok && bool_decide (c' = c) then 1 else 0)).
Proof.
  unfold client_message, route, start_streaming, send_response_200_ok,
    send_response_404_not_found, send_response_400_not_found.
  cbv zeta.
  ensures_all.
  all: due_solve.
Qed.

Lemma notify_waiting_due l elem s c' :
  ensures (notify_waiting l elem) s (λ _ s',
    due_200_ok c' s' = due_200_ok c' s
    ∧ (effects s' = effects s
       ∨ ∃ c version ctype,
           effects s' = effects s ++ [Written c (Response200 version ctype)])).
Proof.
  revert s. induction l as [|c l IH]; intros s; simpl.
  - apply ensures_ret. auto.
  - unfold send_response_200_ok_locked. ensures_all; [|apply IH].
    split; [due_solve|]. cbn [effects set_effects set_heap]. eauto.
Qed.

Lemma on_stream_caps_changed_due elem caps_name s c' :
  ensures (on_stream_caps_changed elem caps_name) s (λ _ s',
    due_200_ok c' s' = due_200_ok c' s
    ∧ (effects s' = effects s
       ∨ ∃ c version ctype,
           effects s' = effects s ++ [Written c (Response200 version ctype)])).
Proof.
  unfold on_stream_caps_changed. ensures_all.
  - eapply ensures_weaken; [apply notify_waiting_due|].
    intros _ s' [Hdue Heff]. split; [exact Hdue | exact Heff].
  - eapply ensures_weaken; [apply notify_waiting_due|].
    intros _ s' [Hdue Heff]. split; [exact Hdue | exact Heff].
Qed.

(** Chain a bound on [client_message], [Hdue], with what happens before and
    after the call. *)
Ltac due_chain Hdue :=
  lazymatch goal with
  | |- due_200_ok ?c' ?sf ≤ due_200_ok ?c' ?s0 + _ =>
      lazymatch type of Hdue with
      | due_200_ok c' ?s2 ≤ due_200_ok c' ?s1 + _ =>
          let E1 := fresh "E" in
          let E2 := fresh "E" in
          assert (due_200_ok c' s1 = due_200_ok c' s0) as E1 by due_solve;
          assert (due_200_ok c' sf ≤ due_200_ok c' s2) as E2 by due_solve;
          cbn [andb] in Hdue; repeat case_bool_decide; simplify_eq; lia
      end
  end.

Lemma handle_request_due c tmp tmp_len s c' :
  ensures (handle_request c tmp tmp_len) s (λ _ s',
    due_200_ok c' s' ≤ due_200_ok c' s + (if bool_decide (c' = c) then 1 else 0)).
Proof.
  unfold handle_request, g_byte_array_append.
  apply ensures_bind. ensures_step. cbv zeta.
  apply ensures_bind. ensures_step. apply ensures_bind. ensures_step.
  heap_norm. apply ensures_bind.
  eapply ensures_weaken; [apply (client_message_due _ _ _ _ c')|].
  intros ok s2 Hdue. cbv beta. destruct ok; ensures_all; due_chain Hdue.
Qed.

Lemma scan_loop_due fuel c s c' : ∀ tmp tmp_len,
  c' ≠ c →
  ensures (scan_loop fuel c tmp tmp_len) s (λ _ s',
    due_200_ok c' s' ≤ due_200_ok c' s).
Proof.
  revert s. induction fuel as [|fuel IH]; intros s tmp tmp_len Hne; simpl.
  - apply ensures_fail.
  - ensures_all; try done.
    eapply ensures_weaken; [apply (handle_request_due _ _ _ _ c')|].
    intros [tmp' tmp_len'] s1 Hdue. rewrite bool_decide_false in Hdue by done.
    eapply ensures_weaken; [by apply IH|]. intros [] s2 Hdue2. cbv beta in *. lia.
Qed.

Lemma on_read_bytes_due c reads last s c' :
  c' ≠ c →
  ensures (on_read_bytes c reads last) s (λ _ s',
    due_200_ok c' s' ≤ due_200_ok c' s).
Proof.
  intros Hne. unfold on_read_bytes.
  apply ensures_bind. ensures_step. destruct last.
  - ensures_all. due_solve.
  - apply ensures_bind. ensures_step. heap_norm. apply ensures_bind.
    eapply ensures_weaken; [by apply (scan_loop_due _ _ _ c')|].
    intros [] s1 Hdue. cbv beta.
    assert (due_200_ok c' (set_heap
              (<[c:=set_current_message (accumulate (current_message cl) reads) cl]>
                 (heap s)) s) = due_200_ok c' s) as E by due_solve.
    ensures_all.
    + assert (due_200_ok c' (set_heap (delete c (heap s1))
                (set_effects (effects s1 ++ [Unref (connection cl1)])
                   (set_clients (g_list_remove (clients s1) c) s1)))
              ≤ due_200_ok c' s1) by due_solve.
      lia.
    + lia.
  - ensures_all. due_solve.
Qed.

Lemma find_by_socket_state l sock s :
  ensures (find_by_socket l sock) s (λ _ s', s' = s).
Proof.
  revert s. induction l as [|c l IH]; intros s; simpl; ensures_all; done.
Qed.

Lemma dispatch_due ev s c :
  (∀ reads last, ev ≠ Readable c reads last) →
  ensures (dispatch ev) s (λ _ s', due_200_ok c s' ≤ due_200_ok c s).
Proof.
  intros Hev. destruct ev as [conn sock peer|c0 reads last|c0|elem sock
                             |elem caps_name|c0]; simpl.
  - unfold on_new_connection. ensures_all. due_solve.
  - assert (c ≠ c0) as Hne by (intros ->; by eapply Hev).
    apply ensures_bind, ensures_get. destruct (attached s c0 isource).
    + apply ensures_bind.
      eapply ensures_weaken; [by apply (on_read_bytes_due _ _ _ _ c)|].
      intros ? s1 Hdue. by apply ensures_ret.
    + by apply ensures_ret.
  - unfold on_timeout. ensures_all; due_solve.
  - unfold on_client_socket_removed. apply ensures_bind, ensures_get.
    apply ensures_bind.
    eapply ensures_weaken; [apply find_by_socket_state|].
    intros found s1 ->. destruct found; ensures_all; due_solve.
  - eapply ensures_weaken; [apply (on_stream_caps_changed_due _ _ _ c)|].
    intros [] s1 [-> _]. done.
  - ensures_all. due_solve.
Qed.

(** ** Several requests, several answers *)


(** ** The fuel of the scan loop is enough *)

Lemma fuel_free_ret {A} (a : A) : fuel_free (mret a).
Proof. intros s. discriminate. Qed.

Lemma fuel_free_bind {A B} (m : M A) (f : A → M B) :
  fuel_free m → (∀ a, fuel_free (f a)) → fuel_free (m ≫= f).
Proof.
  intros Hm Hf s. rewrite bind_eq. specialize (Hm s).
  destruct (m s) as [a s1|e]; [apply Hf | congruence].
Qed.

Lemma fuel_free_get : fuel_free get.
Proof. intros s. discriminate. Qed.

Lemma fuel_free_modify f : fuel_free (modify f).
Proof. intros s. discriminate. Qed.

Lemma fuel_free_deref c : fuel_free (deref c).
Proof. intros s. unfold deref. destruct (heap s !! c); discriminate. Qed.

Lemma fuel_free_deref_endpoint p : fuel_free (deref_endpoint p).
Proof.
  intros s. unfold deref_endpoint. destruct p as [i|]; [|discriminate].
  destruct (endpoints s !! i); discriminate.
Qed.

Lemma fuel_free_fail {A} e : e ≠ OutOfFuel → fuel_free (fail e : M A).
Proof. intros He s [= Heq]. done. Qed.

Ltac fuel_free_step :=
  lazymatch goal with
  | |- fuel_free (fail _) => apply fuel_free_fail; discriminate
  | |- fuel_free (mbind _ _) => apply fuel_free_bind; [|intros ?]
  | |- fuel_free (mret _) => apply fuel_free_ret
  | |- fuel_free get => apply fuel_free_get
  | |- fuel_free (modify _) => apply fuel_free_modify
  | |- fuel_free (emit _) => apply fuel_free_modify
  | |- fuel_free (deref _) => apply fuel_free_deref
  | |- fuel_free (deref_endpoint _) => apply fuel_free_deref_endpoint
  | |- fuel_free (update _ _) => unfold update
  | |- fuel_free (remove_client _) => unfold remove_client
  | |- fuel_free (write_bytes _ _) => unfold write_bytes
  | |- fuel_free (remove_client_locked _) => unfold remove_client_locked
  | |- fuel_free (write_bytes_locked _ _) => unfold write_bytes_locked
  | |- fuel_free (if ?b then _ else _) => destruct b
  | |- fuel_free (match ?o with Some _ => _ | None => _ end) => destruct o
  | |- fuel_free (let '(_, _) := ?p in _) => destruct p
  end.

Ltac fuel_free_run := repeat fuel_free_step.

Lemma fuel_free_client_message c data len : fuel_free (client_message c data len).
Proof.
  unfold client_message, route, start_streaming, send_response_200_ok,
    send_response_404_not_found, send_response_400_not_found.
  cbv zeta. fuel_free_run.
Qed.

Lemma fuel_free_handle_request c tmp tmp_len :
  fuel_free (handle_request c tmp tmp_len).
Proof.
  unfold handle_request. cbv zeta. fuel_free_run.
  apply fuel_free_client_message.
Qed.

(** [client_message] leaves the buffer of its client alone. *)
Lemma client_message_buffer c data len s :
  ensures (client_message c data len) s (λ _ s',
    ∀ cl', heap s' !! c = Some cl' →
           ∃ cl, heap s !! c = Some cl
                 ∧ current_message cl' = current_message cl).
Proof.
  unfold client_message, route, start_streaming, send_response_200_ok,
    send_response_404_not_found, send_response_400_not_found.
  cbv zeta. ensures_all.
  all: intros cl' Hcl';
    cbn [heap set_heap set_effects set_clients set_started] in Hcl';
    rewrite ?insert_insert_eq, ?delete_insert_eq in Hcl';
    first [ rewrite lookup_insert_eq in Hcl'
          | rewrite lookup_delete_eq in Hcl'
          | idtac ];
    simplify_eq; eexists; (split; [eassumption | reflexivity]).
Qed.

(** What the branch taken at a terminator leaves behind: the client is
    gone, or its buffer lost [tmp + 5] bytes of the buffer extended by the
    NUL and the scan restarts at its top. *)
Lemma handle_request_result c tmp tmp_len s cl :
  heap s !! c = Some cl →
  ensures (handle_request c tmp tmp_len) s (λ r s',
    (heap s' !! c = None ∧ r = (tmp, tmp_len))
    ∨ ∃ cl', heap s' !! c = Some cl'
             ∧ current_message cl'
               = drop (tmp + 5) (current_message cl ++ [nul])
             ∧ r = (0, length (current_message cl'))).
Proof.
  intros Hc. unfold handle_request, g_byte_array_append.
  apply ensures_bind. ensures_step. cbv zeta.
  apply ensures_bind. ensures_step. apply ensures_bind. ensures_step.
  heap_norm. simplify_eq. apply ensures_bind.
  eapply ensures_weaken; [apply client_message_buffer|].
  intros ok s2 Hbuf. cbv beta. destruct ok; ensures_all.
  - right. eexists. split; [cbn [heap set_heap]; apply lookup_insert_eq|].
    destruct (Hbuf _ ltac:(eassumption)) as (cl1 & Hcl1 & Heq).
    rewrite lookup_insert_eq in Hcl1. injection Hcl1 as <-.
    cbn [current_message set_current_message] in *.
    unfold g_byte_array_remove_range. rewrite Heq. done.
  - left. cbn [heap set_heap]. by rewrite lookup_delete_eq.
Qed.

Lemma scan_loop_fueled c fuel : ∀ s tmp tmp_len,
  0 < fuel →
  (∀ cl, heap s !! c = Some cl →
         tmp + tmp_len = length (current_message cl) ∧ tmp_len < fuel) →
  scan_loop fuel c tmp tmp_len s ≠ Fault OutOfFuel.
Proof.
  induction fuel as [|fuel IH]; intros s tmp tmp_len Hfuel Hinv; [lia|].
  simpl. case_bool_decide as Hlen; [|discriminate].
  rewrite bind_eq. unfold deref.
  destruct (heap s !! c) as [cl|] eqn:Hc; [|discriminate].
  destruct (Hinv cl eq_refl) as [Hsum Hlt].
  pose proof (scan_forward_spec (current_message cl) tmp_len tmp Hsum) as Hscan.
  destruct (scan_forward (current_message cl) tmp tmp_len) as [[k l]|];
    [|discriminate].
  destruct Hscan as (Hk & Hkl & Hl & _).
  rewrite bind_eq.
  destruct (handle_request c k l s) as [[t' l'] s1|e] eqn:Hrun.
  - destruct (handle_request_result c k l s cl Hc _ _ Hrun)
      as [[Hgone _]|(cl' & Hcl' & Hbuf & [= -> ->])].
    + apply IH; [lia|]. intros cl'. by rewrite Hgone.
    + apply IH; [lia|]. intros cl''. rewrite Hcl'. intros [= <-].
      rewrite Hbuf, length_drop, length_app. simpl. lia.
  - intros [= ->]. by apply (fuel_free_handle_request c k l s).
Qed.

Lemma fuel_free_update c f : fuel_free (update c f).
Proof. fuel_free_run. Qed.

Ltac as_fuel_free :=
  lazymatch goal with
  | |- ?m ?s ≠ Fault OutOfFuel =>
      generalize s; change (fuel_free m)
  end.

Lemma on_read_bytes_fueled c reads last s :
  on_read_bytes c reads last s ≠ Fault OutOfFuel.
Proof.
  unfold on_read_bytes. rewrite bind_eq.
  destruct (update _ _ s) as [[] s1|e] eqn:Hupd.
  - clear Hupd. destruct last.
    + as_fuel_free. fuel_free_run.
    + rewrite bind_eq. unfold deref at 1.
      destruct (heap s1 !! c) as [cl|] eqn:Hc; [|discriminate].
      rewrite bind_eq.
      pose proof (scan_loop_fueled c (S (S (length (current_message cl)))) s1 0
                    (length (current_message cl)) ltac:(lia)) as Hloop.
      destruct (scan_loop _ c 0 _ s1) as [[] s2|e] eqn:Hrun.
      * as_fuel_free. fuel_free_run.
      * intros [= ->]. apply Hloop; [|done].
        intros cl'. rewrite Hc. intros [= <-]. lia.
    + as_fuel_free. fuel_free_run.
  - intros [= ->]. by apply fuel_free_update in Hupd.
Qed.

Lemma fuel_free_dispatch ev : fuel_free (dispatch ev).
Proof.
  destruct ev; simpl; unfold on_new_connection, on_timeout,
    on_client_socket_removed, on_stream_caps_changed.
  - fuel_free_run.
  - fuel_free_run. intros s. apply on_read_bytes_fueled.
  - fuel_free_run.
  - fuel_free_run.
    match goal with |- fuel_free (find_by_socket ?l _) => induction l end;
      simpl; fuel_free_run; done.
  - fuel_free_run;
      match goal with |- fuel_free (notify_waiting ?l _) => induction l end;
      simpl; unfold send_response_200_ok_locked; fuel_free_run; done.
  - fuel_free_run.
Qed.

(** No run of the main loop stops for lack of fuel: the bound given to the
    scan loop in [on_read_bytes] covers every request it can find. *)
Lemma fuel_free_run_events evs : fuel_free (run evs).
Proof.
  induction evs as [|ev evs IH]; simpl.
  - apply fuel_free_ret.
  - apply fuel_free_bind; [apply fuel_free_dispatch | done].
Qed.

(** ** Reachable states are consistent *)

Lemma preserves_ret {A} (a : A) : preserves (mret a).
Proof. intros s Hs. by apply ensures_ret. Qed.

Lemma preserves_bind {A B} (m : M A) (f : A → M B) :
  preserves m → (∀ a, preserves (f a)) → preserves (m ≫= f).
Proof.
  intros Hm Hf s Hs. apply ensures_bind.
  eapply ensures_weaken; [by apply Hm|]. intros a s1 Hs1. by apply Hf.
Qed.

Lemma preserves_read {A} (m : M A) :
  (∀ s, ensures m s (λ _ s', s' = s)) → preserves m.
Proof.
  intros Hm s Hs. eapply ensures_weaken; [apply Hm|]. by intros a s' ->.
Qed.

Lemma preserves_get : preserves get.
Proof. apply preserves_read. intros s. by apply ensures_get. Qed.

Lemma preserves_deref c : preserves (deref c).
Proof. apply preserves_read. intros s. by apply ensures_deref. Qed.

Lemma preserves_deref_endpoint p : preserves (deref_endpoint p).
Proof. apply preserves_read. intros s. by apply ensures_deref_endpoint. Qed.

Lemma preserves_emit e : preserves (emit e).
Proof. intros s [H1 H2 H3]. apply ensures_emit. by split. Qed.

Lemma preserves_set_started b : preserves (modify (set_started b)).
Proof. intros s [H1 H2 H3]. apply ensures_modify. by split. Qed.

Lemma preserves_update c f : preserves (update c f).
Proof.
  intros s [H1 H2 H3]. apply ensures_update. intros cl Hcl.
  assert (∀ c', is_Some (<[c:=f cl]> (heap s) !! c') ↔ is_Some (heap s !! c'))
    as Hdom.
  { intros c'. rewrite lookup_insert. case_decide; [subst|done].
    rewrite Hcl. split; eauto. }
  split; cbn [clients heap next_client set_heap]; [done | |].
  - intros c'. by rewrite Hdom.
  - intros c'. rewrite Hdom. apply H3.
Qed.

Lemma elem_of_g_list_remove l c c' :
  NoDup l → c' ∈ g_list_remove l c ↔ c' ∈ l ∧ c' ≠ c.
Proof.
  induction 1 as [|x l Hx Hl IH]; simpl.
  - split; [by intros ?%not_elem_of_nil | by intros [?%not_elem_of_nil _]].
  - destruct (decide (x = c)) as [->|Hne].
    + rewrite elem_of_cons. split.
      * intros Hin. split; [by right|]. by intros ->.
      * by intros [[->|Hin] Hc'].
    + rewrite !elem_of_cons, IH. split.
      * intros [->|[Hin Hc']]; [split; [by left | done] | split; [by right | done]].
      * intros [[->|Hin] Hc']; [by left | by right].
Qed.

Lemma preserves_remove_client c : preserves (remove_client c).
Proof.
  intros s [H1 H2 H3]. apply ensures_remove_client. intros cl Hcl.
  split; cbn [clients heap next_client set_heap set_effects set_clients].
  - by apply g_list_remove_NoDup.
  - intros c'. rewrite elem_of_g_list_remove by done.
    rewrite lookup_delete. case_decide; [subst|].
    + split; [by intros [_ ?] | by intros [? [=]]].
    + rewrite H2. split; [by intros [? _] | done].
  - intros c'. rewrite lookup_delete. case_decide; [by intros [? [=]]|].
    apply H3.
Qed.

Ltac preserves_step :=
  lazymatch goal with
  | |- preserves (mbind _ _) => apply preserves_bind; [|intros ?]
  | |- preserves (mret _) => apply preserves_ret
  | |- preserves get => apply preserves_get
  | |- preserves (modify (set_started _)) => apply preserves_set_started
  | |- preserves (emit _) => apply preserves_emit
  | |- preserves (deref _) => apply preserves_deref
  | |- preserves (deref_endpoint _) => apply preserves_deref_endpoint
  | |- preserves (update _ _) => apply preserves_update
  | |- preserves (remove_client _) => apply preserves_remove_client
  | |- preserves (write_bytes _ _) => unfold write_bytes
  | |- preserves (write_bytes_locked _ _) =>
      unfold write_bytes_locked, remove_client_locked
  | |- preserves (fail _) => intros ? _; apply ensures_fail
  | |- preserves (if ?b then _ else _) => destruct b
  | |- preserves (match ?o with Some _ => _ | None => _ end) => destruct o
  | |- preserves (let '(_, _) := ?p in _) => destruct p
  end.

Ltac preserves_run := repeat preserves_step.

Lemma preserves_client_message c data len : preserves (client_message c data len).
Proof.
  unfold client_message, route, start_streaming, send_response_200_ok,
    send_response_404_not_found, send_response_400_not_found.
  cbv zeta. preserves_run.
Qed.

Lemma preserves_scan_loop fuel c : ∀ tmp tmp_len,
  preserves (scan_loop fuel c tmp tmp_len).
Proof.
  induction fuel as [|fuel IH]; intros tmp tmp_len; simpl.
  - intros s _. apply ensures_fail.
  - unfold handle_request. cbv zeta.
    preserves_run; try apply preserves_client_message;
      apply IH.
Qed.

Lemma preserves_on_read_bytes c reads last :
  preserves (on_read_bytes c reads last).
Proof.
  unfold on_read_bytes. destruct last; preserves_run.
  apply preserves_scan_loop.
Qed.

Lemma preserves_on_new_connection conn sock peer :
  preserves (on_new_connection conn sock peer).
Proof.
  intros s [H1 H2 H3]. unfold on_new_connection. ensures_all.
  assert (heap s !! next_client s = None) as Hfresh.
  { destruct (heap s !! next_client s) eqn:Hn; [|done].
    specialize (H3 (next_client s) ltac:(eauto)). lia. }
  split; cbn [clients heap next_client set_heap set_clients set_next_client].
  - constructor; [|done]. rewrite H2, Hfresh. by intros [? [=]].
  - intros c. rewrite elem_of_cons, lookup_insert, H2.
    case_decide; [subst|].
    + split; [by eauto | by left].
    + split; [by intros [->|?] | by right].
  - intros c. rewrite lookup_insert. case_decide; [lia|].
    intros Hc%H3. lia.
Qed.

Lemma preserves_dispatch ev : preserves (dispatch ev).
Proof.
  destruct ev; simpl; unfold on_timeout, on_client_socket_removed,
    on_stream_caps_changed.
  - preserves_run. apply preserves_on_new_connection.
  - preserves_run. apply preserves_on_read_bytes.
  - preserves_run.
  - preserves_run.
    match goal with |- preserves (find_by_socket ?l _) => induction l end;
      simpl; preserves_run; done.
  - preserves_run;
      lazymatch goal with
      | |- preserves (modify _) =>
          intros s [H1 H2 H3]; apply ensures_modify; by split
      | |- preserves (notify_waiting ?l _) =>
          induction l; simpl; unfold send_response_200_ok_locked;
          preserves_run; done
      end.
  - intros s [H1 H2 H3]. apply ensures_modify. by split.
Qed.

Lemma consistent_initial eps : consistent (initial eps).
Proof.
  split; simpl.
  - constructor.
  - intros c. rewrite lookup_empty.
    split; [by intros ?%not_elem_of_nil | by intros [? [=]]].
  - intros c. rewrite lookup_empty. by intros [? [=]].
Qed.

(** Every state the main loop reaches from the start is consistent; in
    particular its [clients] has no duplicate. *)
Lemma run_consistent evs eps s :
  run evs (initial eps) = Ok tt s → consistent s.
Proof.
  assert (preserves (run evs)) as Hrun.
  { induction evs as [|ev evs IH]; simpl.
    - apply preserves_ret.
    - apply preserves_bind; [apply preserves_dispatch | done]. }
  intros Hs. exact (Hrun _ (consistent_initial eps) _ _ Hs).
Qed.

(** ** The scan loop at work *)

(** With a terminator ahead, the loop hands the request found by the scan
    to [handle_request] and goes on from what that returns. *)
Lemma scan_loop_found fuel c s cl tmp tmp_len k l :
  heap s !! c = Some cl →
  scan_forward (current_message cl) tmp tmp_len = Some (k, l) →
  scan_loop (S fuel) c tmp tmp_len s
  = ('(tmp', tmp_len') ← handle_request c k l; scan_loop fuel c tmp' tmp_len') s.
Proof.
  intros Hc Hscan. simpl.
  assert (3 < tmp_len) as Hlen.
  { destruct tmp_len as [|n]; [done|]. simpl in Hscan.
    by case_bool_decide. }
  rewrite bool_decide_true by done.
  by rewrite (bind_ok _ _ _ _ _ (deref_live _ _ _ Hc)), Hscan.
Qed.

(** With no terminator ahead, the loop ends and nothing has changed. *)
Lemma scan_loop_not_found fuel c s cl tmp tmp_len :
  heap s !! c = Some cl →
  scan_forward (current_message cl) tmp tmp_len = None →
  scan_loop (S fuel) c tmp tmp_len s = Ok tt s.
Proof.
  intros Hc Hscan. simpl. case_bool_decide; [|done].
  by rewrite (bind_ok _ _ _ _ _ (deref_live _ _ _ Hc)), Hscan.
Qed.

(** X4.  A read that leaves the stream without terminator, and the buffer below
    1 MiB, only grows the buffer: no request is handled and the watcher
    stays. *)
Theorem on_read_bytes_incomplete c s cl reads :
  heap s !! c = Some cl →
  ¬ contains_terminator (current_message cl ++ concat reads) →
  (Z.of_nat (length (current_message cl ++ concat reads)) < 1024 * 1024)%Z →
  on_read_bytes c reads ReadWouldBlock s
  = Ok true (set_heap
               (<[c := set_current_message
                         (current_message cl ++ concat reads) cl]> (heap s)) s).
Proof.
  intros Hc Hnone Hsmall. unfold on_read_bytes.
  rewrite (bind_ok _ _ _ _ _ (update_live _ _ _ _ Hc)).
  rewrite accumulate_concat.
  set (cl' := set_current_message (current_message cl ++ concat reads) cl).
  set (s' := set_heap (<[c := cl']> (heap s)) s).
  assert (heap s' !! c = Some cl') as Hc' by apply lookup_insert_eq.
  rewrite (bind_ok _ _ _ _ _ (deref_live _ _ _ Hc')).
  assert (scan_forward (current_message cl') 0 (length (current_message cl'))
          = None) as Hscan.
  { destruct (scan_forward _ 0 _) as [[k l]|] eqn:Hfound; [|done].
    destruct Hnone. apply boundary_scan_contains.
    subst cl'. cbn [current_message set_current_message] in Hfound.
    exists k. unfold boundary_scan. by rewrite Hfound. }
  rewrite (bind_ok _ _ _ _ _ (scan_loop_not_found _ _ _ _ _ _ Hc' Hscan)).
  rewrite (bind_ok _ _ _ _ _ (deref_live _ _ _ Hc')).
  by rewrite bool_decide_false by (simpl; lia).
Qed.

(** When bytes are buffered behind the request, the byte consumed with it
    is the first of them, and the NUL stays behind. *)
Lemma drop_request_and_nul (req rest : bytes) k :
  length req = k + 4 →
  drop (k + 5) ((req ++ rest) ++ [nul]) = drop 1 (rest ++ [nul]).
Proof.
  intros Hlen. rewrite <- app_assoc.
  replace (k + 5) with (length req + 1) by lia.
  by rewrite <- drop_drop, drop_app_length.
Qed.

(** The loop of [on_stream_caps_changed] dereferences the endpoint of the
    first client it meets, NULL or not. *)
Lemma notify_waiting_null_endpoint c l elem s cl :
  heap s !! c = Some cl →
  endpoint cl = None →
  notify_waiting (c :: l) elem s = Fault NullDeref.
Proof.
  intros Hc Hnull. simpl.
  rewrite (bind_ok _ _ _ _ _ (deref_live _ _ _ Hc)).
  by rewrite bind_eq, Hnull.
Qed.

(** ** The storage of the buffer *)

Lemma g_nearest_pow_ge n : n ≤ g_nearest_pow n.
Proof.
  unfold g_nearest_pow. destruct (decide (n ≤ 1)) as [Hn|Hn].
  - pose proof (Nat.pow_nonzero 2 (Nat.log2_up n)). lia.
  - apply Nat.log2_up_spec. lia.
Qed.

Lemma g_nearest_pow_least n m : n ≤ 2 ^ m → g_nearest_pow n ≤ 2 ^ m.
Proof.
  intros Hn. unfold g_nearest_pow. apply Nat.pow_le_mono_r; [lia|].
  destruct (decide (n = 0)) as [->|Hpos].
  - rewrite Nat.log2_up_nonpos; lia.
  - apply Nat.log2_up_le_pow2; [lia | done].
Qed.

Lemma g_nearest_pow_mono n m : n ≤ m → g_nearest_pow n ≤ g_nearest_pow m.
Proof.
  intros Hle. unfold g_nearest_pow at 2. apply g_nearest_pow_least.
  pose proof (g_nearest_pow_ge m) as Hm. unfold g_nearest_pow in Hm. lia.
Qed.

Lemma g_array_maybe_expand_fits alloc want :
  want ≤ alloc → g_array_maybe_expand alloc want = alloc.
Proof.
  intros Hfits. unfold g_array_maybe_expand. by rewrite bool_decide_false by lia.
Qed.

Lemma g_array_maybe_expand_ge alloc want :
  want ≤ g_array_maybe_expand alloc want.
Proof.
  unfold g_array_maybe_expand. case_bool_decide; [|lia].
  pose proof (g_nearest_pow_ge want). lia.
Qed.

(** Growing in two steps ends with the storage that one step gives. *)
Lemma g_array_maybe_expand_twice alloc n m :
  n ≤ m →
  g_array_maybe_expand (g_array_maybe_expand alloc n) m
  = g_array_maybe_expand alloc m.
Proof.
  intros Hle. unfold g_array_maybe_expand at 2.
  case_bool_decide as Hn; [|done].
  unfold g_array_maybe_expand. rewrite (bool_decide_true (alloc < m)) by lia.
  case_bool_decide as Hm; [done|].
  pose proof (g_nearest_pow_mono n m Hle) as Hmono.
  destruct (decide (m ≤ g_nearest_pow n)) as [Hfit|Hbig].
  - assert (g_nearest_pow m ≤ g_nearest_pow n)
      by (unfold g_nearest_pow at 2; by apply g_nearest_pow_least).
    lia.
  - assert (g_nearest_pow m ≤ 2 ^ 4)
      by (apply g_nearest_pow_least; simpl; lia).
    simpl in *. lia.
Qed.

Lemma client_ext (a b : Client) :
  name a = name b → connection a = connection b → socket a = socket b →
  isource a = isource b → tosource a = tosource b →
  current_message a = current_message b → allocated a = allocated b →
  http_version a = http_version b → waiting_200_ok a = waiting_200_ok b →
  endpoint a = endpoint b →
  a = b.
Proof. destruct a, b. simpl. by intros -> -> -> -> -> -> -> -> -> ->. Qed.

Lemma set_current_message_twice m1 m2 cl :
  length m1 ≤ length m2 →
  set_current_message m2 (set_current_message m1 cl)
  = set_current_message m2 cl.
Proof.
  intros Hle. apply client_ext; try reflexivity.
  cbn [allocated set_current_message]. by apply g_array_maybe_expand_twice.
Qed.

(** ** 200 OK responses and the requests of a read *)

Lemma ensures_and {A} (m : M A) s (Q1 Q2 : A → state → Prop) :
  ensures m s Q1 → ensures m s Q2 → ensures m s (λ a s', Q1 a s' ∧ Q2 a s').
Proof. intros H1 H2 a s' Hrun. split; [by apply H1 | by apply H2]. Qed.

(** Once the client is gone the loop does not return. *)
Lemma scan_loop_freed fuel c tmp tmp_len s (Q : unit → state → Prop) :
  heap s !! c = None → 3 < tmp_len →
  ensures (scan_loop fuel c tmp tmp_len) s Q.
Proof.
  intros Hc Hlen [] s' Hrun. destruct fuel as [|fuel]; [done|].
  simpl in Hrun. rewrite bool_decide_true in Hrun by done.
  by rewrite (bind_fault _ _ _ _ (deref_freed _ _ Hc)) in Hrun.
Qed.

Lemma scan_loop_due_own fuel c : ∀ s cl,
  heap s !! c = Some cl →
  ensures (scan_loop fuel c 0 (length (current_message cl))) s (λ _ s',
    due_200_ok c s'
    ≤ due_200_ok c s + requests_handled fuel (current_message cl)).
Proof.
  induction fuel as [|fuel IH]; intros s cl Hc; [apply ensures_fail|].
  cbn [scan_loop]. case_bool_decide as Hlen; [|apply ensures_ret; lia].
  apply ensures_bind, ensures_deref. intros cl0 Hcl0.
  rewrite Hc in Hcl0. injection Hcl0 as <-.
  pose proof (scan_forward_spec (current_message cl)
                (length (current_message cl)) 0 eq_refl) as Hspec.
  destruct (scan_forward (current_message cl) 0 (length (current_message cl)))
    as [[k l]|] eqn:Hscan; [|apply ensures_ret; lia].
  destruct Hspec as (_ & _ & Hl & _).
  assert (boundary_scan (current_message cl) = Some k) as Hfound
    by (unfold boundary_scan; by rewrite Hscan).
  cbn [requests_handled]. rewrite Hfound.
  apply ensures_bind.
  eapply ensures_weaken;
    [exact (ensures_and _ _ _ _ (handle_request_due c k l s c)
              (handle_request_result c k l s cl Hc))|].
  intros [tmp' tmp_len'] s1 [Hdue Hresult]. cbv beta.
  rewrite bool_decide_true in Hdue by done.
  destruct Hresult as [[Hgone [= -> ->]]|(cl1 & Hcl1 & Hbuf & [= -> ->])].
  - by apply scan_loop_freed.
  - eapply ensures_weaken; [by apply IH|].
    intros [] s2 Hdue2. cbv beta in Hdue2.
    unfold g_byte_array_remove_range, g_byte_array_append.
    rewrite Hbuf in Hdue2. rewrite take_0. cbn [app Nat.add]. lia.
Qed.

Lemma on_read_bytes_due_own c reads last s cl :
  heap s !! c = Some cl →
  ensures (on_read_bytes c reads last) s (λ _ s',
    due_200_ok c s'
    ≤ due_200_ok c s + complete_requests (current_message cl ++ concat reads)).
Proof.
  intros Hc. unfold on_read_bytes.
  apply ensures_bind, ensures_update. intros cl0 Hcl0.
  rewrite Hc in Hcl0. injection Hcl0 as <-.
  set (cl1 := set_current_message (accumulate (current_message cl) reads) cl).
  set (s1 := set_heap (<[c := cl1]> (heap s)) s).
  assert (due_200_ok c s1 = due_200_ok c s) as E by (subst s1 cl1; due_solve).
  assert (heap s1 !! c = Some cl1) as Hc1 by apply lookup_insert_eq.
  assert (∀ s2, due_200_ok c s2 ≤ due_200_ok c s + complete_requests
                                     (current_message cl ++ concat reads) →
            ensures (remove_client c;; mret false) s2 (λ _ s',
              due_200_ok c s'
              ≤ due_200_ok c s + complete_requests
                                   (current_message cl ++ concat reads)))
    as Hremove.
  { intros s2 Hs2. ensures_all.
    match goal with
    | |- due_200_ok c ?sf ≤ _ =>
        assert (due_200_ok c sf ≤ due_200_ok c s2) by due_solve
    end.
    lia. }
  destruct last.
  - apply Hremove. lia.
  - apply ensures_bind, ensures_deref. intros cl0 Hcl0.
    rewrite Hc1 in Hcl0. injection Hcl0 as <-.
    apply ensures_bind.
    eapply ensures_weaken; [by apply (scan_loop_due_own _ c s1 cl1)|].
    intros [] s2 Hdue. cbv beta in Hdue.
    assert (current_message cl1 = current_message cl ++ concat reads) as Hbuf
      by apply accumulate_concat.
    rewrite Hbuf in Hdue. fold (complete_requests
                                  (current_message cl ++ concat reads)) in Hdue.
    apply ensures_bind, ensures_deref. intros cl2 Hcl2.
    case_bool_decide.
    + apply Hremove. lia.
    + apply ensures_ret. lia.
  - apply Hremove. lia.
Qed.

(** The requests the loop handles are no more than the terminators in the
    buffer: each request handled takes its terminator out, and the NUL put
    behind the buffer makes no new one. *)
Lemma terminators_drop n : ∀ stream,
  terminators (drop n stream) ≤ terminators stream.
Proof.
  induction n as [|n IH]; intros [|ch stream]; simpl; try lia.
  specialize (IH stream). lia.
Qed.

Lemma terminators_app_nul stream :
  terminators (stream ++ [nul]) = terminators stream.
Proof.
  induction stream as [|a stream IH]; [done|].
  change ((a :: stream) ++ [nul]) with (a :: (stream ++ [nul])).
  cbn [terminators]. rewrite IH. f_equal.
  destruct stream as [|b [|c [|d stream]]]; simpl;
    rewrite ?bool_decide_false by (intros [=]); done.
Qed.

Lemma terminators_occurs stream k :
  occurs_at stream k →
  S (terminators (drop (S k) stream)) ≤ terminators stream.
Proof.
  intros [post Hocc].
  pose proof (terminators_drop k stream) as Hle. rewrite Hocc in Hle.
  assert (drop (S k) stream = drop 1 (crlfcrlf ++ post)) as ->.
  { rewrite <-Hocc, drop_drop. f_equal. lia. }
  simpl in *. exact Hle.
Qed.

Lemma requests_handled_terminators fuel : ∀ data,
  requests_handled fuel data ≤ terminators data.
Proof.
  induction fuel as [|fuel IH]; intros data; cbn [requests_handled]; [lia|].
  destruct (boundary_scan data) as [k|] eqn:Hscan; [|lia].
  apply boundary_scan_first in Hscan as [Hocc _].
  specialize (IH (g_byte_array_remove_range
                    (g_byte_array_append data [nul]) 0 (k + 5))).
  unfold g_byte_array_remove_range, g_byte_array_append in *.
  rewrite take_0 in *. cbn [app Nat.add] in *.
  assert (occurs_at (data ++ [nul]) k) as Hocc'.
  { destruct Hocc as [post Hpost]. exists (post ++ [nul]).
    pose proof (occurs_at_length data k (ex_intro _ post Hpost)).
    rewrite drop_app_le by lia. rewrite Hpost. by rewrite <-!app_assoc. }
  pose proof (terminators_occurs _ _ Hocc') as Hone.
  rewrite terminators_app_nul in Hone.
  pose proof (terminators_drop 4 (drop (S k) (data ++ [nul]))) as Hrest.
  rewrite drop_drop in Hrest.
  replace (S k + 4) with (k + 5) in Hrest by lia.
  lia.
Qed.



(** ** Requests that are handled without a fault *)

Section returns.
Context {A B : Type}.
Implicit Types (s : state) (Q : A → state → Prop).

Lemma returns_ret (a : A) s Q : Q a s → returns (mret a) s Q.
Proof. intros HQ. by exists a, s. Qed.

Lemma returns_bind (m : M A) (f : A → M B) s (R : B → state → Prop) :
  returns m s (λ a s1, returns (f a) s1 R) → returns (m ≫= f) s R.
Proof.
  intros (a & s1 & Hm & b & s2 & Hf & HR). exists b, s2.
  split; [|done]. by rewrite (bind_ok _ _ _ _ _ Hm).
Qed.

Lemma returns_weaken (m : M A) s Q Q' :
  returns m s Q → (∀ a s', Q a s' → Q' a s') → returns m s Q'.
Proof. intros (a & s' & Hm & HQ) Himp. exists a, s'. auto. Qed.

End returns.

Lemma returns_get s (Q : state → state → Prop) : Q s s → returns get s Q.
Proof. intros HQ. by exists s, s. Qed.

Lemma returns_modify f s (Q : unit → state → Prop) :
  Q tt (f s) → returns (modify f) s Q.
Proof. intros HQ. by exists tt, (f s). Qed.

Lemma returns_deref c cl s (Q : Client → state → Prop) :
  heap s !! c = Some cl → Q cl s → returns (deref c) s Q.
Proof. intros Hc HQ. exists cl, s. split; [by apply deref_live | done]. Qed.

Lemma returns_deref_endpoint i e s (Q : EndPoint → state → Prop) :
  endpoints s !! i = Some e → Q e s → returns (deref_endpoint (Some i)) s Q.
Proof.
  intros Hi HQ. exists e, s. split; [|done]. unfold deref_endpoint. by rewrite Hi.
Qed.

Lemma returns_update c cl f s (Q : unit → state → Prop) :
  heap s !! c = Some cl →
  Q tt (set_heap (<[c := f cl]> (heap s)) s) →
  returns (update c f) s Q.
Proof.
  intros Hc HQ. eexists tt, _. split; [by apply update_live | done].
Qed.

Lemma returns_remove_client c cl s (Q : unit → state → Prop) :
  heap s !! c = Some cl →
  Q tt (set_heap (delete c (heap s))
          (set_effects (effects s ++ [Unref (connection cl)])
             (set_clients (g_list_remove (clients s) c) s))) →
  returns (remove_client c) s Q.
Proof.
  intros Hc HQ. eexists tt, _. split; [by apply remove_client_live | done].
Qed.

Lemma write_bytes_sent s c cl r :
  heap s !! c = Some cl → c ∉ broken s →
  write_bytes c r s = Ok tt (set_effects (effects s ++ [Written c r]) s).
Proof.
  intros Hc Hok. unfold write_bytes.
  rewrite (bind_ok _ _ _ _ _ (deref_live _ _ _ Hc)).
  unfold get. rewrite bind_eq. by rewrite bool_decide_false.
Qed.

Lemma returns_write_bytes c cl r s (Q : unit → state → Prop) :
  heap s !! c = Some cl → c ∉ broken s →
  Q tt (set_effects (effects s ++ [Written c r]) s) →
  returns (write_bytes c r) s Q.
Proof.
  intros Hc Hok HQ. eexists tt, _. split; [by eapply write_bytes_sent | done].
Qed.

Ltac state_cbn :=
  cbn [heap clients endpoints started effects broken play_fails next_client
       set_heap set_clients set_effects set_endpoints set_started set_broken
       set_next_client
       name connection socket isource tosource current_message allocated
       http_version
       waiting_200_ok endpoint
       set_isource set_tosource set_current_message set_http_version
       set_waiting_200_ok set_endpoint].

Ltac state_cbn_in H :=
  cbn [heap clients endpoints started effects broken play_fails next_client
       set_heap set_clients set_effects set_endpoints set_started set_broken
       set_next_client
       name connection socket isource tosource current_message allocated
       http_version
       waiting_200_ok endpoint
       set_isource set_tosource set_current_message set_http_version
       set_waiting_200_ok set_endpoint] in H.

Ltac heap_lookup :=
  state_cbn; first [eassumption | apply lookup_insert_eq].

(** One step of symbolic execution under [returns]; reads of the heap are
    discharged from the hypotheses or from the last write. *)
Ltac returns_step :=
  lazymatch goal with
  | |- returns (mbind _ _) _ _ => apply returns_bind
  | |- returns (mret _) _ _ => apply returns_ret
  | |- returns get _ _ => apply returns_get
  | |- returns (modify _) _ _ => apply returns_modify
  | |- returns (emit _) _ _ => apply returns_modify
  | |- returns (deref _) _ _ => eapply returns_deref; [heap_lookup|]
  | |- returns (update _ _) _ _ => eapply returns_update; [heap_lookup|]
  | |- returns (write_bytes _ _) _ _ =>
      eapply returns_write_bytes; [heap_lookup | state_cbn; assumption |]
  | |- returns (deref_endpoint _) _ _ =>
      state_cbn; eapply returns_deref_endpoint; [state_cbn; eassumption|]
  | |- returns (if ?b then _ else _) _ _ => destruct b eqn:?
  | |- returns (match ?o with Some _ => _ | None => _ end) _ _ =>
      destruct o eqn:?
  | |- returns (let '(_, _) := ?p in _) _ _ => destruct p eqn:?
  end.

(** Turn what [find_by_name] returned into a read of [endpoints]. *)
Ltac find_norm :=
  repeat match goal with
  | H : find_by_name _ _ 0 = Some _ |- _ =>
      let e := fresh "ep" in
      let He := fresh "Hep" in
      destruct (find_by_name_lookup _ _ _ _ H) as (e & He & _ & _);
      rewrite Nat.sub_0_r in He; state_cbn_in He; clear H
  end.

Ltac returns_run := repeat (returns_step; cbv beta; find_norm).

Lemma state_ext (a b : state) :
  clients a = clients b → endpoints a = endpoints b →
  started a = started b → heap a = heap b →
  next_client a = next_client b → effects a = effects b →
  broken a = broken b → play_fails a = play_fails b →
  a = b.
Proof. destruct a, b. simpl. by intros -> -> -> -> -> -> -> ->. Qed.

(** X1.  Whatever bytes a live client with a healthy output stream has sent,
    [client_message] returns: it does not fault and does not remove the
    client; it touches no other client, leaves the buffer alone, and answers
    TRUE only with an endpoint of the registry assigned. *)
Theorem client_message_returns c data len s cl :
  heap s !! c = Some cl →
  c ∉ broken s →
  returns (client_message c data len) s (λ ok s',
    clients s' = clients s ∧ endpoints s' = endpoints s
    ∧ ∃ cl', heap s' = <[c := cl']> (heap s)
             ∧ current_message cl' = current_message cl
             ∧ (ok = true → ∃ i, endpoint cl' = Some i
                                  ∧ is_Some (endpoints s !! i))).
Proof.
  intros Hc Hok.
  unfold client_message, route, start_streaming, send_response_200_ok,
    send_response_404_not_found, send_response_400_not_found.
  cbv zeta.
  returns_run.
  all: state_cbn; rewrite ?insert_insert_eq;
    (split; [reflexivity|]); (split; [reflexivity|]).
  all: try (eexists; split; [reflexivity|]; split; [reflexivity|];
            first [ by intros [=] | intros _; eauto ]).
  exists cl. split; [by rewrite insert_id | by split].
Qed.

Lemma client_message_returns_witness :
  heap (connected post_request) !! 0 = Some (demo_client post_request)
  ∧ (0 ∉ broken (connected post_request))
  ∧ returns (client_message 0 (post_request ++ [nul]) 24)
      (connected post_request) (λ ok s',
        clients s' = clients (connected post_request)
        ∧ endpoints s' = endpoints (connected post_request)
        ∧ ∃ cl', heap s' = <[0 := cl']> (heap (connected post_request))
                 ∧ current_message cl'
                   = current_message (demo_client post_request)
                 ∧ (ok = true →
                    ∃ i, endpoint cl' = Some i
                         ∧ is_Some (endpoints (connected post_request) !! i))).
Proof.
  assert (heap (connected post_request) !! 0
          = Some (demo_client post_request)) as H1 by reflexivity.
  assert (0 ∉ broken (connected post_request)) as H2
    by apply not_elem_of_empty.
  split_and!; [done.. |].
  exact (client_message_returns 0 (post_request ++ [nul]) 24
           (connected post_request) (demo_client post_request) H1 H2).
Defined.

(** The path of [client_message] on which the request is routed, in closed
    form. *)
Lemma client_message_routed s c cl data len line path nm i ep :
  heap s !! c = Some cl →
  (caps_resolved ep = true → c ∉ broken s) →
  g_strsplit_set (cstring data) crlf !! 0 = Some line →
  has_prefix line (str "HEAD") || has_prefix line (str "GET") = true →
  g_strsplit line " "%char !! 1 = Some path →
  g_strsplit path "/"%char !! 1 = Some nm →
  find_by_name (endpoints s) nm 0 = Some i →
  endpoints s !! i = Some ep →
  let get := negb (has_prefix line (str "HEAD")) in
  let version := request_version (g_strsplit line " "%char) in
  client_message c data len s
  = Ok true
      (set_started true
         (set_effects
            (effects s
             ++ routed_effects c get version ep (socket cl)
                  (delivery_mode (g_strsplit path "/"%char) true) s)
            (set_heap (<[c := routed_client get version i ep cl]> (heap s)) s))).
Proof.
  intros Hc Hok Hline Hmeth Hpath Hnm Hfind Hep get version.
  unfold client_message. rewrite Hline. unfold g_str_has_prefix.
  cbn [default from_option]. unfold id.
  assert (negb (has_prefix line (str "HEAD")) && has_prefix line (str "GET")
          = get) as Hget.
  { subst get. destruct (has_prefix line (str "HEAD")); [done|].
    simpl in *. by rewrite Hmeth. }
  rewrite Hget.
  replace (has_prefix line (str "HEAD") || get) with true
    by (subst get; by destruct (has_prefix line (str "HEAD"))).
  exec. rewrite Hc. exec. rewrite Hpath.
  unfold route, g_strv_length.
  rewrite bool_decide_true by (apply lookup_lt_Some in Hnm; lia).
  exec. rewrite Hnm. cbn [default from_option]. unfold id. rewrite Hfind.
  exec. unfold deref_endpoint. exec. rewrite Hep.
  unfold send_response_200_ok, deref_endpoint, routed_client, routed_effects.
  fold version.
  destruct (delivery_mode (g_strsplit path "/"%char) true)
    as [burst_mode min_value] eqn:Hmode.
  cbn [fst snd].
  unfold start_streaming, deref_endpoint.
  destruct (caps_resolved ep) eqn:Hres;
    [specialize (Hok eq_refl)|];
    destruct get, (started s) eqn:Hst, (play_fails s) eqn:Hpf;
    exec; rewrite ?Hep; exec; rewrite ?Hmode; exec; rewrite ?Hep; exec;
    rewrite ?Hst, ?Hpf; exec;
    (f_equal; apply state_ext; state_cbn;
     rewrite ?Hst, ?app_nil_r, <- ?app_assoc; reflexivity).
Qed.

(** ** One complete request, from read to answer *)

Lemma boundary_scan_forward data k :
  boundary_scan data = Some k →
  scan_forward data 0 (length data) = Some (k, length data - k)
  ∧ k + 4 ≤ length data.
Proof.
  unfold boundary_scan. intros Hscan.
  pose proof (scan_forward_spec data (length data) 0 eq_refl) as Hspec.
  destruct (scan_forward data 0 (length data)) as [[k' l]|]; [|done].
  injection Hscan as <-. destruct Hspec as (_ & Hsum & Hl & _).
  split; [|lia]. do 2 f_equal. lia.
Qed.

(** The closed form of a read that completes exactly one routed request. *)
Lemma read_of_routed_request s c cl reads req k line path nm i ep :
  heap s !! c = Some cl →
  (caps_resolved ep = true → c ∉ broken s) →
  current_message cl ++ concat reads = req →
  length req < allocated (set_current_message req cl) →
  boundary_scan req = Some k →
  length req = k + 4 →
  g_strsplit_set (cstring req) crlf !! 0 = Some line →
  has_prefix line (str "HEAD") || has_prefix line (str "GET") = true →
  g_strsplit line " "%char !! 1 = Some path →
  g_strsplit path "/"%char !! 1 = Some nm →
  find_by_name (endpoints s) nm 0 = Some i →
  endpoints s !! i = Some ep →
  let get := negb (has_prefix line (str "HEAD")) in
  let version := request_version (g_strsplit line " "%char) in
  on_read_bytes c reads ReadWouldBlock s
  = Ok true
      (set_started true
         (set_effects
            (effects s
             ++ routed_effects c get version ep (socket cl)
                  (delivery_mode (g_strsplit path "/"%char) true) s)
            (set_heap
               (<[c := set_current_message []
                         (routed_client get version i ep
                            (set_current_message req cl))]> (heap s)) s))).
Proof.
  intros Hc Hok Hreq Hfits Hscan Hlen Hline Hmeth Hpath Hnm Hfind Hep
    get version.
  destruct (boundary_scan_forward _ _ Hscan) as [Hfwd _].
  replace (length req - k) with 4 in Hfwd by lia.
  unfold on_read_bytes.
  rewrite (bind_ok _ _ _ _ _ (update_live _ _ _ _ Hc)).
  rewrite accumulate_concat, Hreq.
  set (cl1 := set_current_message req cl).
  set (s1 := set_heap (<[c := cl1]> (heap s)) s).
  assert (length (current_message cl1) < allocated cl1) as Hfits1
    by exact Hfits.
  assert (heap s1 !! c = Some cl1) as Hc1 by apply lookup_insert_eq.
  rewrite (bind_ok _ _ _ _ _ (deref_live _ _ _ Hc1)).
  change (current_message cl1) with req.
  assert (handle_request c k 4 s1
          = Ok (0, 0)
              (set_started true
                 (set_effects
                    (effects s
                     ++ routed_effects c get version ep (socket cl)
                          (delivery_mode (g_strsplit path "/"%char) true) s)
                    (set_heap
                       (<[c := set_current_message []
                                 (routed_client get version i ep cl1)]>
                          (heap s)) s)))) as Hhandle.
  { unfold handle_request, g_byte_array_append.
    rewrite (bind_ok _ _ _ _ _ (deref_live _ _ _ Hc1)). cbv zeta.
    rewrite (bool_decide_false (allocated cl1 < _)) by lia.
    rewrite (bind_ok _ _ _ _ _ (update_live _ _ _ _ Hc1)).
    set (cl2 := set_current_message (current_message cl1 ++ [nul]) cl1).
    set (s2 := set_heap (<[c := cl2]> (heap s1)) s1).
    assert (heap s2 !! c = Some cl2) as Hc2 by apply lookup_insert_eq.
    rewrite (bind_ok _ _ _ _ _ (deref_live _ _ _ Hc2)).
    assert (g_strsplit_set (cstring (current_message cl2)) crlf !! 0
            = Some line) as Hline2.
    { subst cl2 cl1. state_cbn. by rewrite cstring_app_nul. }
    rewrite (bind_ok _ _ _ _ _
               (client_message_routed s2 c cl2 _ _ line path nm i ep
                  Hc2 Hok Hline2 Hmeth Hpath Hnm Hfind Hep)).
    fold get version. exec.
    assert (set_current_message
              (g_byte_array_remove_range
                 (current_message (routed_client get version i ep cl2)) 0
                 (k + 5))
              (routed_client get version i ep cl2)
            = set_current_message [] (routed_client get version i ep cl1))
      as Hclient.
    { assert (allocated cl2 = allocated cl1) as Halloc.
      { subst cl2. cbn [allocated set_current_message].
        apply g_array_maybe_expand_fits.
        rewrite length_app. change (length [nul]) with 1. lia. }
      subst cl2. unfold routed_client, g_byte_array_remove_range in *.
      apply client_ext;
        destruct (caps_resolved ep), get; state_cbn; try reflexivity;
        try (rewrite drop_ge by (rewrite length_app; simpl; lia); done).
      all: cbn [allocated set_current_message] in Halloc; rewrite Halloc.
      all: rewrite !g_array_maybe_expand_fits by (simpl; lia); done. }
    rewrite Hclient. f_equal.
    - subst cl2. unfold routed_client, g_byte_array_remove_range.
      destruct (caps_resolved ep), get; state_cbn;
        rewrite drop_ge by (rewrite length_app; simpl; lia); done.
    - apply state_ext; subst s2 s1; state_cbn; try reflexivity.
      by rewrite !insert_insert_eq. }
  rewrite bind_eq, (scan_loop_found _ c s1 cl1 0 (length req) k 4 Hc1 Hfwd).
  rewrite bind_eq, Hhandle. cbn [scan_loop].
  rewrite bool_decide_false by lia.
  exec. rewrite bool_decide_false by (simpl; lia). done.
Qed.

(** X2.  A read that completes exactly one request, which is routed, in a
    buffer whose storage has room for the NUL behind it (so the append does
    not move the storage [tmp] points into): the request is answered as
    [client_message] does, the buffer is left empty and the watcher is told
    to stay. *)
Theorem on_read_bytes_routed s c cl reads req k line path nm i ep :
  heap s !! c = Some cl →
  (caps_resolved ep = true → c ∉ broken s) →
  current_message cl ++ concat reads = req →
  length req < allocated (set_current_message req cl) →
  boundary_scan req = Some k →
  length req = k + 4 →
  g_strsplit_set (cstring req) crlf !! 0 = Some line →
  has_prefix line (str "HEAD") || has_prefix line (str "GET") = true →
  g_strsplit line " "%char !! 1 = Some path →
  g_strsplit path "/"%char !! 1 = Some nm →
  find_by_name (endpoints s) nm 0 = Some i →
  endpoints s !! i = Some ep →
  let get := negb (has_prefix line (str "HEAD")) in
  let version := request_version (g_strsplit line " "%char) in
  on_read_bytes c reads ReadWouldBlock s
  = Ok true
      (set_started true
         (set_effects
            (effects s
             ++ routed_effects c get version ep (socket cl)
                  (delivery_mode (g_strsplit path "/"%char) true) s)
            (set_heap
               (<[c := set_current_message []
                         (routed_client get version i ep
                            (set_current_message req cl))]> (heap s)) s))).
Proof. apply read_of_routed_request. Qed.

Lemma on_read_bytes_routed_witness :
  on_read_bytes 0 [str "ashback/45 HT"; str "TP/1.1" ++ crlfcrlf] ReadWouldBlock
    (connected (str "GET /test/fl"))
  = Ok true
      (set_started true
         (set_effects
            (effects (connected (str "GET /test/fl"))
             ++ routed_effects 0 true (str "HTTP/1.1")
                  (mkEndPoint 7 (str "test") None false) 200
                  (delivery_mode
                     (g_strsplit (str "/test/flashback/45") "/"%char) true)
                  (connected (str "GET /test/fl")))
            (set_heap
               (<[0 := set_current_message []
                         (routed_client true (str "HTTP/1.1") 0
                            (mkEndPoint 7 (str "test") None false)
                            (set_current_message flashback_request
                               (demo_client (str "GET /test/fl"))))]>
                  (heap (connected (str "GET /test/fl"))))
               (connected (str "GET /test/fl"))))).
Proof.
  apply (on_read_bytes_routed (connected (str "GET /test/fl")) 0
           (demo_client (str "GET /test/fl"))
           [str "ashback/45 HT"; str "TP/1.1" ++ crlfcrlf]
           flashback_request 31 (str "GET /test/flashback/45 HTTP/1.1")
           (str "/test/flashback/45") (str "test") 0
           (mkEndPoint 7 (str "test") None false));
    first [ by intros _; apply not_elem_of_empty
          | vm_compute; reflexivity
          | apply Nat.ltb_lt; vm_compute; reflexivity ].
Defined.

(** ** Requests as they arrive on the wire *)

Lemma cstring_token data : token [nul] data → cstring data = data.
Proof.
  induction 1 as [|ch data Hch _ IH]; simpl; [done|].
  rewrite decide_False; [by rewrite IH|].
  intros ->. apply Hch. by left.
Qed.

Lemma token_weaken excluded excluded' t :
  excluded' ⊆ excluded → token excluded t → token excluded' t.
Proof.
  intros Hsub Ht. eapply Forall_impl; [exact Ht|].
  intros ch Hch Hin. by apply Hch, Hsub.
Qed.

Lemma split_on_token is_delim t :
  Forall (λ ch, is_delim ch = false) t → split_on is_delim t = [t].
Proof.
  induction 1 as [|ch t Hch _ IH]; simpl; [done|]. by rewrite Hch, IH.
Qed.

Lemma split_on_app is_delim t d rest :
  Forall (λ ch, is_delim ch = false) t → is_delim d = true →
  split_on is_delim (t ++ d :: rest) = t :: split_on is_delim rest.
Proof.
  intros Ht Hd. induction Ht as [|ch t Hch _ IH]; simpl.
  - by rewrite Hd.
  - by rewrite Hch, IH.
Qed.

Lemma token_not_delim excluded t (d : ascii) :
  d ∈ excluded → token excluded t →
  Forall (λ ch, bool_decide (ch = d) = false) t.
Proof.
  intros Hd Ht. eapply Forall_impl; [exact Ht|]. intros ch Hch.
  apply bool_decide_eq_false. intros ->. by apply Hch.
Qed.

Lemma token_not_delims excluded t (ds : list ascii) :
  ds ⊆ excluded → token excluded t →
  Forall (λ ch, bool_decide (ch ∈ ds) = false) t.
Proof.
  intros Hd Ht. eapply Forall_impl; [exact Ht|]. intros ch Hch.
  apply bool_decide_eq_false. intros Hin. by apply Hch, Hd.
Qed.

Section request_line.
Context (get : bool) (nm version : bytes).
Hypothesis nm_token : token [" "%char; "/"%char; cr; lf; nul] nm.
Hypothesis version_token : token [" "%char; cr; lf; nul] version.
Hypothesis version_given : version ≠ [].

Lemma method_token :
  token [" "%char; "/"%char; cr; lf; nul] (str (if get then "GET" else "HEAD")).
Proof.
  destruct get; repeat constructor;
    (intros Hin; repeat (apply elem_of_cons in Hin as [[=]|Hin]);
     by apply not_elem_of_nil in Hin).
Qed.

Lemma path_token : token [" "%char; cr; lf; nul] ("/"%char :: nm).
Proof.
  constructor.
  - intros Hin. repeat (apply elem_of_cons in Hin as [[=]|Hin]).
    by apply not_elem_of_nil in Hin.
  - eapply token_weaken; [|exact nm_token].
    intros ch Hin. repeat (apply elem_of_cons in Hin as [->|Hin]);
      [| | | |by apply not_elem_of_nil in Hin];
      repeat first [by left | right].
Qed.

Lemma request_line_split :
  g_strsplit (request_line get nm version) " "%char
  = [str (if get then "GET" else "HEAD"); "/"%char :: nm; version].
Proof.
  assert (g_strsplit (request_line get nm version) " "%char
          = split_on (λ ch, bool_decide (ch = " "%char))
              (request_line get nm version)) as ->.
  { unfold request_line. by destruct get. }
  unfold request_line.
  change (str " /" ++ nm ++ str " " ++ version)
    with (" "%char :: ("/"%char :: nm) ++ " "%char :: version).
  rewrite split_on_app; [| |done].
  - rewrite split_on_app; [| |done].
    + rewrite split_on_token; [done|].
      eapply token_not_delim; [|exact version_token]. by left.
    + eapply token_not_delim; [|exact path_token]. by left.
  - eapply token_not_delim; [|exact method_token]. by left.
Qed.

Lemma request_path_split :
  g_strsplit ("/"%char :: nm) "/"%char = [[]; nm].
Proof.
  unfold g_strsplit.
  rewrite (split_on_app _ [] "/"%char nm); [|constructor|done].
  rewrite split_on_token; [done|].
  eapply token_not_delim; [|exact nm_token]. right. by left.
Qed.

Lemma request_line_token : token [cr; lf; nul] (request_line get nm version).
Proof.
  assert (∀ t, token [" "%char; cr; lf; nul] t → token [cr; lf; nul] t) as Hweak.
  { intros t. apply token_weaken. intros ch Hin. by right. }
  unfold request_line.
  change (str " /" ++ nm ++ str " " ++ version)
    with (" "%char :: ("/"%char :: nm) ++ " "%char :: version).
  apply Forall_app. split.
  - eapply token_weaken; [|exact method_token].
    intros ch Hin. by do 2 right.
  - constructor.
    { intros Hin. repeat (apply elem_of_cons in Hin as [[=]|Hin]).
      by apply not_elem_of_nil in Hin. }
    apply Forall_app. split; [apply Hweak, path_token|].
    constructor; [|by apply Hweak].
    intros Hin. repeat (apply elem_of_cons in Hin as [[=]|Hin]).
    by apply not_elem_of_nil in Hin.
Qed.

Lemma request_first_line :
  g_strsplit_set (cstring (request_line get nm version ++ crlfcrlf)) crlf !! 0
  = Some (request_line get nm version).
Proof.
  rewrite cstring_token.
  - assert (g_strsplit_set (request_line get nm version ++ crlfcrlf) crlf
            = split_on (λ ch, bool_decide (ch ∈ crlf))
                (request_line get nm version ++ crlfcrlf)) as ->.
    { unfold request_line. by destruct get. }
    change crlfcrlf with (cr :: [lf; cr; lf]).
    rewrite split_on_app; [done | | done].
    eapply token_not_delims; [|exact request_line_token].
    intros ch Hin. apply elem_of_cons in Hin as [->|Hin]; [by left|].
    apply elem_of_cons in Hin as [->|Hin]; [right; by left|].
    by apply not_elem_of_nil in Hin.
  - apply Forall_app. split.
    + eapply token_weaken; [|exact request_line_token].
      intros ch Hin. by do 2 right.
    + repeat constructor;
        (intros Hin; repeat (apply elem_of_cons in Hin as [[=]|Hin]);
         by apply not_elem_of_nil in Hin).
Qed.

Lemma request_boundary :
  boundary_scan (request_line get nm version ++ crlfcrlf)
  = Some (length (request_line get nm version)).
Proof.
  apply boundary_scan_first. split.
  - exists []. by rewrite drop_app_length.
  - intros j Hj [post Hpost].
    assert ((request_line get nm version ++ crlfcrlf) !! j = Some cr) as Hcr.
    { rewrite <- (Nat.add_0_r j), <- lookup_drop, Hpost. done. }
    rewrite lookup_app_l in Hcr by done.
    pose proof request_line_token as Htok.
    unfold token in Htok. rewrite Forall_lookup in Htok.
    apply (Htok _ _ Hcr). by left.
Qed.

End request_line.

(** X3.  A client sends [GET /name version] or [HEAD /name version] for a
    registered endpoint, in any chunks, and the request leaves at least one
    byte of the storage of the buffer free, so that the NUL appended to it
    does not move the storage.  The version is stored and echoed,
    the client is bound to the endpoint and answered at once when the caps
    are known or left waiting, a GET hands the socket to the sink with
    burst mode 2 and no lower limit, the pipeline is started when it was
    not, the buffer is left empty and the watcher is told to stay. *)
Theorem request_served s c cl reads (get : bool) nm version i ep :
  heap s !! c = Some cl →
  (caps_resolved ep = true → c ∉ broken s) →
  current_message cl ++ concat reads
  = request_line get nm version ++ crlfcrlf →
  length (request_line get nm version ++ crlfcrlf) < allocated cl →
  token [" "%char; "/"%char; cr; lf; nul] nm →
  token [" "%char; cr; lf; nul] version →
  version ≠ [] →
  find_by_name (endpoints s) nm 0 = Some i →
  endpoints s !! i = Some ep →
  on_read_bytes c reads ReadWouldBlock s
  = Ok true
      (set_started true
         (set_effects
            (effects s
             ++ routed_effects c get version ep (socket cl)
                  (2, 2 ^ 64 - 1)%Z s)
            (set_heap
               (<[c := set_current_message []
                         (routed_client get version i ep cl)]> (heap s)) s))).
Proof.
  intros Hc Hok Hreq Hfits Hnm Hversion Hgiven Hfind Hep.
  assert (allocated
            (set_current_message (request_line get nm version ++ crlfcrlf) cl)
          = allocated cl) as Halloc
    by (apply g_array_maybe_expand_fits; lia).
  assert (set_current_message []
            (routed_client get version i ep
               (set_current_message
                  (request_line get nm version ++ crlfcrlf) cl))
          = set_current_message [] (routed_client get version i ep cl))
    as Hclient.
  { unfold routed_client. apply client_ext;
      destruct (caps_resolved ep), get; state_cbn; try reflexivity;
      cbn [allocated set_current_message] in Halloc; by rewrite Halloc. }
  pose proof (read_of_routed_request s c cl reads _
                (length (request_line get nm version))
                (request_line get nm version) ("/"%char :: nm) nm i ep
                Hc Hok Hreq) as Hrun.
  rewrite Halloc in Hrun.
  rewrite (request_line_split get nm version Hnm Hversion) in Hrun.
  rewrite (request_path_split nm Hnm) in Hrun.
  assert (negb (has_prefix (request_line get nm version) (str "HEAD")) = get)
    as Hget by by destruct get.
  assert (request_version
            [str (if get then "GET" else "HEAD"); "/"%char :: nm; version]
          = version) as Hv by by destruct version.
  cbv zeta in Hrun. rewrite Hget, Hv, Hclient in Hrun.
  apply Hrun; try done.
  - by apply request_boundary.
  - by rewrite length_app.
  - by apply request_first_line.
  - by destruct get.
Qed.

Lemma request_served_witness :
  on_read_bytes 0 [str "GET /te"; str "st HTTP/1.1" ++ crlfcrlf] ReadWouldBlock
    (connected [])
  = Ok true
      (set_started true
         (set_effects
            (effects (connected [])
             ++ routed_effects 0 true (str "HTTP/1.1")
                  (mkEndPoint 7 (str "test") None false)
                  (socket (demo_client [])) (2, 2 ^ 64 - 1)%Z (connected []))
            (set_heap
               (<[0 := set_current_message []
                         (routed_client true (str "HTTP/1.1") 0
                            (mkEndPoint 7 (str "test") None false)
                            (demo_client []))]> (heap (connected [])))
               (connected [])))).
Proof.
  apply (request_served (connected []) 0 (demo_client [])
           [str "GET /te"; str "st HTTP/1.1" ++ crlfcrlf] true (str "test")
           (str "HTTP/1.1") 0 (mkEndPoint 7 (str "test") None false));
    try reflexivity; try discriminate.
  - apply Nat.ltb_lt. vm_compute. reflexivity.
  - repeat constructor;
      (intros Hin; repeat (apply elem_of_cons in Hin as [[=]|Hin]);
       by apply not_elem_of_nil in Hin).
  - repeat constructor;
      (intros Hin; repeat (apply elem_of_cons in Hin as [[=]|Hin]);
       by apply not_elem_of_nil in Hin).
Defined.

(** ** How a read ends *)

(** X6.  The stream ended or failed: the client is removed at once and the
    watcher is told to go, whatever had been read, a complete request
    included. *)
Theorem on_read_bytes_closed s c cl reads last :
  heap s !! c = Some cl →
  last ≠ ReadWouldBlock →
  on_read_bytes c reads last s
  = Ok false (set_heap (delete c (heap s))
                (set_effects (effects s ++ [Unref (connection cl)])
                   (set_clients (g_list_remove (clients s) c) s))).
Proof.
  intros Hc Hlast. unfold on_read_bytes.
  rewrite (bind_ok _ _ _ _ _ (update_live _ _ _ _ Hc)).
  set (cl' := set_current_message _ cl).
  assert (heap (set_heap (<[c := cl']> (heap s)) s) !! c = Some cl') as Hc'
    by apply lookup_insert_eq.
  destruct last; [|done|];
    rewrite (bind_ok _ _ _ _ _ (remove_client_live _ _ _ Hc'));
    (cbn [mret M_ret]; f_equal; apply state_ext; state_cbn;
     rewrite ?delete_insert_eq; reflexivity).
Qed.

Lemma on_read_bytes_closed_witness :
  on_read_bytes 0 [head_request] ReadEOF (connected [])
  = Ok false
      (set_heap (delete 0 (heap (connected [])))
         (set_effects (effects (connected [])
                       ++ [Unref (connection (demo_client []))])
            (set_clients (g_list_remove (clients (connected [])) 0)
               (connected [])))).
Proof.
  apply (on_read_bytes_closed (connected []) 0 (demo_client [])
           [head_request] ReadEOF); [reflexivity | discriminate].
Defined.

(** X5.  A buffer that has reached 1 MiB without a complete request: the client
    is removed and the watcher is told to go. *)
Theorem on_read_bytes_oversized s c cl reads :
  heap s !! c = Some cl →
  ¬ contains_terminator (current_message cl ++ concat reads) →
  (1024 * 1024 ≤ Z.of_nat (length (current_message cl ++ concat reads)))%Z →
  on_read_bytes c reads ReadWouldBlock s
  = Ok false (set_heap (delete c (heap s))
                (set_effects (effects s ++ [Unref (connection cl)])
                   (set_clients (g_list_remove (clients s) c) s))).
Proof.
  intros Hc Hnone Hbig. unfold on_read_bytes.
  rewrite (bind_ok _ _ _ _ _ (update_live _ _ _ _ Hc)).
  rewrite accumulate_concat.
  set (cl' := set_current_message (current_message cl ++ concat reads) cl).
  set (s' := set_heap (<[c := cl']> (heap s)) s).
  assert (heap s' !! c = Some cl') as Hc' by apply lookup_insert_eq.
  rewrite (bind_ok _ _ _ _ _ (deref_live _ _ _ Hc')).
  assert (scan_forward (current_message cl') 0 (length (current_message cl'))
          = None) as Hscan.
  { destruct (scan_forward _ 0 _) as [[k l]|] eqn:Hfound; [|done].
    destruct Hnone. apply boundary_scan_contains.
    subst cl'. cbn [current_message set_current_message] in Hfound.
    exists k. unfold boundary_scan. by rewrite Hfound. }
  rewrite (bind_ok _ _ _ _ _ (scan_loop_not_found _ _ _ _ _ _ Hc' Hscan)).
  rewrite (bind_ok _ _ _ _ _ (deref_live _ _ _ Hc')).
  rewrite bool_decide_true by (subst cl'; simpl; lia).
  rewrite (bind_ok _ _ _ _ _ (remove_client_live _ _ _ Hc')).
  cbn [mret M_ret]. f_equal. apply state_ext; subst s'; state_cbn;
    rewrite ?delete_insert_eq; reflexivity.
Qed.

Lemma on_read_bytes_oversized_witness :
  on_read_bytes 0 [replicate (1024 * 1024) "a"%char] ReadWouldBlock
    (connected [])
  = Ok false
      (set_heap (delete 0 (heap (connected [])))
         (set_effects (effects (connected [])
                       ++ [Unref (connection (demo_client []))])
            (set_clients (g_list_remove (clients (connected [])) 0)
               (connected [])))).
Proof.
  assert (current_message (demo_client [])
          ++ concat [replicate (1024 * 1024) "a"%char]
          = replicate (1024 * 1024) "a"%char) as Hbuf.
  { cbn [current_message demo_client concat app]. apply app_nil_r. }
  apply (on_read_bytes_oversized (connected []) 0 (demo_client [])
           [replicate (1024 * 1024) "a"%char]).
  - reflexivity.
  - rewrite Hbuf. intros (pre & post & Heq).
    assert (cr ∈ replicate (1024 * 1024) "a"%char) as Hin.
    { rewrite Heq. apply elem_of_app. right. by left. }
    by apply elem_of_replicate in Hin as [[=] _].
  - rewrite Hbuf, length_replicate. lia.
Defined.

(** X7.  The watcher is kept exactly when the client is still allocated: a read
    never answers TRUE for a client it has freed, and never answers FALSE
    without having freed it. *)
Theorem on_read_bytes_result c reads last s ok s' :
  on_read_bytes c reads last s = Ok ok s' →
  ok = true ↔ is_Some (heap s' !! c).
Proof.
  assert (∀ s1 s2, (remove_client c;; mret false) s1 = Ok ok s2 →
            ok = false ∧ heap s2 !! c = None) as Hremoved.
  { intros s1 s2 (a & s3 & Hrm & Hret)%bind_inv.
    destruct a. injection Hret as <- <-. split; [done|].
    destruct (heap s1 !! c) as [cl|] eqn:Hc.
    - rewrite (remove_client_live _ _ _ Hc) in Hrm. injection Hrm as Hs.
      rewrite <- Hs. apply lookup_delete_eq.
    - by rewrite (remove_client_freed _ _ Hc) in Hrm. }
  assert (ok = false ∧ heap s' !! c = None → ok = true ↔ is_Some (heap s' !! c))
    as Hgone.
  { intros [-> ->]. split; [done | by intros [? [=]]]. }
  unfold on_read_bytes. intros ([] & s1 & _ & Hrest)%bind_inv.
  destruct last.
  - eauto.
  - apply bind_inv in Hrest as (cl & ? & _ & Hrest).
    apply bind_inv in Hrest as ([] & s2 & _ & Hrest).
    apply bind_inv in Hrest as (cl2 & s3 & Hderef & Hrest).
    unfold deref in Hderef.
    destruct (heap s2 !! c) as [cl3|] eqn:Hc; [|done].
    injection Hderef as -> ->.
    case_bool_decide; [eauto|].
    injection Hrest as <- <-. by rewrite Hc.
  - eauto.
Qed.

Lemma on_read_bytes_result_witness :
  true = true
  ↔ is_Some (heap (set_heap (<[0 := demo_client (str "GET")]>
                               (heap (connected []))) (connected [])) !! 0).
Proof.
  apply (on_read_bytes_result 0 [str "GET"] ReadWouldBlock (connected [])).
  vm_compute. reflexivity.
Defined.

(** X8.  Whenever [client_message] turns down the first complete request of the
    buffer, the read callback goes on with a client that has been freed: by
    the write that failed inside [client_message], and then [remove_client]
    frees it a second time, or by that [remove_client], and then the scan
    loop reads on in the buffer it released. *)
Theorem on_read_bytes_rejected s c cl reads k s3 :
  heap s !! c = Some cl →
  let req := current_message cl ++ concat reads in
  boundary_scan req = Some k →
  client_message c (req ++ [nul]) (k + 5)
    (set_heap (<[c := set_current_message (req ++ [nul]) cl]> (heap s)) s)
  = Ok false s3 →
  on_read_bytes c reads ReadWouldBlock s = Fault UseAfterFree.
Proof.
  intros Hc req Hscan Hmsg.
  destruct (boundary_scan_forward _ _ Hscan) as [Hfwd Hk].
  unfold on_read_bytes.
  rewrite (bind_ok _ _ _ _ _ (update_live _ _ _ _ Hc)).
  rewrite accumulate_concat. fold req.
  set (cl1 := set_current_message req cl).
  set (s1 := set_heap (<[c := cl1]> (heap s)) s).
  assert (heap s1 !! c = Some cl1) as Hc1 by apply lookup_insert_eq.
  rewrite (bind_ok _ _ _ _ _ (deref_live _ _ _ Hc1)).
  change (current_message cl1) with req.
  rewrite bind_eq, (scan_loop_found _ c s1 cl1 0 (length req) k _ Hc1 Hfwd).
  rewrite bind_eq. unfold handle_request, g_byte_array_append.
  rewrite (bind_ok _ _ _ _ _ (deref_live _ _ _ Hc1)). cbv zeta.
  rewrite (bind_ok _ _ _ _ _ (update_live _ _ _ _ Hc1)).
  set (s2 := set_heap _ s1).
  assert (s2 = set_heap (<[c := set_current_message (req ++ [nul]) cl]> (heap s)) s)
    as ->.
  { apply state_ext; subst s2 s1 cl1; state_cbn; try reflexivity.
    rewrite insert_insert_eq. f_equal.
    change (set_current_message (req ++ [nul]) (set_current_message req cl)
            = set_current_message (req ++ [nul]) cl).
    apply set_current_message_twice. rewrite length_app. lia. }
  rewrite bind_eq. unfold deref at 1. state_cbn. rewrite lookup_insert_eq.
  state_cbn. rewrite bind_eq, Hmsg.
  destruct (heap s3 !! c) as [cl3|] eqn:Hc3.
  - rewrite (bind_ok _ _ _ _ _ (remove_client_live _ _ _ Hc3)).
    cbn [mret M_ret].
    destruct (length req) as [|n] eqn:Hlen; [lia|].
    cbn [scan_loop]. rewrite bool_decide_true by lia.
    rewrite bind_eq. unfold deref. state_cbn. by rewrite lookup_delete_eq.
  - by rewrite (bind_fault _ _ _ _ (remove_client_freed _ _ Hc3)).
Qed.

Lemma on_read_bytes_rejected_witness :
  on_read_bytes 0 [post_request] ReadWouldBlock (connected [])
  = Fault UseAfterFree.
Proof.
  apply (on_read_bytes_rejected (connected []) 0 (demo_client [])
           [post_request] 19
           {| clients := [0];
              endpoints := [mkEndPoint 7 (str "test") None false];
              started := false;
              heap := {[0 := demo_client (post_request ++ [nul])]};
              next_client := 1;
              effects := [Written 0 (Response400 [])];
              broken := ∅; play_fails := false |});
    vm_compute; reflexivity.
Defined.

(** ** Who is notified, who is removed *)

Lemma notify_waiting_passes l rest elem s :
  Forall (passed_over s elem) l →
  notify_waiting (l ++ rest) elem s = notify_waiting rest elem s.
Proof.
  induction 1 as [|c l (cl & j & ep & Hc & Hj & Hep & Hwait) _ IH]; [done|].
  cbn [app notify_waiting].
  rewrite (bind_ok _ _ _ _ _ (deref_live _ _ _ Hc)), Hj.
  unfold deref_endpoint at 1. rewrite bind_eq, Hep.
  case_bool_decide as Helem; [|done].
  by rewrite (Hwait Helem).
Qed.

Lemma passed_over_resolved s elem c i caps_name :
  passed_over s elem c →
  passed_over
    (set_endpoints (alter (resolve_with caps_name) i (endpoints s)) s) elem c.
Proof.
  intros (cl & j & ep & Hc & Hj & Hep & Hwait).
  destruct (decide (i = j)) as [->|Hne].
  - exists cl, j, (resolve_with caps_name ep). split_and!; [done | done | | done].
    state_cbn. by rewrite list_lookup_alter_eq, Hep.
  - exists cl, j, ep. split_and!; [done | done | | done].
    state_cbn. by rewrite list_lookup_alter_ne.
Qed.

Lemma caps_changed_found s elem caps_name i :
  find_by_element (endpoints s) elem 0 = Some i →
  on_stream_caps_changed elem caps_name s
  = notify_waiting (clients s) elem
      (set_endpoints (alter (resolve_with caps_name) i (endpoints s)) s).
Proof.
  intros Hfind. unfold on_stream_caps_changed.
  rewrite bind_eq. unfold get at 1. rewrite Hfind. reflexivity.
Qed.

(** X9.  The first client in [clients] that waits on the element is answered
    with the content type just stored and stops waiting; the loop ends
    there, so no client behind it is looked at. *)
Theorem caps_changed_first_waiting s elem caps_name i l1 c l2 cl :
  find_by_element (endpoints s) elem 0 = Some i →
  clients s = l1 ++ c :: l2 →
  Forall (passed_over s elem) l1 →
  heap s !! c = Some cl →
  endpoint cl = Some i →
  waiting_200_ok cl = true →
  c ∉ broken s →
  on_stream_caps_changed elem caps_name s
  = Ok tt
      (set_heap (<[c := set_waiting_200_ok false cl]> (heap s))
         (set_effects
            (effects s
             ++ [Written c (Response200 (http_version cl)
                              (Some (caps_content_type caps_name)))])
            (set_endpoints
               (alter (resolve_with caps_name) i (endpoints s)) s))).
Proof.
  intros Hfind Hclients Hl1 Hc Hi Hwait Hok.
  rewrite (caps_changed_found _ _ _ _ Hfind), Hclients.
  rewrite notify_waiting_passes
    by (eapply Forall_impl; [done | intros; by apply passed_over_resolved]).
  destruct (find_by_element_lookup _ _ _ _ Hfind) as (ep & Hep & Helem & _).
  rewrite Nat.sub_0_r in Hep.
  set (s1 := set_endpoints _ s).
  assert (endpoints s1 !! i = Some (resolve_with caps_name ep)) as Hep1.
  { subst s1. state_cbn. by rewrite list_lookup_alter_eq, Hep. }
  assert (heap s1 !! c = Some cl) as Hc1 by done.
  cbn [notify_waiting].
  rewrite (bind_ok _ _ _ _ _ (deref_live _ _ _ Hc1)), Hi.
  unfold deref_endpoint at 1. rewrite bind_eq, Hep1.
  rewrite bool_decide_true by done. rewrite Hwait. cbn [andb].
  unfold send_response_200_ok_locked.
  rewrite bind_eq, bind_eq, (deref_live _ _ _ Hc1), Hi.
  unfold deref_endpoint at 1. rewrite bind_eq, Hep1.
  unfold write_bytes_locked.
  rewrite bind_eq, (deref_live _ _ _ Hc1), bind_eq. unfold get at 1.
  rewrite bool_decide_false by done. unfold emit, modify.
  rewrite update_live with (cl := cl) by done.
  reflexivity.
Qed.

Lemma caps_changed_first_waiting_witness :
  on_stream_caps_changed 7 matroska two_waiting
  = Ok tt
      (set_heap (<[1 := set_waiting_200_ok false (waiting_client 101 201)]>
                   (heap two_waiting))
         (set_effects
            (effects two_waiting
             ++ [Written 1 (Response200 (http_version (waiting_client 101 201))
                              (Some (caps_content_type matroska)))])
            (set_endpoints
               (alter (resolve_with matroska) 0 (endpoints two_waiting))
               two_waiting))).
Proof.
  apply (caps_changed_first_waiting two_waiting 7 matroska 0 [] 1 [0]
           (waiting_client 101 201));
    first [ by apply Forall_nil | by apply not_elem_of_empty
          | vm_compute; reflexivity ].
Defined.

(** X10.  When no client waits on the element, the notification only records
    the content type in the endpoint, if the element has one. *)
Theorem caps_changed_nobody_waiting s elem caps_name :
  Forall (passed_over s elem) (clients s) →
  on_stream_caps_changed elem caps_name s
  = Ok tt (match find_by_element (endpoints s) elem 0 with
           | Some i =>
               set_endpoints (alter (resolve_with caps_name) i (endpoints s)) s
           | None => s
           end).
Proof.
  intros Hall.
  assert (∀ s1, Forall (passed_over s1 elem) (clients s) →
            notify_waiting (clients s) elem s1 = Ok tt s1) as Hloop.
  { intros s1 Hs1. rewrite <- (app_nil_r (clients s)).
    by rewrite notify_waiting_passes. }
  destruct (find_by_element (endpoints s) elem 0) as [i|] eqn:Hfind.
  - rewrite (caps_changed_found _ _ _ _ Hfind). apply Hloop.
    eapply Forall_impl; [done | intros; by apply passed_over_resolved].
  - unfold on_stream_caps_changed. rewrite bind_eq. unfold get at 1.
    rewrite Hfind. by apply Hloop.
Qed.

Lemma caps_changed_nobody_waiting_witness :
  on_stream_caps_changed 7 webm answered
  = Ok tt (match find_by_element (endpoints answered) 7 0 with
           | Some i =>
               set_endpoints
                 (alter (resolve_with webm) i (endpoints answered)) answered
           | None => answered
           end).
Proof.
  apply (caps_changed_nobody_waiting answered 7 webm).
  apply Forall_cons. split; [|apply Forall_nil; exact I].
  eexists _, 0, _. split_and!; [reflexivity.. | done].
Defined.



(** ** Sockets the sink has dropped *)

Lemma find_by_socket_passes l rest sock s :
  Forall (λ c, ∃ cl, heap s !! c = Some cl ∧ socket cl ≠ sock) l →
  find_by_socket (l ++ rest) sock s = find_by_socket rest sock s.
Proof.
  induction 1 as [|c l (cl & Hc & Hsock) _ IH]; [done|].
  cbn [app find_by_socket].
  rewrite (bind_ok _ _ _ _ _ (deref_live _ _ _ Hc)).
  by rewrite bool_decide_false by done.
Qed.

(** X12.  The sink reports a socket: the first client of [clients] that holds it
    is removed, whichever element reported it. *)
Theorem socket_removed_first s elem sock l1 c l2 cl :
  clients s = l1 ++ c :: l2 →
  Forall (λ c', ∃ cl', heap s !! c' = Some cl' ∧ socket cl' ≠ sock) l1 →
  heap s !! c = Some cl →
  socket cl = sock →
  on_client_socket_removed elem sock s
  = Ok tt (set_heap (delete c (heap s))
             (set_effects (effects s ++ [Unref (connection cl)])
                (set_clients (g_list_remove (clients s) c) s))).
Proof.
  intros Hclients Hl1 Hc Hsock. unfold on_client_socket_removed.
  rewrite bind_eq. unfold get at 1. rewrite Hclients at 1.
  rewrite bind_eq, (find_by_socket_passes _ _ _ _ Hl1).
  cbn [find_by_socket].
  rewrite (bind_ok _ _ _ _ _ (deref_live _ _ _ Hc)).
  rewrite bool_decide_true by done. cbn [mret M_ret].
  by apply remove_client_live.
Qed.

Lemma socket_removed_first_witness :
  on_client_socket_removed 7 200 two_waiting
  = Ok tt
      (set_heap (delete 0 (heap two_waiting))
         (set_effects
            (effects two_waiting
             ++ [Unref (connection (waiting_client 100 200))])
            (set_clients (g_list_remove (clients two_waiting) 0)
               two_waiting))).
Proof.
  apply (socket_removed_first two_waiting 7 200 [1] 0 []
           (waiting_client 100 200)); try reflexivity.
  apply Forall_cons. split; [|apply Forall_nil; exact I].
  exists (waiting_client 101 201). split; [reflexivity | discriminate].
Defined.

(** X13.  A socket that no client of [clients] holds: nothing happens. *)
Theorem socket_removed_unknown s elem sock :
  Forall (λ c, ∃ cl, heap s !! c = Some cl ∧ socket cl ≠ sock) (clients s) →
  on_client_socket_removed elem sock s = Ok tt s.
Proof.
  intros Hall. unfold on_client_socket_removed.
  rewrite bind_eq. unfold get at 1.
  rewrite <- (app_nil_r (clients s)).
  by rewrite bind_eq, (find_by_socket_passes _ _ _ _ Hall).
Qed.

Lemma socket_removed_unknown_witness :
  on_client_socket_removed 7 999 two_waiting = Ok tt two_waiting.
Proof.
  apply (socket_removed_unknown two_waiting 7 999).
  apply Forall_cons. split.
  { exists (waiting_client 101 201). split; [reflexivity | discriminate]. }
  apply Forall_cons. split; [|apply Forall_nil; exact I].
  exists (waiting_client 100 200). split; [reflexivity | discriminate].
Defined.

(** ** Invariants of the main loop

    [keeps I m]: from a state in [I], [m] returns in [I].  The rules below
    reduce an invariant of every run to what the invariant says about the
    few places that touch the fields it reads. *)

Section keeps_rules.
Context (I : state → Prop).

Lemma keeps_ret {A} (a : A) : keeps I (mret a).
Proof. intros s Hs. by apply ensures_ret. Qed.

Lemma keeps_bind {A B} (m : M A) (f : A → M B) :
  keeps I m → (∀ a, keeps I (f a)) → keeps I (m ≫= f).
Proof.
  intros Hm Hf s Hs. apply ensures_bind.
  eapply ensures_weaken; [by apply Hm|]. intros a s1 Hs1. by apply Hf.
Qed.

Lemma keeps_fail {A} e : keeps I (fail e : M A).
Proof. intros s _. apply ensures_fail. Qed.

Lemma keeps_get : keeps I get.
Proof. intros s Hs. by apply ensures_get. Qed.

Lemma keeps_deref c : keeps I (deref c).
Proof. intros s Hs. by apply ensures_deref. Qed.

Lemma keeps_deref_endpoint p : keeps I (deref_endpoint p).
Proof. intros s Hs. by apply ensures_deref_endpoint. Qed.

Lemma keeps_modify f : (∀ s, I s → I (f s)) → keeps I (modify f).
Proof. intros Hf s Hs. apply ensures_modify. auto. Qed.

End keeps_rules.

Ltac keeps_base :=
  lazymatch goal with
  | |- keeps _ (mbind _ _) => apply keeps_bind; [|intros ?]
  | |- keeps _ (mret _) => apply keeps_ret
  | |- keeps _ (fail _) => apply keeps_fail
  | |- keeps _ get => apply keeps_get
  | |- keeps _ (deref _) => apply keeps_deref
  | |- keeps _ (deref_endpoint _) => apply keeps_deref_endpoint
  | |- keeps _ (if ?b then _ else _) => destruct b
  | |- keeps _ (match ?o with Some _ => _ | None => _ end) => destruct o
  | |- keeps _ (let '(_, _) := ?p in _) => destruct p
  end.

Section frame.
Context (I : state → Prop) (safe : effect → Prop).
Hypothesis I_heap : ∀ s h, I s → I (set_heap h s).
Hypothesis I_clients : ∀ s l, I s → I (set_clients l s).
Hypothesis I_next_client : ∀ s n, I s → I (set_next_client n s).
Hypothesis I_broken : ∀ s b, I s → I (set_broken b s).
Hypothesis I_emit :
  ∀ s e, safe e → I s → I (set_effects (effects s ++ [e]) s).
Hypothesis safe_unref : ∀ conn, safe (Unref conn).
Hypothesis safe_400 : ∀ c v, safe (Written c (Response400 v)).

Lemma keeps_emit e : safe e → keeps I (emit e).
Proof. intros He. apply keeps_modify. auto. Qed.

Lemma keeps_update c f : keeps I (update c f).
Proof. unfold update. repeat keeps_base. apply keeps_modify. auto. Qed.

Lemma keeps_remove_client c : keeps I (remove_client c).
Proof.
  unfold remove_client. repeat keeps_base;
    first [ apply keeps_emit; auto | apply keeps_modify; auto ].
Qed.

Lemma keeps_write_bytes c r : safe (Written c r) → keeps I (write_bytes c r).
Proof.
  intros Hr. unfold write_bytes. repeat keeps_base.
  - apply keeps_remove_client.
  - by apply keeps_emit.
Qed.

Lemma keeps_write_bytes_locked c r :
  safe (Written c r) → keeps I (write_bytes_locked c r).
Proof.
  intros Hr. unfold write_bytes_locked, remove_client_locked.
  repeat keeps_base. by apply keeps_emit.
Qed.

Ltac keeps_step :=
  first
    [ keeps_base
    | lazymatch goal with
      | |- keeps _ (update _ _) => apply keeps_update
      | |- keeps _ (remove_client _) => apply keeps_remove_client
      | |- keeps _ (write_bytes _ _) => apply keeps_write_bytes
      | |- keeps _ (write_bytes_locked _ _) => apply keeps_write_bytes_locked
      | |- keeps _ (emit _) => apply keeps_emit
      end ].

(** The three places an invariant may have to look at itself. *)
Lemma keeps_route_safe c path_parts :
  (∀ c v ct, safe (Written c (Response200 v ct))) →
  (∀ c v, safe (Written c (Response404 v))) →
  keeps I (route c path_parts).
Proof.
  intros H200 H404.
  unfold route, send_response_200_ok, send_response_404_not_found.
  repeat keeps_step; auto.
Qed.

Lemma keeps_start_streaming_safe c get burst_mode min_value :
  (∀ elem sock mode min_value max_value,
     safe (AddFull elem sock mode min_value max_value)) →
  safe SetPlaying → safe MainLoopQuit →
  (∀ s b, I s → I (set_started b s)) →
  keeps I (start_streaming c get burst_mode min_value).
Proof.
  intros Hadd Hplay Hquit Hstarted. unfold start_streaming.
  repeat keeps_step; auto; apply keeps_modify; auto.
Qed.

Lemma keeps_notify_waiting_safe l elem :
  (∀ c v ct, safe (Written c (Response200 v ct))) →
  keeps I (notify_waiting l elem).
Proof.
  intros H200. induction l as [|c l IH]; simpl.
  - apply keeps_ret.
  - unfold send_response_200_ok_locked. repeat keeps_step; auto.
Qed.

Lemma keeps_caps_changed_safe elem caps_name :
  (∀ c v ct, safe (Written c (Response200 v ct))) →
  (∀ s i, I s →
     I (set_endpoints (alter (resolve_with caps_name) i (endpoints s)) s)) →
  keeps I (on_stream_caps_changed elem caps_name).
Proof.
  intros H200 Hresolve. unfold on_stream_caps_changed.
  repeat keeps_step.
  - apply keeps_modify. intros s Hs. by apply Hresolve.
  - by apply keeps_notify_waiting_safe.
Qed.

Hypothesis I_route : ∀ c path_parts, keeps I (route c path_parts).
Hypothesis I_start_streaming : ∀ c get burst_mode min_value,
  keeps I (start_streaming c get burst_mode min_value).
Hypothesis I_caps_changed : ∀ elem caps_name,
  keeps I (on_stream_caps_changed elem caps_name).

Lemma keeps_client_message c data len : keeps I (client_message c data len).
Proof.
  unfold client_message, send_response_400_not_found. cbv zeta.
  repeat keeps_step; auto.
Qed.

Lemma keeps_scan_loop fuel c : ∀ tmp tmp_len,
  keeps I (scan_loop fuel c tmp tmp_len).
Proof.
  induction fuel as [|fuel IH]; intros tmp tmp_len; simpl.
  - apply keeps_fail.
  - unfold handle_request. cbv zeta.
    repeat keeps_step; try apply keeps_client_message; apply IH.
Qed.

Lemma keeps_on_read_bytes c reads last : keeps I (on_read_bytes c reads last).
Proof.
  unfold on_read_bytes. destruct last; repeat keeps_step.
  apply keeps_scan_loop.
Qed.

Lemma keeps_on_new_connection conn sock peer :
  keeps I (on_new_connection conn sock peer).
Proof.
  unfold on_new_connection. repeat keeps_step; apply keeps_modify; auto.
Qed.

Lemma keeps_on_client_socket_removed elem sock :
  keeps I (on_client_socket_removed elem sock).
Proof.
  unfold on_client_socket_removed. repeat keeps_step.
  match goal with |- keeps _ (find_by_socket ?l _) => induction l end;
    simpl; repeat keeps_step; done.
Qed.

Lemma keeps_dispatch ev : keeps I (dispatch ev).
Proof.
  destruct ev; simpl; unfold on_timeout.
  - repeat keeps_step. apply keeps_on_new_connection.
  - repeat keeps_step. apply keeps_on_read_bytes.
  - repeat keeps_step.
  - apply keeps_on_client_socket_removed.
  - apply I_caps_changed.
  - apply keeps_modify. auto.
Qed.

Lemma keeps_run evs : keeps I (run evs).
Proof.
  induction evs as [|ev evs IH]; simpl.
  - apply keeps_ret.
  - apply keeps_bind; [apply keeps_dispatch | done].
Qed.

End frame.

(** ** The registry is fixed *)

Lemma registry_resolve caps_name (i : nat) (l : list EndPoint) :
  (λ e, (element e, ep_name e)) <$> alter (resolve_with caps_name) i l
  = (λ e, (element e, ep_name e)) <$> l.
Proof.
  apply list_eq. intros j. rewrite !list_lookup_fmap.
  destruct (decide (i = j)) as [->|Hne].
  - rewrite list_lookup_alter_eq. by destruct (l !! j).
  - by rewrite list_lookup_alter_ne.
Qed.

Lemma find_by_name_registry (l l' : list EndPoint) nm i0 :
  (λ e, (element e, ep_name e)) <$> l = (λ e, (element e, ep_name e)) <$> l' →
  find_by_name l nm i0 = find_by_name l' nm i0.
Proof.
  revert l' i0. induction l as [|e l IH]; intros [|e' l'] i0; simpl; try done.
  intros [= _ He Hl]. rewrite He. case_bool_decide; [done|]. by apply IH.
Qed.

Lemma keeps_registry r evs : keeps (λ s, registry s = r) (run evs).
Proof.
  apply keeps_run with (safe := λ _, True); try done.
  - intros. by apply keeps_route_safe with (safe := λ _, True).
  - intros. by apply keeps_start_streaming_safe with (safe := λ _, True).
  - intros. apply keeps_caps_changed_safe with (safe := λ _, True); try done.
    intros s i <-. apply registry_resolve.
Qed.

(** X14.  Whatever happens in the main loop, the endpoints keep their elements
    and names, in order: a request name resolves to the same endpoint for
    the whole life of the server. *)
Theorem run_registry_fixed evs s s' :
  run evs s = Ok tt s' →
  registry s' = registry s
  ∧ ∀ nm, find_by_name (endpoints s') nm 0 = find_by_name (endpoints s) nm 0.
Proof.
  intros Hrun.
  assert (registry s' = registry s) as Hreg
    by exact (keeps_registry (registry s) evs s eq_refl tt s' Hrun).
  split; [done|]. intros nm. by apply find_by_name_registry.
Qed.

Lemma run_registry_fixed_witness :
  match after [Incoming 100 200 demo_peer;
               Readable 0 [head_request] ReadWouldBlock;
               CapsChanged 7 matroska] with
  | Ok _ s' =>
      registry s' = registry (initial demo_endpoints)
      ∧ ∀ nm, find_by_name (endpoints s') nm 0
              = find_by_name (endpoints (initial demo_endpoints)) nm 0
  | Fault _ => False
  end.
Proof.
  destruct (after [Incoming 100 200 demo_peer;
                   Readable 0 [head_request] ReadWouldBlock;
                   CapsChanged 7 matroska]) as [[] s'|f] eqn:Hrun;
    [|vm_compute in Hrun; discriminate Hrun].
  exact (run_registry_fixed _ _ _ Hrun).
Defined.

(** ** Every 200 OK carries a content type *)

Lemma responses_typed_heap s h : responses_typed s → responses_typed (set_heap h s).
Proof. done. Qed.

Lemma responses_typed_clients s l :
  responses_typed s → responses_typed (set_clients l s).
Proof. done. Qed.

Lemma responses_typed_emit s e :
  typed_effect e → responses_typed s →
  responses_typed (set_effects (effects s ++ [e]) s).
Proof.
  intros He (Hnodup & Hres & Heffs). split_and!; [done | done |].
  state_cbn. apply Forall_app. split; [done|]. by apply Forall_singleton.
Qed.

Lemma responses_typed_removed s c conn :
  responses_typed s →
  responses_typed
    (set_heap (delete c (heap s))
       (set_effects (effects s ++ [Unref conn])
          (set_clients (g_list_remove (clients s) c) s))).
Proof.
  intros (Hnodup & Hres & Heffs). split_and!; [done | done |].
  state_cbn. apply Forall_app. split; [done|]. by apply Forall_singleton.
Qed.

Ltac typed_frame :=
  repeat first
    [ assumption
    | apply responses_typed_removed
    | apply responses_typed_heap
    | apply responses_typed_clients
    | apply responses_typed_emit; [exact I|] ].

(** An answer to a client whose endpoint has its content type. *)
Lemma send_response_200_ok_typed c s :
  responses_typed s →
  (∀ cl j ep, heap s !! c = Some cl → endpoint cl = Some j →
     endpoints s !! j = Some ep → typed (content_type ep)) →
  ensures (send_response_200_ok c) s (λ _ s', responses_typed s').
Proof.
  intros Hs Htyped. unfold send_response_200_ok.
  apply ensures_bind, ensures_deref. intros cl Hcl.
  apply ensures_bind, ensures_deref_endpoint. intros j ep Hj Hep.
  apply ensures_write_bytes; intros cl' Hcl' _.
  - typed_frame.
  - apply responses_typed_emit; [|done]. simpl. eauto.
Qed.

Lemma send_response_200_ok_locked_typed c s :
  responses_typed s →
  (∀ cl j ep, heap s !! c = Some cl → endpoint cl = Some j →
     endpoints s !! j = Some ep → typed (content_type ep)) →
  ensures (send_response_200_ok_locked c) s (λ _ s', responses_typed s').
Proof.
  intros Hs Htyped. unfold send_response_200_ok_locked.
  apply ensures_bind, ensures_deref. intros cl Hcl.
  apply ensures_bind, ensures_deref_endpoint. intros j ep Hj Hep.
  apply ensures_write_bytes_locked; intros cl' Hcl' _.
  apply responses_typed_emit; [|done]. simpl. eauto.
Qed.

Lemma responses_typed_route c path_parts :
  keeps responses_typed (route c path_parts).
Proof.
  intros s Hs. unfold route.
  destruct (bool_decide _); [|by apply ensures_ret].
  apply ensures_bind, ensures_get.
  destruct (find_by_name _ _ _) as [result|].
  - apply ensures_bind, ensures_update. intros cl Hcl.
    set (s1 := set_heap _ s).
    assert (responses_typed s1) as Hs1 by done.
    apply ensures_bind, ensures_deref. intros cl1 Hcl1.
    apply ensures_bind, ensures_deref_endpoint. intros j ep Hj Hep.
    apply ensures_bind.
    destruct (caps_resolved ep) eqn:Hres.
    + eapply ensures_weaken.
      * apply send_response_200_ok_typed; [done|].
        intros cl2 j2 ep2 Hcl2 Hj2 Hep2.
        rewrite Hcl1 in Hcl2. injection Hcl2 as <-.
        rewrite Hj in Hj2. injection Hj2 as <-.
        rewrite Hep in Hep2. injection Hep2 as <-.
        destruct Hs1 as (_ & Htyped & _). apply Htyped; [|done].
        by eapply list_elem_of_lookup_2.
      * intros [] s2 Hs2. by apply ensures_ret.
    + apply ensures_update. intros cl2 Hcl2. by apply ensures_ret.
  - unfold send_response_404_not_found.
    apply ensures_bind, ensures_bind, ensures_deref. intros cl Hcl.
    apply ensures_write_bytes; intros cl' Hcl' _; apply ensures_ret.
    + typed_frame.
    + typed_frame.
Qed.

Lemma element_resolve caps_name (i : nat) (l : list EndPoint) :
  element <$> alter (resolve_with caps_name) i l = element <$> l.
Proof.
  apply list_eq. intros j. rewrite !list_lookup_fmap.
  destruct (decide (i = j)) as [->|Hne].
  - rewrite list_lookup_alter_eq. by destruct (l !! j).
  - by rewrite list_lookup_alter_ne.
Qed.

Lemma find_by_element_none (l : list EndPoint) elem i0 :
  find_by_element l elem i0 = None → ∀ e, e ∈ l → element e ≠ elem.
Proof.
  revert i0. induction l as [|e l IH]; intros i0; simpl.
  - by intros _ e ?%not_elem_of_nil.
  - case_bool_decide as He; [done|]. intros Hnone e' [->|Hin]%elem_of_cons.
    + done.
    + by eapply IH.
Qed.

(** While the loop of [on_stream_caps_changed] runs, every endpoint of the
    element has its content type. *)
Lemma responses_typed_notify_waiting l elem s :
  responses_typed s →
  (∀ e, e ∈ endpoints s → element e = elem → typed (content_type e)) →
  ensures (notify_waiting l elem) s (λ _ s', responses_typed s').
Proof.
  intros Hs Helem. induction l as [|c l IH]; simpl.
  - by apply ensures_ret.
  - apply ensures_bind, ensures_deref. intros cl Hcl.
    apply ensures_bind, ensures_deref_endpoint. intros j ep Hj Hep.
    destruct (bool_decide (element ep = elem) && waiting_200_ok cl) eqn:Hcond;
      [|done].
    apply andb_true_iff in Hcond as [Hel%bool_decide_eq_true _].
    apply ensures_bind. eapply ensures_weaken.
    + apply send_response_200_ok_locked_typed; [done|].
      intros cl2 j2 ep2 Hcl2 Hj2 Hep2.
      rewrite Hcl in Hcl2. injection Hcl2 as <-.
      rewrite Hj in Hj2. injection Hj2 as <-.
      rewrite Hep in Hep2. injection Hep2 as <-.
      apply Helem; [|done]. by eapply list_elem_of_lookup_2.
    + intros [] s2 Hs2. apply ensures_update. by intros.
Qed.

Lemma responses_typed_caps_changed elem caps_name :
  keeps responses_typed (on_stream_caps_changed elem caps_name).
Proof.
  intros s Hs. unfold on_stream_caps_changed.
  apply ensures_bind, ensures_get.
  destruct (find_by_element (endpoints s) elem 0) as [i|] eqn:Hfind.
  - apply ensures_bind, ensures_modify. apply ensures_bind, ensures_get.
    fold (resolve_with caps_name).
    destruct (find_by_element_lookup _ _ _ _ Hfind) as (ep & Hep & Hel & _).
    rewrite Nat.sub_0_r in Hep.
    destruct Hs as (Hnodup & Htyped & Heffs).
    assert (∀ j e, alter (resolve_with caps_name) i (endpoints s) !! j = Some e →
              ∃ e0, endpoints s !! j = Some e0 ∧ element e = element e0
                ∧ (j = i ∧ e = resolve_with caps_name e0 ∨ j ≠ i ∧ e = e0))
      as Halter.
    { intros j e. destruct (decide (i = j)) as [<-|Hne].
      - rewrite list_lookup_alter_eq, Hep. intros [= <-]. eauto 10.
      - rewrite list_lookup_alter_ne by done. eauto 10. }
    apply responses_typed_notify_waiting.
    + split_and!; state_cbn; [| |done].
      * by rewrite element_resolve.
      * intros e (j & He)%list_elem_of_lookup Hres.
        destruct (Halter _ _ He) as (e0 & He0 & _ & [[-> ->]|[_ ->]]).
        -- by eexists.
        -- apply Htyped; [|done]. by eapply list_elem_of_lookup_2.
    + state_cbn. intros e (j & He)%list_elem_of_lookup Helem.
      destruct (Halter _ _ He) as (e0 & He0 & Hsame & [[-> ->]|[Hne ->]]).
      * by eexists.
      * destruct Hne.
        eapply (NoDup_lookup (element <$> endpoints s)); [done | |].
        -- by rewrite list_lookup_fmap, He0.
        -- rewrite list_lookup_fmap, Hep. simpl. congruence.
  - apply ensures_bind, ensures_ret. apply ensures_bind, ensures_get.
    apply responses_typed_notify_waiting; [done|].
    intros e He Hel. by destruct (find_by_element_none _ _ _ Hfind e He).
Qed.

Lemma keeps_responses_typed evs : keeps responses_typed (run evs).
Proof.
  apply keeps_run with (safe := typed_effect); try done.
  - apply responses_typed_emit.
  - apply responses_typed_route.
  - intros. apply keeps_start_streaming_safe with (safe := typed_effect);
      first [done | apply responses_typed_emit].
  - apply responses_typed_caps_changed.
Qed.

(** X15.  When no two endpoints share an element, every 200 OK the server
    sends carries the Content-Type header built by
    [on_stream_caps_changed]: the answer is never sent before the content
    type of the client's endpoint is known. *)
Theorem run_200_ok_typed eps evs s c version ctype :
  NoDup eps.*1 →
  run evs (initial eps) = Ok tt s →
  Written c (Response200 version ctype) ∈ effects s →
  ∃ caps_name, ctype = Some (caps_content_type caps_name).
Proof.
  intros Hnodup Hrun Hin.
  assert (responses_typed (initial eps)) as Hinit.
  { split_and!; simpl.
    - rewrite <- list_fmap_compose.
      erewrite list_fmap_ext; [exact Hnodup|]. by intros ? [].
    - intros e (? & -> & ?)%list_elem_of_fmap. by destruct x.
    - constructor. }
  destruct (keeps_responses_typed evs _ Hinit tt s Hrun) as (_ & _ & Heffs).
  rewrite Forall_forall in Heffs. exact (Heffs _ Hin).
Qed.

Lemma run_200_ok_typed_witness :
  ∃ caps_name,
    Some (caps_content_type matroska) = Some (caps_content_type caps_name).
Proof.
  apply (run_200_ok_typed demo_endpoints demo_events answered 0
           (str "HTTP/1.0") (Some (caps_content_type matroska))).
  - apply NoDup_singleton.
  - vm_compute. reflexivity.
  - apply list_elem_of_lookup. exists 1. reflexivity.
Defined.

(** ** The pipeline is started once *)

Lemma count_playing_snoc effs e :
  count_playing (effs ++ [e])
  = count_playing effs + (if is_set_playing e then 1 else 0).
Proof.
  unfold count_playing. rewrite filter_app, length_app. f_equal.
  rewrite filter_cons, filter_nil. destruct (is_set_playing e); by case_decide.
Qed.

Lemma started_once_emit s e :
  is_set_playing e = false → started_once s →
  started_once (set_effects (effects s ++ [e]) s).
Proof.
  unfold started_once. intros He Hs. state_cbn.
  rewrite count_playing_snoc, He. lia.
Qed.

Lemma started_once_start_streaming c get burst_mode min_value :
  keeps started_once (start_streaming c get burst_mode min_value).
Proof.
  unfold start_streaming. apply keeps_bind.
  - destruct get; [|apply keeps_ret].
    repeat first
      [ keeps_base
      | apply keeps_update; done
      | apply keeps_emit with (safe := λ e, is_set_playing e = false);
          [apply started_once_emit | done] ].
  - intros []. intros s Hs. apply ensures_bind, ensures_get.
    destruct (started s) eqn:Hstarted; [by apply ensures_ret|].
    apply ensures_bind, ensures_emit, ensures_bind.
    unfold started_once in *. rewrite Hstarted in Hs.
    destruct (play_fails s).
    + apply ensures_emit, ensures_modify. state_cbn.
      rewrite !count_playing_snoc. simpl. lia.
    + apply ensures_ret, ensures_modify. state_cbn.
      rewrite !count_playing_snoc. simpl. lia.
Qed.

Lemma keeps_started_once evs : keeps started_once (run evs).
Proof.
  apply keeps_run with (safe := λ e, is_set_playing e = false); try done.
  - apply started_once_emit.
  - intros. apply keeps_route_safe with (safe := λ e, is_set_playing e = false);
      first [done | apply started_once_emit].
  - apply started_once_start_streaming.
  - intros. apply keeps_caps_changed_safe
      with (safe := λ e, is_set_playing e = false);
      first [done | apply started_once_emit].
Qed.

(** X16.  From a state in which the pipeline has not been started, a run sets
    it to PLAYING at most once, and [started] tells whether it did. *)
Theorem run_pipeline_started_once evs s s' :
  started s = false →
  count_playing (effects s) = 0 →
  run evs s = Ok tt s' →
  count_playing (effects s') = (if started s' then 1 else 0).
Proof.
  intros Hstarted Hnone Hrun.
  apply (keeps_started_once evs s) with (a := tt); [|exact Hrun].
  unfold started_once. by rewrite Hstarted.
Qed.

Lemma run_pipeline_started_once_witness :
  count_playing (effects answered) = (if started answered then 1 else 0).
Proof.
  apply (run_pipeline_started_once demo_events (initial demo_endpoints));
    vm_compute; reflexivity.
Defined.

(** ** Start-up *)

Lemma g_ascii_tolower_nul ch : ch ≠ nul → g_ascii_tolower ch ≠ nul.
Proof.
  intros Hch. unfold g_ascii_tolower. case_bool_decide as Hup; [|done].
  intros Heq. apply (f_equal nat_of_ascii) in Heq.
  rewrite nat_ascii_embedding in Heq by lia.
  change (nat_of_ascii nul) with 0 in Heq. lia.
Qed.

Lemma g_ascii_strcasecmp_eq s1 s2 :
  nul ∉ s1 → nul ∉ s2 →
  g_ascii_strcasecmp s1 s2 = 0%Z
  ↔ g_ascii_tolower <$> s1 = g_ascii_tolower <$> s2.
Proof.
  assert (∀ ch, ch ≠ nul → Z.of_nat (nat_of_ascii ch) ≠ 0%Z) as Hnz.
  { intros ch Hch Hz. apply Hch.
    rewrite <- (ascii_nat_embedding ch).
    replace (nat_of_ascii ch) with 0 by lia. done. }
  revert s2. induction s1 as [|c1 s1 IH]; intros [|c2 s2] H1 H2;
    cbn [g_ascii_strcasecmp]; rewrite ?fmap_cons.
  - done.
  - apply not_elem_of_cons in H2 as [Hc2 _].
    split; [|done]. intros Hz. destruct (Hnz c2); [done | lia].
  - apply not_elem_of_cons in H1 as [Hc1 _].
    split; [|done]. intros Hz. by destruct (Hnz c1).
  - apply not_elem_of_cons in H1 as [Hc1 H1].
    apply not_elem_of_cons in H2 as [Hc2 H2].
    specialize (IH s2 H1 H2). cbv zeta.
    case_bool_decide as Heq.
    + assert (g_ascii_tolower c1 = g_ascii_tolower c2) as Hc.
      { rewrite <- (ascii_nat_embedding (g_ascii_tolower c1)),
          <- (ascii_nat_embedding (g_ascii_tolower c2)).
        f_equal. lia. }
      split.
      * intros Hz. f_equal; [done | by apply IH].
      * intros [= _ Hs]. by apply IH.
    + split; [lia|]. intros [= Hc _]. by rewrite Hc in Heq.
Qed.

Lemma foldl_add_endpoint elems : ∀ acc,
  Forall (λ elm, nul ∉ pe_factory elm) elems →
  foldl add_endpoint acc elems
  = acc ++ ((λ elm, mkEndPoint (pe_element elm) (pe_name elm) None false)
              <$> filter is_sink elems).
Proof.
  induction elems as [|elm elems IH]; intros acc Hfact; simpl.
  - by rewrite app_nil_r.
  - apply Forall_cons in Hfact as [Hnul Hfact].
    rewrite IH by done. unfold add_endpoint at 1.
    assert (g_ascii_strcasecmp (str "multisocketsink") (pe_factory elm) = 0%Z
            ↔ is_sink elm) as Hsink.
    { rewrite g_ascii_strcasecmp_eq; [| |done].
      - assert (g_ascii_tolower <$> str "multisocketsink"
                = str "multisocketsink") as -> by (vm_compute; reflexivity).
        unfold is_sink. split; by intros ->.
      - intros Hin. repeat (apply elem_of_cons in Hin as [[=]|Hin]).
        by apply not_elem_of_nil in Hin. }
    rewrite filter_cons. case_bool_decide as Hcmp.
    + rewrite decide_True by by apply Hsink.
      by rewrite <- app_assoc.
    + rewrite decide_False; [done|]. by rewrite <- Hsink.
Qed.

(** X19.  [main] enters the loop with the multisocketsink elements of the
    pipeline as endpoints, matched on the factory name without regard to
    case, in the order of iteration, each under the name of its element and
    with no content type yet; there is no client and nothing has been
    sent. *)
Theorem main_registers_sinks env elems port s :
  parsed env = Some elems →
  Forall (λ elm, nul ∉ pe_factory elm) elems →
  main env = Serving port s →
  let sinks := (λ elm, (pe_element elm, pe_name elm)) <$> filter is_sink elems in
  endpoints s = endpoints (initial sinks)
  ∧ clients s = [] ∧ heap s = ∅ ∧ effects s = [] ∧ started s = false
  ∧ (playing_fails env = false → s = initial sinks).
Proof.
  intros Hparsed Hfact Hmain sinks. unfold main in Hmain.
  case_bool_decide; [done|]. rewrite Hparsed in Hmain.
  destruct (ready_fails env); [done|]. injection Hmain as _ <-.
  assert (find_endpoints elems = endpoints (initial sinks)) as Heps.
  { unfold find_endpoints. rewrite foldl_add_endpoint by done.
    subst sinks. simpl. by rewrite <- list_fmap_compose. }
  split_and!; try done.
  intros Hplay. by apply state_ext.
Qed.

Lemma main_registers_sinks_witness :
  let sinks :=
    (λ elm, (pe_element elm, pe_name elm)) <$> filter is_sink demo_pipeline in
  endpoints (initial demo_endpoints) = endpoints (initial sinks)
  ∧ clients (initial demo_endpoints) = []
  ∧ heap (initial demo_endpoints) = ∅
  ∧ effects (initial demo_endpoints) = []
  ∧ started (initial demo_endpoints) = false
  ∧ (playing_fails demo_launch = false → initial demo_endpoints = initial sinks).
Proof.
  apply (main_registers_sinks demo_launch demo_pipeline 8080%Z
           (initial demo_endpoints)).
  - reflexivity.
  - repeat constructor;
      (intros Hin; repeat (apply elem_of_cons in Hin as [[=]|Hin]);
       by apply not_elem_of_nil in Hin).
  - vm_compute. reflexivity.
Defined.

(** X20.  The port [main] listens on is the number written in [argv[1]],
    reduced modulo 65536 by the conversion to [guint16]: [70000] listens on
    4464. *)
Theorem main_port env ds port s :
  argv env !! 1 = Some (decimal ds) →
  Forall (λ d, d < 10) ds →
  (decimal_value ds < 2 ^ 31)%Z →
  main env = Serving port s →
  port = (decimal_value ds mod 65536)%Z.
Proof.
  intros Harg Hds Hsmall Hmain. unfold main in Hmain.
  case_bool_decide; [done|]. rewrite Harg in Hmain. simpl in Hmain.
  rewrite (g_ascii_strtoll_decimal ds Hds Hsmall) in Hmain.
  destruct (parsed env); [|done]. destruct (ready_fails env); [done|].
  by injection Hmain as <- _.
Qed.

Lemma main_port_witness :
  4464%Z = (decimal_value [7; 0; 0; 0; 0]%nat mod 65536)%Z.
Proof.
  apply (main_port
           {| argv := [str "http-launch"; str "70000"];
              parsed := Some demo_pipeline;
              ready_fails := false; playing_fails := false |}
           [7; 0; 0; 0; 0] 4464%Z (initial demo_endpoints)).
  - reflexivity.
  - repeat constructor.
  - vm_compute. reflexivity.
  - vm_compute. reflexivity.
Defined.

(** ** The active set and the scan loop, over every run *)

(** X17.  In every state the main loop reaches, [clients] lists exactly the
    clients that are allocated, each once: no freed client stays in the
    list and no live client is missing from it. *)
Theorem run_clients_live evs eps s :
  run evs (initial eps) = Ok tt s →
  NoDup (clients s) ∧ ∀ c, c ∈ clients s ↔ is_Some (heap s !! c).
Proof.
  intros Hrun. destruct (run_consistent _ _ _ Hrun) as [Hnodup Hlive _].
  by split.
Qed.

Lemma run_clients_live_witness :
  NoDup (clients answered)
  ∧ ∀ c, c ∈ clients answered ↔ is_Some (heap answered !! c).
Proof.
  apply (run_clients_live demo_events demo_endpoints answered).
  vm_compute. reflexivity.
Defined.

(** X18.  The scan loop of [on_read_bytes] never uses up the iterations
    allowed for, two more than the bytes buffered, whatever the events: a
    request that is handled either takes at least five bytes out of the
    buffer, or has the client removed, or, when the NUL append has moved
    the storage and [len] is computed from the stale [tmp], ends the run in
    a memory fault. *)
Theorem scan_loop_terminates evs s : run evs s ≠ Fault OutOfFuel.
Proof. apply fuel_free_run_events. Qed.

(** ** The version echoed *)

Lemma split_on_tokens is_delim s tok :
  tok ∈ split_on is_delim s →
  Forall (λ ch, is_delim ch = false ∧ ch ∈ s) tok.
Proof.
  revert tok. induction s as [|ch s IH]; intros tok; simpl.
  - intros ->%list_elem_of_singleton. constructor.
  - destruct (is_delim ch) eqn:Hch.
    + intros [->|Hin]%elem_of_cons; [constructor|].
      eapply Forall_impl; [by apply IH|]. intros ? [? ?]. split; [done|by right].
    + destruct (split_on is_delim s) as [|tok0 toks] eqn:Hsplit.
      * intros ->%list_elem_of_singleton.
        constructor; [split; [done | by left] | constructor].
      * intros [->|Hin]%elem_of_cons.
        -- constructor; [split; [done|by left]|].
           eapply Forall_impl; [apply IH; by left|].
           intros ? [? ?]. split; [done|by right].
        -- eapply Forall_impl; [apply IH; by right|].
           intros ? [? ?]. split; [done|by right].
Qed.

Lemma cstring_no_nul data : nul ∉ cstring data.
Proof.
  induction data as [|ch data IH]; simpl; [apply not_elem_of_nil|].
  case_decide; [apply not_elem_of_nil|]. by apply not_elem_of_cons.
Qed.

Lemma request_version_clean data :
  let line := default [] (g_strsplit_set (cstring data) crlf !! 0) in
  let version := request_version (g_strsplit line " "%char) in
  version ≠ [] ∧ token [" "%char; cr; lf; nul] version.
Proof.
  intros line version.
  assert (token [cr; lf; nul] line) as Hline.
  { subst line. destruct (g_strsplit_set _ _ !! 0) as [l|] eqn:Hl;
      [|constructor].
    apply list_elem_of_lookup_2 in Hl. unfold g_strsplit_set in Hl.
    destruct (cstring data) as [|ch rest] eqn:Hdata;
      [by apply not_elem_of_nil in Hl|].
    apply split_on_tokens in Hl. rewrite <- Hdata in Hl.
    eapply Forall_impl; [exact Hl|]. intros x [Hdelim Hin] Hx. simpl.
    apply bool_decide_eq_false in Hdelim.
    apply elem_of_cons in Hx as [->|Hx]; [apply Hdelim; by left|].
    apply elem_of_cons in Hx as [->|Hx]; [apply Hdelim; right; by left|].
    apply list_elem_of_singleton in Hx as ->.
    by apply (cstring_no_nul data). }
  assert (∀ tok, tok ∈ g_strsplit line " "%char →
            token [" "%char; cr; lf; nul] tok) as Htok.
  { intros tok Hin. unfold g_strsplit in Hin.
    destruct line as [|ch rest] eqn:Hl; [by apply not_elem_of_nil in Hin|].
    apply split_on_tokens in Hin.
    eapply Forall_impl; [exact Hin|]. intros x [Hdelim Hx] Hbad. simpl.
    apply bool_decide_eq_false in Hdelim.
    apply elem_of_cons in Hbad as [->|Hbad]; [done|].
    unfold token in Hline. rewrite Forall_forall in Hline.
    by apply (Hline x). }
  subst version. unfold request_version.
  destruct (g_strsplit line " "%char !! 1) as [p|] eqn:Hp.
  - destruct (g_strsplit line " "%char !! 2) as [[|ch v]|] eqn:Hv.
    + split; [done|]. repeat constructor;
        (intros Hin; repeat (apply elem_of_cons in Hin as [[=]|Hin]);
         by apply not_elem_of_nil in Hin).
    + split; [done|]. apply Htok. by eapply list_elem_of_lookup_2.
    + split; [done|]. repeat constructor;
        (intros Hin; repeat (apply elem_of_cons in Hin as [[=]|Hin]);
         by apply not_elem_of_nil in Hin).
  - split; [done|]. repeat constructor;
      (intros Hin; repeat (apply elem_of_cons in Hin as [[=]|Hin]);
       by apply not_elem_of_nil in Hin).
Qed.

(** X22.  The version [client_message] stores for a GET or HEAD request, and
    echoes in the status line of its answer, is never empty and holds no
    space, CR, LF or NUL, whatever bytes the client sent. *)
Theorem request_version_token data :
  let line := default [] (g_strsplit_set (cstring data) crlf !! 0) in
  let version := request_version (g_strsplit line " "%char) in
  version ≠ [] ∧ token [" "%char; cr; lf; nul] version.
Proof. apply request_version_clean. Qed.

(** ** The offset segment *)

Lemma g_ascii_strtoll_decimal_long ds :
  Forall (λ d, d < 10) ds →
  (decimal_value ds ≤ G_MAXINT64)%Z →
  g_ascii_strtoll (decimal ds) = decimal_value ds.
Proof.
  intros Hds Hfits.
  pose proof (decimal_value_nonneg ds 0%Z ltac:(done)) as Hpos.
  fold (decimal_value ds) in Hpos.
  pose proof (parse_digits_decimal ds 0%Z Hds) as Hparse.
  fold (decimal_value ds) in Hparse.
  destruct Hds as [|d ds Hd Hds]; [done|].
  change (decimal (d :: ds)) with (ascii_of_nat (48 + d) :: decimal ds) in *.
  rewrite g_ascii_strtoll_digit, Hparse by done. lia.
Qed.

(** X21.  A fourth path segment written in digits sets the lower limit of the
    burst whenever it denotes, read through [(gint)], a number of seconds
    strictly between 0 and [MAX_FLASHBACK]: with any third segment, the
    burst mode staying 2 unless that segment is [flashback], and with the
    number counted modulo 2^32. *)
Theorem delivery_mode_offset path_parts seg ds :
  path_parts !! 2 = Some seg →
  path_parts !! 3 = Some (decimal ds) →
  Forall (λ d, d < 10) ds →
  (decimal_value ds ≤ G_MAXINT64)%Z →
  (0 < to_gint (decimal_value ds) < MAX_FLASHBACK)%Z →
  delivery_mode path_parts true
  = (if bool_decide (seg = str "flashback") then 4%Z else 2%Z,
     (to_gint (decimal_value ds) * GST_SECOND)%Z).
Proof.
  intros Hseg Hoff Hds Hfits Hrange. unfold delivery_mode, g_strv_length.
  pose proof (lookup_lt_Some _ _ _ Hoff) as Hlen.
  rewrite (bool_decide_true (2 < length path_parts)) by lia.
  rewrite (bool_decide_true (3 < length path_parts)) by lia.
  rewrite Hseg, Hoff. cbn [default from_option andb]. unfold id.
  rewrite (g_ascii_strtoll_decimal_long ds Hds Hfits).
  rewrite (bool_decide_true (0 < _)%Z) by lia.
  rewrite (bool_decide_true (_ < MAX_FLASHBACK)%Z) by lia. cbn [andb].
  assert (to_guint64 (to_gint (decimal_value ds) * GST_SECOND)
          = (to_gint (decimal_value ds) * GST_SECOND)%Z) as ->.
  { unfold to_guint64, MAX_FLASHBACK, GST_SECOND in *.
    apply Z.mod_small. lia. }
  destruct (bool_decide (g_strcmp0 seg (str "flashback") = 0%Z)) eqn:Hcmp.
  - apply bool_decide_eq_true, g_strcmp0_eq in Hcmp.
    by rewrite bool_decide_true.
  - apply bool_decide_eq_false in Hcmp. rewrite g_strcmp0_eq in Hcmp.
    by rewrite bool_decide_false.
Qed.

Lemma delivery_mode_offset_witness :
  delivery_mode
    [[]; str "test"; str "live"; decimal long_offset] true
  = (if bool_decide (str "live" = str "flashback") then 4%Z else 2%Z,
     (to_gint (decimal_value long_offset) * GST_SECOND)%Z).
Proof.
  apply (delivery_mode_offset
           [[]; str "test"; str "live"; decimal long_offset]
           (str "live") long_offset).
  - reflexivity.
  - reflexivity.
  - repeat constructor.
  - vm_compute. discriminate.
  - vm_compute. split; reflexivity.
Defined.

Lemma on_read_bytes_incomplete_witness :
  on_read_bytes 0 [str "GET /te"] ReadWouldBlock (connected [])
  = Ok true
      (set_heap
         (<[0 := set_current_message
                   (current_message (demo_client []) ++ concat [str "GET /te"])
                   (demo_client [])]> (heap (connected [])))
         (connected [])).
Proof.
  apply (on_read_bytes_incomplete 0 (connected []) (demo_client [])
           [str "GET /te"]).
  - reflexivity.
  - intros (pre & post & Heq).
    assert (cr ∈ current_message (demo_client []) ++ concat [str "GET /te"])
      as Hin.
    { rewrite Heq. apply elem_of_app. right. by left. }
    simpl in Hin. repeat (apply elem_of_cons in Hin as [[=]|Hin]).
    by apply not_elem_of_nil in Hin.
  - simpl. lia.
Defined.

(** ** Sessions stay well formed *)

Section well_formed.
Context (n : nat).

Lemma well_formed_insert s c cl :
  well_formed n s → well_formed_client n cl →
  well_formed n (set_heap (<[c := cl]> (heap s)) s).
Proof.
  intros (Hlen & Hheap & Heffs) Hcl. split_and!; [done | | done].
  intros c' cl'. state_cbn. rewrite lookup_insert. case_decide.
  - by intros [= <-].
  - apply Hheap.
Qed.

Lemma well_formed_emit s e :
  clean_response e → well_formed n s →
  well_formed n (set_effects (effects s ++ [e]) s).
Proof.
  intros He (Hlen & Hheap & Heffs). split_and!; [done | done |].
  state_cbn. apply Forall_app. split; [done|]. by apply Forall_singleton.
Qed.

Lemma well_formed_removed s c conn :
  well_formed n s →
  well_formed n
    (set_heap (delete c (heap s))
       (set_effects (effects s ++ [Unref conn])
          (set_clients (g_list_remove (clients s) c) s))).
Proof.
  intros (Hlen & Hheap & Heffs). split_and!; [done | |].
  - intros c' cl'. state_cbn. rewrite lookup_delete. case_decide; [done|].
    apply Hheap.
  - state_cbn. apply Forall_app. split; [done|]. by apply Forall_singleton.
Qed.

Lemma keeps_well_formed_update c f :
  (∀ cl, well_formed_client n cl → well_formed_client n (f cl)) →
  keeps (well_formed n) (update c f).
Proof.
  intros Hf s Hs. apply ensures_update. intros cl Hcl.
  apply well_formed_insert; [done|]. apply Hf.
  destruct Hs as (_ & Hheap & _). by eapply Hheap.
Qed.

Lemma keeps_well_formed_remove_client c :
  keeps (well_formed n) (remove_client c).
Proof.
  intros s Hs. apply ensures_remove_client. intros cl Hcl.
  by apply well_formed_removed.
Qed.

(** A response that echoes the version of the client as it stands. *)
Lemma keeps_well_formed_write c (r : bytes → response) :
  (∀ v, response_version (r v) = v) →
  keeps (well_formed n)
    (cl ← deref c; write_bytes c (r (http_version cl))).
Proof.
  intros Hr s Hs. apply ensures_bind, ensures_deref. intros cl Hcl.
  apply ensures_write_bytes; intros cl' Hcl' _.
  - by apply well_formed_removed.
  - apply well_formed_emit; [|done]. simpl. rewrite Hr.
    destruct Hs as (_ & Hheap & _). apply (Hheap _ _ Hcl).
Qed.

Lemma keeps_well_formed_send_200 c :
  keeps (well_formed n) (send_response_200_ok c).
Proof.
  intros s Hs. unfold send_response_200_ok.
  apply ensures_bind, ensures_deref. intros cl Hcl.
  apply ensures_bind, ensures_deref_endpoint. intros i ep Hi Hep.
  apply ensures_write_bytes; intros cl' Hcl' _.
  - by apply well_formed_removed.
  - apply well_formed_emit; [|done]. simpl.
    destruct Hs as (_ & Hheap & _). apply (Hheap _ _ Hcl).
Qed.

Lemma keeps_well_formed_send_200_locked c :
  keeps (well_formed n) (send_response_200_ok_locked c).
Proof.
  intros s Hs. unfold send_response_200_ok_locked.
  apply ensures_bind, ensures_deref. intros cl Hcl.
  apply ensures_bind, ensures_deref_endpoint. intros i ep Hi Hep.
  apply ensures_write_bytes_locked; intros cl' Hcl' _.
  apply well_formed_emit; [|done]. simpl.
  destruct Hs as (_ & Hheap & _). apply (Hheap _ _ Hcl).
Qed.

Ltac client_fields :=
  unfold well_formed_client; state_cbn; intuition (eauto; try congruence).

Ltac well_formed_step :=
  first
    [ keeps_base
    | lazymatch goal with
      | |- keeps _ (update _ _) =>
          apply keeps_well_formed_update; intros ?; client_fields
      | |- keeps _ (remove_client _) => apply keeps_well_formed_remove_client
      | |- keeps _ (send_response_200_ok _) => apply keeps_well_formed_send_200
      | |- keeps _ (send_response_200_ok_locked _) =>
          apply keeps_well_formed_send_200_locked
      end ].

Ltac well_formed_solve Hs :=
  let Hlen := fresh "Hlen" in
  let Hheap := fresh "Hheap" in
  let Heffs := fresh "Heffs" in
  destruct Hs as (Hlen & Hheap & Heffs);
  repeat match goal with
  | H : heap _ !! _ = Some _ |- _ =>
      let Hwf := fresh "Hwf" in
      pose proof (Hheap _ _ H) as Hwf; revert H
  end;
  intros;
  repeat match goal with
  | H : find_by_name _ _ 0 = Some _ |- _ =>
      let e := fresh "ep" in
      let He := fresh "Hep" in
      destruct (find_by_name_lookup _ _ _ _ H) as (e & He & _ & _);
      rewrite Nat.sub_0_r in He; apply lookup_lt_Some in He;
      state_cbn_in He; clear H
  end;
  split_and!; state_cbn;
  [ done
  | rewrite ?insert_insert_eq, ?delete_insert_eq;
    let c' := fresh "c" in
    let cl' := fresh "cl" in
    intros c' cl';
    rewrite ?lookup_insert, ?lookup_delete;
    repeat case_decide; first [ done | by apply Hheap | idtac ];
    intros [= <-]
  | rewrite ?Forall_app, ?Forall_singleton; simpl; state_cbn ].

Ltac well_formed_leaf :=
  repeat match goal with
  | H : well_formed_client _ _ |- _ => destruct H as (? & ? & ? & ? & ?)
  end;
  unfold well_formed_client; state_cbn;
  repeat split;
  first
    [ assumption
    | done
    | by eauto
    | by (intros ? [= <-]; lia)
    | by left
    | by (right; assumption) ].

Lemma keeps_well_formed_client_message c data len :
  keeps (well_formed n) (client_message c data len).
Proof.
  intros s Hs.
  destruct (request_version_clean data) as [_ Hversion]. cbv zeta in Hversion.
  unfold client_message. cbv zeta.
  set (version := request_version _) in *. clearbody version.
  unfold route, start_streaming, send_response_200_ok,
    send_response_404_not_found, send_response_400_not_found.
  ensures_all.
  all: well_formed_solve Hs.
  all: well_formed_leaf.
Qed.

Lemma keeps_well_formed_scan_loop fuel c : ∀ tmp tmp_len,
  keeps (well_formed n) (scan_loop fuel c tmp tmp_len).
Proof.
  induction fuel as [|fuel IH]; intros tmp tmp_len; simpl.
  - apply keeps_fail.
  - unfold handle_request. cbv zeta.
    repeat well_formed_step; try apply keeps_well_formed_client_message;
      apply IH.
Qed.

Lemma keeps_well_formed_on_read_bytes c reads last :
  keeps (well_formed n) (on_read_bytes c reads last).
Proof.
  unfold on_read_bytes. destruct last; repeat well_formed_step.
  apply keeps_well_formed_scan_loop.
Qed.

Lemma keeps_well_formed_on_new_connection conn sock peer :
  keeps (well_formed n) (on_new_connection conn sock peer).
Proof.
  intros s Hs. unfold on_new_connection. ensures_all.
  well_formed_solve Hs; well_formed_leaf.
Qed.

Lemma keeps_well_formed_notify_waiting l elem :
  keeps (well_formed n) (notify_waiting l elem).
Proof.
  induction l as [|c l IH]; simpl.
  - apply keeps_ret.
  - repeat well_formed_step. done.
Qed.

Lemma keeps_well_formed_dispatch ev : keeps (well_formed n) (dispatch ev).
Proof.
  destruct ev; simpl; unfold on_timeout, on_client_socket_removed,
    on_stream_caps_changed.
  - repeat well_formed_step. apply keeps_well_formed_on_new_connection.
  - repeat well_formed_step. apply keeps_well_formed_on_read_bytes.
  - repeat well_formed_step.
  - repeat well_formed_step.
    match goal with |- keeps _ (find_by_socket ?l _) => induction l end;
      simpl; repeat well_formed_step; done.
  - repeat well_formed_step.
    + apply keeps_modify. intros s (Hlen & Hheap & Heffs).
      split_and!; [|done..]. state_cbn. by rewrite length_alter.
    + apply keeps_well_formed_notify_waiting.
  - apply keeps_modify. by intros s (Hlen & Hheap & Heffs).
Qed.

Lemma keeps_well_formed_run evs : keeps (well_formed n) (run evs).
Proof.
  induction evs as [|ev evs IH]; simpl.
  - apply keeps_ret.
  - apply keeps_bind; [apply keeps_well_formed_dispatch | done].
Qed.

End well_formed.

Lemma well_formed_initial eps : well_formed (length eps) (initial eps).
Proof.
  split_and!; simpl.
  - by rewrite length_fmap.
  - intros c cl. by rewrite lookup_empty.
  - constructor.
Qed.

(** X23.  In every state the main loop reaches, every live client has its
    two sources attached or detached together, an endpoint pointer that is
    NULL or points to an endpoint of the registry, an endpoint whenever it
    waits for its 200 OK or has had its socket handed to a sink, and a
    version that is the empty string it was created with or holds no space,
    CR, LF or NUL. *)
Theorem run_sessions_well_formed eps evs s c cl :
  run evs (initial eps) = Ok tt s →
  heap s !! c = Some cl →
  isource cl = tosource cl
  ∧ (∀ i, endpoint cl = Some i → i < length (endpoints s))
  ∧ (waiting_200_ok cl = true → is_Some (endpoint cl))
  ∧ (isource cl = false → is_Some (endpoint cl))
  ∧ (http_version cl = [] ∨ token [" "%char; cr; lf; nul] (http_version cl)).
Proof.
  intros Hrun Hcl.
  destruct (keeps_well_formed_run _ evs _ (well_formed_initial eps) tt s Hrun)
    as (Hlen & Hheap & _).
  rewrite Hlen. exact (Hheap _ _ Hcl).
Qed.

Lemma run_sessions_well_formed_witness :
  let cl := {| name := demo_peer; connection := 100; socket := 200;
               isource := true; tosource := true;
               current_message := []; allocated := 1024;
               http_version := str "HTTP/1.0";
               waiting_200_ok := false; endpoint := Some 0 |} in
  isource cl = tosource cl
  ∧ (∀ i, endpoint cl = Some i → i < length (endpoints answered))
  ∧ (waiting_200_ok cl = true → is_Some (endpoint cl))
  ∧ (isource cl = false → is_Some (endpoint cl))
  ∧ (http_version cl = [] ∨ token [" "%char; cr; lf; nul] (http_version cl)).
Proof.
  apply (run_sessions_well_formed demo_endpoints demo_events answered 0).
  - vm_compute. reflexivity.
  - reflexivity.
Defined.


